(** * gabi: Idemix disclosure proofs (credential.go, proofs.go)

    A shallow embedding of the proof machinery of the [credential] package:
    the disclosure proof [ProofD], the issuance proof [ProofU], the issuer
    proof [ProofS], the proof list and its orchestrator [BuildProofList].

    Conventions.
    - A [*big.Int] that the code always dereferences is a [Z]; a [*big.Int]
      that may be nil when it is stored (the value handed back by the random
      source, the result of a map lookup) is an [option Z], [None] being nil.
    - A function that can stop with a run-time panic (nil dereference, index
      out of range, division by zero) returns an [option]; [None] is the
      panic.
    - Go's [uint] is taken at 64 bits and its arithmetic wraps around.
    - Go's [int] indices are [Z]; no arithmetic is done on them. *)

From Stdlib Require Import ZArith Zcong Lia Permutation.
From stdpp Require Import base option list sorting gmap fin_maps.

#[local] Open Scope Z_scope.

(** ** Machine words *)

Module Uint.
Definition modulus : N := (2 ^ 64)%N.
Definition add (a b : N) : N := ((a + b) mod modulus)%N.
Definition sub (a b : N) : N := ((a + (modulus - b mod modulus)) mod modulus)%N.
End Uint.

(** ** math/big *)

Module Big.
(** [ONE.Lsh(x, n)]: [x << n]. *)
Definition Lsh (x : Z) (n : N) : Z := Z.shiftl x (Z.of_N n).

(** [z.Mod(x, y)]: Euclidean modulus, a division-by-zero panic for [y = 0]. *)
Definition Mod (x y : Z) : option Z :=
  if y =? 0 then None else Some (x mod Z.abs y).

(** [z.ModInverse(g, n)]: the inverse of [g] in Z/nZ, in [[0, |n|)];
    nil when [g] and [n] are not coprime, a panic for [n = 0]. Every
    caller dereferences the result at once, so nil and panic are both
    [None]. *)
Definition ModInverse (g n : Z) : option Z :=
  if n =? 0 then None
  else if Z.gcd g n =? 1 then Some (Z.invmod g (Z.abs n)) else None.

(** [z.Exp(x, y, m)]: [x**y mod |m|]; for [m = 0] it is [x**y], and [1]
    when [y <= 0]; for [m <> 0] and [y < 0] the inverse of [x] is raised
    to [-y], and the result is nil when [x] has no inverse. *)
Definition Exp (x y m : Z) : option Z :=
  if m =? 0 then Some (if y <=? 0 then 1 else x ^ y)
  else if y <? 0 then
    if Z.gcd x m =? 1 then Some (Z.invmod x (Z.abs m) ^ (- y) mod Z.abs m)
    else None
  else Some (x ^ y mod Z.abs m).

(** [x.Cmp(y)] on two pointers. The method compares the pointers first
    ([x == y] gives 0 without a dereference), then the values. *)
Definition Cmp (x y : option Z) : option comparison :=
  match x, y with
  | None, None => Some Eq
  | Some a, Some b => Some (a ?= b)
  | _, _ => None
  end.
End Big.

(** Modelled from the spec: [modPow], whose source is not among the files.
    Modular exponentiation that accepts a negative exponent, through the
    modular inverse of the base. *)
Definition modPow (x y m : Z) : option Z :=
  if y <? 0 then
    t ← Big.ModInverse x m; Big.Exp t (- y) m
  else Big.Exp x y m.

(** Modelled from the spec: [hashCommit], the hash-to-challenge function H
    of the package, whose source is not among the files: a fixed function
    from the list of integers to an integer. *)
Class HashCommit := hashCommit : list Z → Z.

(** Modelled from the spec: [randomBigInt], whose source is not among the
    files. It is asked for a bit length and hands back a pointer and an
    error; [S] is the state of the random source. Nothing is assumed on what
    comes back with an error. *)
Class RandomBigInt (S : Type) := randomBigInt : N → S → (option Z * bool) * S.

(** Slice indexing [l[i]] with the run-time bounds check. *)
Definition index {A} (l : list A) (i : Z) : option A :=
  if i <? 0 then None else l !! Z.to_nat i.

(** A map read [m[k]]: the zero value, nil, for an absent key. *)
Definition mapGet (m : gmap Z (option Z)) (k : Z) : option Z := mjoin (m !! k).

(** A loop whose body may panic. *)
Fixpoint foldlM {A B} (f : B → A → option B) (b : B) (l : list A) : option B :=
  match l with
  | [] => Some b
  | x :: xs => b' ← f b x; foldlM f b' xs
  end.

(** An enumeration of a map by [range]: its entries, in some order. *)
Definition enumerates (l : list (Z * Z)) (m : gmap Z Z) : Prop :=
  l ≡ₚ map_to_list m.

(** ** Parameters, keys, signatures *)

(** Modelled from the spec: the record of bit lengths, whose declaration is
    not among the files. The fields are shift amounts, Go's [uint]. *)
Record SystemParameters := {
  Le : N; LeCommit : N; Lv : N; LvCommit : N; LvPrimeCommit : N;
  Lm : N; LmCommit : N; Ln : N
}.

Module PublicKey.
(** Modelled from the spec: the public key (N, S, Z, R) with its
    parameters; the declaration is not among the files. *)
Record t := { N : Z; S : Z; Z_ : Z; R : list Z; Params : SystemParameters }.
End PublicKey.

Module CLSignature.
(** Modelled from the spec: the signature (A, e, v); the declaration is not
    among the files. *)
Record t := { A : Z; E : Z; V : Z }.

(** Modelled from the spec: [Randomize], whose source is not among the
    files: with a fresh [r] of [Lv - Ln] bits,
    [A' = A * S^r mod N], [e' = e], [v' = v - e*r]. *)
Definition Randomize {St} {rnd : RandomBigInt St} (s : t) (pk : PublicKey.t) (st : St)
    : option (t * St) :=
  let '(r, _, st') := randomBigInt (Uint.sub (Lv (PublicKey.Params pk))
                                             (Ln (PublicKey.Params pk))) st in
  r ← r;
  sr ← Big.Exp (PublicKey.S pk) r (PublicKey.N pk);
  APrime ← Big.Mod (A s * sr) (PublicKey.N pk);
  Some ({| A := APrime; E := E s; V := V s - E s * r |}, st').
End CLSignature.

(** [createChallenge]: the contributions between context and nonce. *)
Definition createChallenge {hash : HashCommit} (context nonce : Z) (contributions : list Z) : Z :=
  hashCommit (context :: contributions ++ [nonce]).

(** ** ProofU *)

Module ProofU.
Record t := { u : Z; c : Z; vPrimeResponse : Z; sResponse : Z }.

Definition correctResponseSizes (p : t) (pk : PublicKey.t) : bool :=
  let maximum := Big.Lsh 1 (Uint.add (LvPrimeCommit (PublicKey.Params pk)) 1) - 1 in
  let minimum := - maximum in
  (vPrimeResponse p >=? minimum) && (vPrimeResponse p <=? maximum).

Definition VerifyWithChallenge (p : t) (pk : PublicKey.t) (reconstructedChallenge : Z) : bool :=
  correctResponseSizes p pk && (c p =? reconstructedChallenge).

Definition reconstructUcommit (p : t) (pk : PublicKey.t) : option Z :=
  Uc ← modPow (u p) (- c p) (PublicKey.N pk);
  Sv ← modPow (PublicKey.S pk) (vPrimeResponse p) (PublicKey.N pk);
  R0 ← index (PublicKey.R pk) 0;
  R0s ← modPow R0 (sResponse p) (PublicKey.N pk);
  Big.Mod (Uc * Sv * R0s) (PublicKey.N pk).

Definition SecretKeyResponse (p : t) : option Z := Some (sResponse p).

Definition Challenge (p : t) : Z := c p.

Definition ChallengeContribution (p : t) (pk : PublicKey.t) : option (list Z) :=
  uc ← reconstructUcommit p pk; Some [u p; uc].

Definition Verify {hash : HashCommit} (p : t) (pk : PublicKey.t) (context nonce : Z) : option bool :=
  contribution ← ChallengeContribution p pk;
  Some (VerifyWithChallenge p pk (createChallenge context nonce contribution)).
End ProofU.

(** ** ProofS *)

Module ProofS.
Record t := { c : Z; eResponse : Z }.

Definition Verify {hash : HashCommit} (p : t) (pk : PublicKey.t) (signature : CLSignature.t)
    (context nonce : Z) : option bool :=
  let exponent := c p + eResponse p * CLSignature.E signature in
  ACommit ← Big.Exp (CLSignature.A signature) exponent (PublicKey.N pk);
  Q ← Big.Exp (CLSignature.A signature) (CLSignature.E signature) (PublicKey.N pk);
  let cPrime := hashCommit [context; Q; CLSignature.A signature; nonce; ACommit] in
  Some (c p =? cPrime).
End ProofS.

(** ** ProofD *)

Module ProofD.
Record t := {
  c : Z; A : Z; eResponse : Z; vResponse : Z;
  aResponses : gmap Z Z; aDisclosed : gmap Z Z
  }.

(** The loop of [correctResponseSizes] over the entries of [aResponses],
    with its early return. *)
Fixpoint responsesInRange (minimum maximum : Z) (rs : list (Z * Z)) : bool :=
  match rs with
  | [] => true
  | (_, aResponse) :: rs' =>
      if (aResponse <? minimum) || (aResponse >? maximum) then false
      else responsesInRange minimum maximum rs'
  end.

(** [correctResponseSizes], the enumeration [rs] of [aResponses] made
    explicit. *)
Definition correctResponseSizes_enum (rs : list (Z * Z)) (p : t) (pk : PublicKey.t) : bool :=
  let maximum := Big.Lsh 1 (Uint.add (LmCommit (PublicKey.Params pk)) 1) - 1 in
  let minimum := - maximum in
  if negb (responsesInRange minimum maximum rs) then false
  else
    let maximum := Big.Lsh 1 (Uint.add (LeCommit (PublicKey.Params pk)) 1) - 1 in
    let minimum := - maximum in
    if (eResponse p <? minimum) || (eResponse p >? maximum) then false
    else true.

Definition correctResponseSizes (p : t) (pk : PublicKey.t) : bool :=
  correctResponseSizes_enum (map_to_list (aResponses p)) p pk.

(** [reconstructZ], the enumerations [ds] of [aDisclosed] and [rs] of
    [aResponses] made explicit. *)
Definition reconstructZ_enum (ds rs : list (Z * Z)) (p : t) (pk : PublicKey.t) : option Z :=
  let N := PublicKey.N pk in
  numerator ← Big.Exp (A p) (Big.Lsh 1 (Uint.sub (Le (PublicKey.Params pk)) 1)) N;
  numerator ← foldlM (λ numerator '(i, attribute),
                        Ri ← index (PublicKey.R pk) i;
                        x ← Big.Exp Ri attribute N;
                        Some (numerator * x)) numerator ds;
  known ← Big.ModInverse numerator N;
  let known := PublicKey.Z_ pk * known in
  knownC ← modPow known (- c p) N;
  Ae ← modPow (A p) (eResponse p) N;
  Sv ← modPow (PublicKey.S pk) (vResponse p) N;
  Rs ← foldlM (λ Rs '(i, response),
                 Ri ← index (PublicKey.R pk) i;
                 x ← modPow Ri response N;
                 Some (Rs * x)) 1 rs;
  Big.Mod (knownC * Ae * Rs * Sv) N.

Definition reconstructZ (p : t) (pk : PublicKey.t) : option Z :=
  reconstructZ_enum (map_to_list (aDisclosed p)) (map_to_list (aResponses p)) p pk.

Definition VerifyWithChallenge_enum (rs : list (Z * Z)) (p : t) (pk : PublicKey.t)
    (reconstructedChallenge : Z) : bool :=
  correctResponseSizes_enum rs p pk && (c p =? reconstructedChallenge).

Definition VerifyWithChallenge (p : t) (pk : PublicKey.t) (reconstructedChallenge : Z) : bool :=
  correctResponseSizes p pk && (c p =? reconstructedChallenge).

Definition ChallengeContribution_enum (ds rs : list (Z * Z)) (p : t) (pk : PublicKey.t)
    : option (list Z) :=
  z ← reconstructZ_enum ds rs p pk; Some [A p; z].

Definition ChallengeContribution (p : t) (pk : PublicKey.t) : option (list Z) :=
  z ← reconstructZ p pk; Some [A p; z].

(** [Verify]; [ds], [rs] are the enumerations met by [reconstructZ] and
    [rs'] the one met by [correctResponseSizes]. The argument of
    [VerifyWithChallenge] is evaluated first. *)
Definition Verify_enum {hash : HashCommit} (ds rs rs' : list (Z * Z)) (p : t) (pk : PublicKey.t)
    (context nonce1 : Z) : option bool :=
  contribution ← ChallengeContribution_enum ds rs p pk;
  Some (VerifyWithChallenge_enum rs' p pk (createChallenge context nonce1 contribution)).

Definition Verify {hash : HashCommit} (p : t) (pk : PublicKey.t) (context nonce1 : Z) : option bool :=
  contribution ← ChallengeContribution p pk;
  Some (VerifyWithChallenge p pk (createChallenge context nonce1 contribution)).

Definition SecretKeyResponse (p : t) : option Z := aResponses p !! 0.

Definition Challenge (p : t) : Z := c p.
End ProofD.


(** ** The Proof interface *)

Class ProofOps (P : Type) := {
  VerifyWithChallenge : P → PublicKey.t → Z → bool;
  SecretKeyResponse : P → option Z;
  ChallengeContribution : P → PublicKey.t → option (list Z)
}.

Arguments VerifyWithChallenge : simpl never.
Arguments SecretKeyResponse : simpl never.
Arguments ChallengeContribution : simpl never.

#[export] Instance ProofU_ops : ProofOps ProofU.t := {|
  VerifyWithChallenge := ProofU.VerifyWithChallenge;
  SecretKeyResponse := ProofU.SecretKeyResponse;
  ChallengeContribution := ProofU.ChallengeContribution
|}.

#[export] Instance ProofD_ops : ProofOps ProofD.t := {|
  VerifyWithChallenge := ProofD.VerifyWithChallenge;
  SecretKeyResponse := ProofD.SecretKeyResponse;
  ChallengeContribution := ProofD.ChallengeContribution
|}.

(** A value of interface type [Proof]: one of its two implementations. The
    order in which a [ProofD] enumerates its maps is shown below to be
    immaterial, so the list functions go through the canonical
    enumeration. *)
Inductive Proof :=
| IsProofU (p : ProofU.t)
| IsProofD (p : ProofD.t).

#[export] Instance Proof_ops : ProofOps Proof := {|
  VerifyWithChallenge p :=
    match p with
    | IsProofU p => ProofU.VerifyWithChallenge p
    | IsProofD p => ProofD.VerifyWithChallenge p
    end;
  SecretKeyResponse p :=
    match p with
    | IsProofU p => ProofU.SecretKeyResponse p
    | IsProofD p => ProofD.SecretKeyResponse p
    end;
  ChallengeContribution p :=
    match p with
    | IsProofU p => ProofU.ChallengeContribution p
    | IsProofD p => ProofD.ChallengeContribution p
    end
|}.

(** [proof.Verify(pk, context, nonce)] of either implementation. *)
Definition Proof_Verify {hash : HashCommit} (p : Proof) (pk : PublicKey.t) (context nonce : Z)
    : option bool :=
  match p with
  | IsProofU p => ProofU.Verify p pk context nonce
  | IsProofD p => ProofD.Verify p pk context nonce
  end.

(** ** ProofList *)

Module ProofList.
Abbreviation t := (list Proof).

Inductive error := ErrMissingProofU.

(** The loop of [GetProofU], [count] being its counter. *)
Fixpoint GetProofU_from (count : Z) (pl : t) (n : Z) : ProofU.t + error :=
  match pl with
  | [] => inr ErrMissingProofU
  | IsProofU p :: rest =>
      if count =? n then inl p else GetProofU_from (count + 1) rest n
  | IsProofD _ :: rest => GetProofU_from count rest n
  end.

Definition GetProofU (pl : t) (n : Z) : ProofU.t + error := GetProofU_from 0 pl n.

Definition GetFirstProofU (pl : t) : ProofU.t + error := GetProofU pl 0.

(** The loop of [challengeContributions] from position [i] on. *)
Fixpoint challengeContributions_from (i : nat) (pl : t) (publicKeys : list PublicKey.t)
    : option (list Z) :=
  match pl with
  | [] => Some []
  | proof :: rest =>
      pk ← publicKeys !! i;
      contribution ← ChallengeContribution proof pk;
      contributions ← challengeContributions_from (S i) rest publicKeys;
      Some (contribution ++ contributions)
  end.

Definition challengeContributions (pl : t) (publicKeys : list PublicKey.t) : option (list Z) :=
  challengeContributions_from 0 pl publicKeys.

(** The loop of the bound branch of [Verify] from position [i] on. The
    left operand of [||] is evaluated first. *)
Fixpoint verifyBound_from (i : nat) (pl : t) (publicKeys : list PublicKey.t)
    (expectedSecretKeyResponse : option Z) (expectedChallenge : Z) : option bool :=
  match pl with
  | [] => Some true
  | proof :: rest =>
      cmp ← Big.Cmp expectedSecretKeyResponse (SecretKeyResponse proof);
      match cmp with
      | Eq =>
          pk ← publicKeys !! i;
          if negb (VerifyWithChallenge proof pk expectedChallenge) then Some false
          else verifyBound_from (S i) rest publicKeys
                 expectedSecretKeyResponse expectedChallenge
      | _ => Some false
      end
  end.

(** The loop of the other branch of [Verify] from position [i] on. *)
Fixpoint verifyEach_from {hash : HashCommit} (i : nat) (pl : t) (publicKeys : list PublicKey.t)
    (context nonce : Z) : option bool :=
  match pl with
  | [] => Some true
  | proof :: rest =>
      pk ← publicKeys !! i;
      contribution ← ChallengeContribution proof pk;
      if negb (VerifyWithChallenge proof pk (createChallenge context nonce contribution))
      then Some false
      else verifyEach_from (S i) rest publicKeys context nonce
  end.

Definition Verify {hash : HashCommit} (pl : t) (publicKeys : list PublicKey.t)
    (context nonce : Z) (shouldBeBound : bool) : option bool :=
  if (length pl =? 0)%nat then Some true
  else if negb (length pl =? length publicKeys)%nat then Some false
  else if shouldBeBound then
    contributions ← challengeContributions pl publicKeys;
    let expectedChallenge := createChallenge context nonce contributions in
    first ← pl !! 0%nat;
    let expectedSecretKeyResponse := SecretKeyResponse first in
    verifyBound_from 0 pl publicKeys expectedSecretKeyResponse expectedChallenge
  else verifyEach_from 0 pl publicKeys context nonce.
End ProofList.

(** ** credential.go *)

(** The first loop of [getUndisclosedAttributes]: [check[v] = true], with
    the bounds check of the slice. *)
Fixpoint markDisclosed (disclosedAttributes : list Z) (check : list bool) : option (list bool) :=
  match disclosedAttributes with
  | [] => Some check
  | v :: rest =>
      if (v <? 0) || (Z.of_nat (length check) <=? v) then None
      else markDisclosed rest (<[Z.to_nat v := true]> check)
  end.

(** The second loop, from index [i] on. *)
Fixpoint collectUnmarked (i : Z) (check : list bool) : list Z :=
  match check with
  | [] => []
  | v :: rest =>
      if negb v then i :: collectUnmarked (i + 1) rest
      else collectUnmarked (i + 1) rest
  end.

Definition getUndisclosedAttributes (disclosedAttributes : list Z) (numAttributes : nat)
    : option (list Z) :=
  check ← markDisclosed disclosedAttributes (replicate numAttributes false);
  Some (collectUnmarked 0 check).

(** The loops that draw one randomizer per undisclosed attribute; the error
    of [randomBigInt] is dropped, the pointer is stored. *)
Fixpoint drawRandomizers {St} {rnd : RandomBigInt St} (bits : N) (vs : list Z)
    (m : gmap Z (option Z)) (st : St) : gmap Z (option Z) * St :=
  match vs with
  | [] => (m, st)
  | v :: rest =>
      let '(r, _, st') := randomBigInt bits st in
      drawRandomizers bits rest (<[v := r]> m) st'
  end.

(** The commitment [Z = A^eCommit * S^vCommit * prod R_i^aCommits[i]],
    reduced after every product: shared by [CreateDisclosureProof] and
    [Commit]. *)
Definition commitZ (pk : PublicKey.t) (A : Z) (eCommit vCommit : option Z)
    (aCommits : gmap Z (option Z)) (undisclosedAttributes : list Z) : option Z :=
  let N := PublicKey.N pk in
  eCommit ← eCommit;
  Ae ← modPow A eCommit N;
  vCommit ← vCommit;
  Sv ← modPow (PublicKey.S pk) vCommit N;
  Z0 ← Big.Mod (Ae * Sv) N;
  foldlM (λ Z v,
            Rv ← index (PublicKey.R pk) v;
            a ← mapGet aCommits v;
            x ← modPow Rv a N;
            Big.Mod (Z * x) N) Z0 undisclosedAttributes.

(** The responses: shared by [CreateDisclosureProof] and [CreateProof]. *)
Definition respond (pk : PublicKey.t) (sig : CLSignature.t) (attributes : list Z)
    (eCommit vCommit : option Z) (aCommits : gmap Z (option Z))
    (disclosedAttributes undisclosedAttributes : list Z) (c : Z) : option ProofD.t :=
  let ePrime := CLSignature.E sig - Big.Lsh 1 (Uint.sub (Le (PublicKey.Params pk)) 1) in
  eCommit ← eCommit;
  let eResponse := eCommit + c * ePrime in
  vCommit ← vCommit;
  let vResponse := vCommit + c * CLSignature.V sig in
  aResponses ← foldlM (λ (m : gmap Z Z) v,
                          a ← index attributes v;
                          r ← mapGet aCommits v;
                          Some (<[v := r + c * a]> m)) ∅ undisclosedAttributes;
  aDisclosed ← foldlM (λ (m : gmap Z Z) v,
                          a ← index attributes v;
                          Some (<[v := a]> m)) ∅ disclosedAttributes;
  Some {| ProofD.c := c; ProofD.A := CLSignature.A sig;
          ProofD.eResponse := eResponse; ProofD.vResponse := vResponse;
          ProofD.aResponses := aResponses; ProofD.aDisclosed := aDisclosed |}.

Module IdemixCredential.
Record t := { Signature : CLSignature.t; Pk : PublicKey.t; Attributes : list Z }.
End IdemixCredential.

Module DisclosureProofBuilder.
Record t := {
  randomizedSignature : CLSignature.t;
  eCommit : option Z; vCommit : option Z;
  attrRandomizers : gmap Z (option Z);
  z : option Z;
  disclosedAttributes : list Z;
  undisclosedAttributes : list Z;
  pk : PublicKey.t;
  attributes : list Z
}.

(** [Commit]: the builder is updated in place; the updated builder is
    returned next to the commitment values. *)
Definition Commit (skRandomizer : option Z) (d : t) : option (list Z * t) :=
  let attrRandomizers' := <[0 := skRandomizer]> (attrRandomizers d) in
  z' ← commitZ (pk d) (CLSignature.A (randomizedSignature d)) (eCommit d) (vCommit d)
         attrRandomizers' (undisclosedAttributes d);
  Some ([CLSignature.A (randomizedSignature d); z'],
        {| randomizedSignature := randomizedSignature d;
           eCommit := eCommit d; vCommit := vCommit d;
           attrRandomizers := attrRandomizers';
           z := Some z';
           disclosedAttributes := disclosedAttributes d;
           undisclosedAttributes := undisclosedAttributes d;
           pk := pk d; attributes := attributes d |}).

Definition CreateProof (challenge : Z) (d : t) : option ProofD.t :=
  respond (pk d) (randomizedSignature d) (attributes d) (eCommit d) (vCommit d)
    (attrRandomizers d) (disclosedAttributes d) (undisclosedAttributes d) challenge.
End DisclosureProofBuilder.

(** [CreateDisclosureProof] up to its commitment [Z]: the undisclosed
    indices, the randomized signature, the randomizers and [Z]. *)
Definition CreateDisclosureProof_commit {St} {rnd : RandomBigInt St} (ic : IdemixCredential.t)
    (disclosedAttributes : list Z) (st : St)
    : option (list Z * CLSignature.t * option Z * option Z * gmap Z (option Z) * Z * St) :=
  let pk := IdemixCredential.Pk ic in
  undisclosedAttributes ←
    getUndisclosedAttributes disclosedAttributes (length (IdemixCredential.Attributes ic));
  '(randSig, st) ← CLSignature.Randomize (IdemixCredential.Signature ic) pk st;
  let '(eCommit, _, st) := randomBigInt (LeCommit (PublicKey.Params pk)) st in
  let '(vCommit, _, st) := randomBigInt (LvCommit (PublicKey.Params pk)) st in
  let '(aCommits, st) :=
    drawRandomizers (LmCommit (PublicKey.Params pk)) undisclosedAttributes ∅ st in
  Z ← commitZ pk (CLSignature.A randSig) eCommit vCommit aCommits undisclosedAttributes;
  Some (undisclosedAttributes, randSig, eCommit, vCommit, aCommits, Z, st).

Definition CreateDisclosureProof {hash : HashCommit} {St} {rnd : RandomBigInt St}
    (ic : IdemixCredential.t) (disclosedAttributes : list Z) (context nonce1 : Z) (st : St)
    : option (ProofD.t * St) :=
  '(undisclosedAttributes, randSig, eCommit, vCommit, aCommits, Z, st) ←
    CreateDisclosureProof_commit ic disclosedAttributes st;
  let c := hashCommit [context; CLSignature.A randSig; Z; nonce1] in
  p ← respond (IdemixCredential.Pk ic) randSig (IdemixCredential.Attributes ic)
        eCommit vCommit aCommits disclosedAttributes undisclosedAttributes c;
  Some (p, st).

Definition CreateDisclosureProofBuilder {St} {rnd : RandomBigInt St} (ic : IdemixCredential.t)
    (disclosedAttributes : list Z) (st : St) : option (DisclosureProofBuilder.t * St) :=
  let pk := IdemixCredential.Pk ic in
  '(randSig, st) ← CLSignature.Randomize (IdemixCredential.Signature ic) pk st;
  let '(eCommit, _, st) := randomBigInt (LeCommit (PublicKey.Params pk)) st in
  let '(vCommit, _, st) := randomBigInt (LvCommit (PublicKey.Params pk)) st in
  undisclosedAttributes ←
    getUndisclosedAttributes disclosedAttributes (length (IdemixCredential.Attributes ic));
  let '(attrRandomizers, st) :=
    drawRandomizers (LmCommit (PublicKey.Params pk)) undisclosedAttributes ∅ st in
  Some ({| DisclosureProofBuilder.randomizedSignature := randSig;
           DisclosureProofBuilder.eCommit := eCommit;
           DisclosureProofBuilder.vCommit := vCommit;
           DisclosureProofBuilder.attrRandomizers := attrRandomizers;
           DisclosureProofBuilder.z := None;
           DisclosureProofBuilder.disclosedAttributes := disclosedAttributes;
           DisclosureProofBuilder.undisclosedAttributes := undisclosedAttributes;
           DisclosureProofBuilder.pk := pk;
           DisclosureProofBuilder.attributes := IdemixCredential.Attributes ic |}, st).

(** ** The ProofBuilder interface and [BuildProofList] *)

Class ProofBuilder (B : Type) := {
  Commit : option Z → B → option (list Z * B);
  CreateProof : Z → B → option Proof
}.

#[export] Instance DisclosureProofBuilder_builder : ProofBuilder DisclosureProofBuilder.t := {|
  Commit := DisclosureProofBuilder.Commit;
  CreateProof challenge d := IsProofD <$> DisclosureProofBuilder.CreateProof challenge d
|}.

(** The builders are objects that [Commit] updates in place and that the
    list may name more than once: [heap] maps an address to the builder
    stored there, and the list holds addresses. *)
Fixpoint commitAll {B} {builder : ProofBuilder B} (skCommitment : option Z) (proofBuilders : list nat)
    (heap : gmap nat B) : option (list Z * gmap nat B) :=
  match proofBuilders with
  | [] => Some ([], heap)
  | a :: rest =>
      pb ← heap !! a;
      '(values, pb') ← Commit skCommitment pb;
      '(commitmentValues, heap') ← commitAll skCommitment rest (<[a := pb']> heap);
      Some (values ++ commitmentValues, heap')
  end.

Fixpoint createAll {B} {builder : ProofBuilder B} (challenge : Z) (proofBuilders : list nat)
    (heap : gmap nat B) : option ProofList.t :=
  match proofBuilders with
  | [] => Some []
  | a :: rest =>
      v ← heap !! a;
      proof ← CreateProof challenge v;
      proofs ← createAll challenge rest heap;
      Some (proof :: proofs)
  end.

Definition BuildProofList {hash : HashCommit} {St} {rnd : RandomBigInt St} {B} {builder : ProofBuilder B}
    (params : SystemParameters) (context nonce : Z) (proofBuilders : list nat)
    (heap : gmap nat B) (st : St) : option (ProofList.t * gmap nat B * St) :=
  let '(skCommitment, _, st) := randomBigInt (LmCommit params) st in
  '(commitmentValues, heap) ← commitAll skCommitment proofBuilders heap;
  let challenge := createChallenge context nonce commitmentValues in
  proofs ← createAll challenge proofBuilders heap;
  Some (proofs, heap, st).

(** ** Auxiliary definitions used by the statements *)

(** A loop that multiplies the accumulator by a factor computed from the
    element alone. *)
Definition mulStep {A} (g : A → option Z) (acc : Z) (x : A) : option Z :=
  y ← g x; Some (acc * y).

(** The power [x^y] in the units of Z/nZ, reduced into [[0, n)]: for a
    negative [y] the inverse of [x] is raised to [-y]. *)
Definition zpow (n x y : Z) : Z :=
  if y <? 0 then Z.invmod x n ^ (- y) mod n else x ^ y mod n.

(** The response sizes of §4.3 in the spec's words: every [aResponse] within
    [2^(LmCommit+1) - 1] of zero, [eResponse] within [2^(LeCommit+1) - 1]. *)
Definition responseSizesInRange (p : ProofD.t) (pk : PublicKey.t) : Prop :=
  (∀ i a, ProofD.aResponses p !! i = Some a →
     - (2 ^ (Z.of_N (LmCommit (PublicKey.Params pk)) + 1) - 1) ≤ a
       ≤ 2 ^ (Z.of_N (LmCommit (PublicKey.Params pk)) + 1) - 1)
  ∧ - (2 ^ (Z.of_N (LeCommit (PublicKey.Params pk)) + 1) - 1) ≤ ProofD.eResponse p
      ≤ 2 ^ (Z.of_N (LeCommit (PublicKey.Params pk)) + 1) - 1.

(** [q] is [a^x (mod n)] in the spec's words: the power reduced modulo [n],
    a negative exponent going through an inverse of [a] modulo [n]. *)
Definition isPowMod (a x n q : Z) : Prop :=
  if decide (0 ≤ x) then q = a ^ x mod n
  else ∃ b, (a * b) mod n = 1 mod n ∧ q = b ^ (- x) mod n.

(** Acceptance by [ProofS.Verify] in the spec's words:
    [Q = A^e], [ACommit = A^(c + eResponse*e)],
    [c' = H(context, Q, A, nonce, ACommit)], and [c = c']. *)
Definition ProofS_accepts {hash : HashCommit} (p : ProofS.t) (pk : PublicKey.t)
    (signature : CLSignature.t) (context nonce : Z) : Prop :=
  ∃ Q ACommit,
    isPowMod (CLSignature.A signature) (CLSignature.E signature) (PublicKey.N pk) Q
    ∧ isPowMod (CLSignature.A signature)
        (ProofS.c p + ProofS.eResponse p * CLSignature.E signature) (PublicKey.N pk) ACommit
    ∧ ProofS.c p = hashCommit [context; Q; CLSignature.A signature; nonce; ACommit].

(** A loop that stores under every key of [vs] a value computed from the
    key. *)
Definition insertStep (f : Z → option Z) (m : gmap Z Z) (v : Z) : option (gmap Z Z) :=
  x ← f v; Some (<[v := x]> m).

(** The response to attribute [v]: [aCommits[v] + c * attributes[v]]. *)
Definition attrResponse (attributes : list Z) (aCommits : gmap Z (option Z)) (c v : Z)
    : option Z :=
  a ← index attributes v; r ← mapGet aCommits v; Some (r + c * a).

(** The invariant of §3 on the keys of a [ProofD] for [L] attributes: the
    keys of [aResponses] and of [aDisclosed] are disjoint and together they
    are the indices [0 .. L-1]. *)
Definition partitionsIndices (p : ProofD.t) (L : nat) : Prop :=
  dom (ProofD.aResponses p) ## dom (ProofD.aDisclosed p)
  ∧ ∀ i, i ∈ dom (ProofD.aResponses p) ∪ dom (ProofD.aDisclosed p) ↔ 0 ≤ i < Z.of_nat L.

(** Every disclosed index carries the attribute of the credential. *)
Definition disclosesAttributes (p : ProofD.t) (attributes : list Z) (disclosed : list Z) : Prop :=
  ∀ i, i ∈ disclosed →
    ∃ a, index attributes i = Some a ∧ ProofD.aDisclosed p !! i = Some a.

(** ** Valid keys, signatures and credentials *)

(** The attribute and the base of index [v]. *)
Definition attrAt (attributes : list Z) (v : Z) : Z := default 0 (index attributes v).
Definition baseAt (pk : PublicKey.t) (v : Z) : Z := default 1 (index (PublicKey.R pk) v).

(** The entries [(v, f v)] for the indices of [l]. *)
Definition entries (f : Z → Z) (l : list Z) : list (Z * Z) := (λ v, (v, f v)) <$> l.

(** The product of the powers [R[v]^(f v)] over the indices of [l]. *)
Definition prodR (pk : PublicKey.t) (f : Z → Z) (l : list Z) : Z :=
  foldr (λ v acc, zpow (PublicKey.N pk) (baseAt pk v) (f v) * acc) 1 l.

(** The factor that an entry [(i, x)] contributes: [R[i]^x mod N]. *)
Definition basePow (pk : PublicKey.t) (e : Z * Z) : option Z :=
  Ri ← index (PublicKey.R pk) e.1; modPow Ri e.2 (PublicKey.N pk).

(** The factor that a disclosed entry [(i, x)] contributes to the
    numerator of [reconstructZ], computed by [Exp]. *)
Definition baseExp (pk : PublicKey.t) (e : Z * Z) : option Z :=
  Ri ← index (PublicKey.R pk) e.1; Big.Exp Ri e.2 (PublicKey.N pk).

(** Modelled from the spec: the CL verification equation of the glossary,
    [A^e * S^v * prod R[i]^m[i] = Z (mod N)], the product over all the
    attributes; the verification function of the signature is not among
    the files. *)
Definition CLVerify (pk : PublicKey.t) (sig : CLSignature.t) (attributes : list Z)
    : option bool :=
  let N := PublicKey.N pk in
  Ae ← modPow (CLSignature.A sig) (CLSignature.E sig) N;
  Sv ← modPow (PublicKey.S pk) (CLSignature.V sig) N;
  Rs ← foldlM (mulStep (basePow pk)) 1
         (entries (attrAt attributes) (seqZ 0 (Z.of_nat (length attributes))));
  q ← Big.Mod (Ae * Sv * Rs) N;
  z ← Big.Mod (PublicKey.Z_ pk) N;
  Some (q =? z).

(** A public key fit for [L] attributes: a modulus above 1, bases that are
    units modulo it, one base per attribute, and bit lengths on which the
    [uint] arithmetic of the code does not wrap around. *)
Record validKey (pk : PublicKey.t) (L : nat) : Prop := {
  vk_N : 1 < PublicKey.N pk;
  vk_S : Z.coprime (PublicKey.S pk) (PublicKey.N pk);
  vk_R : Forall (λ r, Z.coprime r (PublicKey.N pk)) (PublicKey.R pk);
  vk_R_length : (L ≤ length (PublicKey.R pk))%nat;
  vk_Le : (1 ≤ Le (PublicKey.Params pk) < Uint.modulus)%N;
  vk_LeCommit : (LeCommit (PublicKey.Params pk) + 1 < Uint.modulus)%N;
  vk_LmCommit : (LmCommit (PublicKey.Params pk) + 1 < Uint.modulus)%N
}.

(** A signature that is valid on the attributes under the key, with [e] in
    the upper half of its [Le] bits. *)
Record validSignature (pk : PublicKey.t) (sig : CLSignature.t) (attributes : list Z)
    : Prop := {
  vs_A : Z.coprime (CLSignature.A sig) (PublicKey.N pk);
  vs_E : 2 ^ (Z.of_N (Le (PublicKey.Params pk)) - 1) ≤ CLSignature.E sig;
  vs_CL : CLVerify pk sig attributes = Some true
}.

(** A valid credential; [Lh] is the bit length of the challenges. The
    attributes have [Lm] bits, and the randomizers are long enough to hide
    the products with a challenge. *)
Record validCredential (Lh : N) (ic : IdemixCredential.t) : Prop := {
  vc_key : validKey (IdemixCredential.Pk ic) (length (IdemixCredential.Attributes ic));
  vc_sig : validSignature (IdemixCredential.Pk ic) (IdemixCredential.Signature ic)
             (IdemixCredential.Attributes ic);
  vc_attributes :
    Forall (λ m, 0 ≤ m < 2 ^ Z.of_N (Lm (PublicKey.Params (IdemixCredential.Pk ic))))
      (IdemixCredential.Attributes ic);
  vc_E :
    2 ^ Z.of_N Lh
      * (CLSignature.E (IdemixCredential.Signature ic)
         - 2 ^ (Z.of_N (Le (PublicKey.Params (IdemixCredential.Pk ic))) - 1))
    ≤ 2 ^ Z.of_N (LeCommit (PublicKey.Params (IdemixCredential.Pk ic)));
  vc_Lm :
    (Lh + Lm (PublicKey.Params (IdemixCredential.Pk ic))
     ≤ LmCommit (PublicKey.Params (IdemixCredential.Pk ic)))%N
}.

(** The hash has values of [Lh] bits. *)
Definition hashBound (hash : HashCommit) (Lh : N) : Prop :=
  ∀ l, 0 ≤ hash l < 2 ^ Z.of_N Lh.

(** The random source works: it hands back a number of the bit length
    asked for, and no error. *)
Definition randomWorks {St} (rnd : RandomBigInt St) : Prop :=
  ∀ bits st, ∃ v, (rnd bits st).1 = (Some v, false) ∧ 0 ≤ v < 2 ^ Z.of_N bits.

(** A builder as [CreateDisclosureProofBuilder] leaves it for a valid
    credential whose attribute 0, the secret key, is [secret] and is not
    disclosed; [params] are the parameters handed to [BuildProofList], whose
    shared randomizer must fit the randomizers of the key. [Commit] keeps
    a builder in this state. *)
Record readyBuilder (Lh : N) (params : SystemParameters) (secret : Z)
    (d : DisclosureProofBuilder.t) : Prop := {
  rb_key : validKey (DisclosureProofBuilder.pk d)
             (length (DisclosureProofBuilder.attributes d));
  rb_sig : validSignature (DisclosureProofBuilder.pk d)
             (DisclosureProofBuilder.randomizedSignature d)
             (DisclosureProofBuilder.attributes d);
  rb_attributes :
    Forall (λ m, 0 ≤ m < 2 ^ Z.of_N (Lm (PublicKey.Params (DisclosureProofBuilder.pk d))))
      (DisclosureProofBuilder.attributes d);
  rb_E :
    2 ^ Z.of_N Lh
      * (CLSignature.E (DisclosureProofBuilder.randomizedSignature d)
         - 2 ^ (Z.of_N (Le (PublicKey.Params (DisclosureProofBuilder.pk d))) - 1))
    ≤ 2 ^ Z.of_N (LeCommit (PublicKey.Params (DisclosureProofBuilder.pk d)));
  rb_Lm :
    (Lh + Lm (PublicKey.Params (DisclosureProofBuilder.pk d))
     ≤ LmCommit (PublicKey.Params (DisclosureProofBuilder.pk d)))%N;
  rb_params :
    (LmCommit params ≤ LmCommit (PublicKey.Params (DisclosureProofBuilder.pk d)))%N;
  rb_undisclosed :
    getUndisclosedAttributes (DisclosureProofBuilder.disclosedAttributes d)
      (length (DisclosureProofBuilder.attributes d))
    = Some (DisclosureProofBuilder.undisclosedAttributes d);
  rb_hidden : 0 ∉ DisclosureProofBuilder.disclosedAttributes d;
  rb_secret : index (DisclosureProofBuilder.attributes d) 0 = Some secret;
  rb_eCommit :
    ∃ e, DisclosureProofBuilder.eCommit d = Some e
         ∧ 0 ≤ e < 2 ^ Z.of_N (LeCommit (PublicKey.Params (DisclosureProofBuilder.pk d)));
  rb_vCommit : is_Some (DisclosureProofBuilder.vCommit d);
  rb_randomizers :
    ∀ v, v ∈ DisclosureProofBuilder.undisclosedAttributes d →
      ∃ a, mapGet (DisclosureProofBuilder.attrRandomizers d) v = Some a
           ∧ 0 ≤ a < 2 ^ Z.of_N (LmCommit (PublicKey.Params (DisclosureProofBuilder.pk d)))
}.

(** The commitment values [[A, z]] that a committed builder holds. *)
Definition builderValues (d : DisclosureProofBuilder.t) : list Z :=
  [CLSignature.A (DisclosureProofBuilder.randomizedSignature d);
   default 0 (DisclosureProofBuilder.z d)].

(** The commitment values and the proof of the builder at address [a]. *)
Definition valuesAt (heap : gmap nat DisclosureProofBuilder.t) (a : nat) : list Z :=
  default [] (builderValues <$> heap !! a).

Definition proofAt (heap : gmap nat DisclosureProofBuilder.t) (challenge : Z) (a : nat)
    : Proof :=
  default (IsProofU {| ProofU.u := 0; ProofU.c := 0;
                       ProofU.vPrimeResponse := 0; ProofU.sResponse := 0 |})
    (heap !! a ≫= CreateProof challenge).

Definition keyAt (heap : gmap nat DisclosureProofBuilder.t) (a : nat) : option PublicKey.t :=
  DisclosureProofBuilder.pk <$> heap !! a.

(** ** A small credential on which the functions are run *)

Module Example.
(** A hash with values in [[0, 4)]. *)
Definition hash : HashCommit := λ l, foldr Z.add 0 l mod 4.

(** A random source that works: the state is a counter, reduced to the bit
    length asked for. *)
Definition counter : RandomBigInt Z :=
  λ bits st, ((Some (st mod 2 ^ Z.of_N bits), false), 3 * st + 1).

(** A random source that replays a list of outcomes, and fails with nil
    once the list is used up. *)
Definition stream : RandomBigInt (list (option Z * bool)) :=
  λ _ st, match st with [] => ((None, true), []) | r :: st' => (r, st') end.

Definition params : SystemParameters :=
  {| Le := 3; LeCommit := 4; Lv := 8; LvCommit := 6; LvPrimeCommit := 6;
     Lm := 2; LmCommit := 5; Ln := 7 |}.

Definition pk : PublicKey.t :=
  {| PublicKey.N := 77; PublicKey.S := 2; PublicKey.Z_ := 68;
     PublicKey.R := [3; 5; 9]; PublicKey.Params := params |}.

Definition sig : CLSignature.t :=
  {| CLSignature.A := 4; CLSignature.E := 5; CLSignature.V := 7 |}.

Definition cred : IdemixCredential.t :=
  {| IdemixCredential.Signature := sig; IdemixCredential.Pk := pk;
     IdemixCredential.Attributes := [2; 3; 1] |}.

(** A credential of another holder: another secret key, under a key of the
    same parameters. *)
Definition otherPk : PublicKey.t :=
  {| PublicKey.N := 77; PublicKey.S := 2; PublicKey.Z_ := 74;
     PublicKey.R := [3; 5; 9]; PublicKey.Params := params |}.

Definition otherCred : IdemixCredential.t :=
  {| IdemixCredential.Signature := sig; IdemixCredential.Pk := otherPk;
     IdemixCredential.Attributes := [1; 3; 1] |}.

(** Two builders on a heap, at the addresses 0 and 1, made one after the
    other with the random source [counter]. *)
Definition twoBuilders (ic1 : IdemixCredential.t) (disclosed1 : list Z)
    (ic2 : IdemixCredential.t) (disclosed2 : list Z) (st : Z)
    : option (gmap nat DisclosureProofBuilder.t * Z) :=
  '(d1, st) ← CreateDisclosureProofBuilder (rnd := counter) ic1 disclosed1 st;
  '(d2, st) ← CreateDisclosureProofBuilder (rnd := counter) ic2 disclosed2 st;
  Some (<[0%nat := d1]> (<[1%nat := d2]> ∅), st).

(** The heap of two builders for [cred], which disclose attribute 1 and
    attribute 2. *)
Definition heap : gmap nat DisclosureProofBuilder.t :=
  default ∅ (fst <$> twoBuilders cred [1] cred [2] 5).

(** The proof that [CreateDisclosureProof] makes for [cred] and the
    disclosed list [[1]], with context 10, nonce 20 and the counter at 5. *)
Definition proofC : ProofD.t :=
  {| ProofD.c := 0; ProofD.A := 8; ProofD.eResponse := 0; ProofD.vResponse := 49;
     ProofD.aResponses := <[2 := 29]> (<[0 := 20]> ∅);
     ProofD.aDisclosed := <[1 := 3]> ∅ |}.

(** The two proofs that [BuildProofList] makes with context 10 and nonce
    20 from a builder for [cred] that discloses attribute 1 and a builder
    for [cred] that discloses index 0. *)
Definition proofA : ProofD.t :=
  {| ProofD.c := 2; ProofD.A := 8; ProofD.eResponse := 2; ProofD.vResponse := 53;
     ProofD.aResponses := <[2 := 31]> (<[0 := 5]> ∅);
     ProofD.aDisclosed := <[1 := 3]> ∅ |}.

Definition proofB : ProofD.t :=
  {| ProofD.c := 2; ProofD.A := 4; ProofD.eResponse := 11; ProofD.vResponse := 74;
     ProofD.aResponses := <[2 := 2]> (<[1 := 27]> ∅);
     ProofD.aDisclosed := <[0 := 2]> ∅ |}.

(** An issuer proof. *)
Definition proofS : ProofS.t := {| ProofS.c := 1; ProofS.eResponse := 2 |}.
End Example.

(** The random source [rnd] with its error results replaced by those of
    [err]; the pointers and the states are those of [rnd]. *)
Definition withErrors {St} (rnd : RandomBigInt St) (err : N → St → bool) : RandomBigInt St :=
  λ bits st, let '((v, _), st') := rnd bits st in ((v, err bits st), st').

(** What C5 asks of a proof for the attributes [attributes] and the
    disclosed list [disclosed], the secret key left aside. *)
Definition wellFormedProofD (p : ProofD.t) (attributes disclosed : list Z) : Prop :=
  partitionsIndices p (length attributes)
  ∧ disclosesAttributes p attributes disclosed.

(** ** Auxiliary definitions for the further properties *)

(** The [ProofU] proofs of a list, in the order of the list. *)
Definition proofUs (pl : ProofList.t) : list ProofU.t :=
  omap (λ p, match p with IsProofU u => Some u | IsProofD _ => None end) pl.

(** The response size of a [ProofU] as its range check has it:
    [vPrimeResponse] within [2^(LvPrimeCommit+1) - 1] of zero. *)
Definition responseSizeInRangeU (p : ProofU.t) (pk : PublicKey.t) : Prop :=
  - (2 ^ (Z.of_N (LvPrimeCommit (PublicKey.Params pk)) + 1) - 1) ≤ ProofU.vPrimeResponse p
    ≤ 2 ^ (Z.of_N (LvPrimeCommit (PublicKey.Params pk)) + 1) - 1.

(** The two-phase pipeline on one builder, run with the builder's own
    randomizer of slot 0 and the challenge of its own commitment. *)
Definition builderPipeline {hash : HashCommit} {St} {rnd : RandomBigInt St}
    (ic : IdemixCredential.t) (disclosedAttributes : list Z) (context nonce : Z) (st : St)
    : option (ProofD.t * St) :=
  '(d, st) ← CreateDisclosureProofBuilder ic disclosedAttributes st;
  '(values, d) ← DisclosureProofBuilder.Commit
                   (mapGet (DisclosureProofBuilder.attrRandomizers d) 0) d;
  p ← DisclosureProofBuilder.CreateProof (createChallenge context nonce values) d;
  Some (p, st).

(** The fields of a builder that [Commit] does not assign. *)
Definition fixedFields (d : DisclosureProofBuilder.t) :=
  (DisclosureProofBuilder.randomizedSignature d, DisclosureProofBuilder.eCommit d,
   DisclosureProofBuilder.vCommit d, DisclosureProofBuilder.disclosedAttributes d,
   DisclosureProofBuilder.undisclosedAttributes d, DisclosureProofBuilder.pk d,
   DisclosureProofBuilder.attributes d).

Module ExampleU.
(** An issuance proof for the secret key 2 and the blinding 5 under
    [Example.pk]: [u = S^5 * R[0]^2], the randomizers 7 and 4, the
    challenge 1 of context 10 and nonce 20. *)
Definition proofU : ProofU.t :=
  {| ProofU.u := 57; ProofU.c := 1; ProofU.vPrimeResponse := 12; ProofU.sResponse := 6 |}.

(** A second issuance proof, with another challenge. *)
Definition proofU' : ProofU.t :=
  {| ProofU.u := 57; ProofU.c := 3; ProofU.vPrimeResponse := 22; ProofU.sResponse := 10 |}.

(** A public key with fewer bases than [Example.proofA] has indices. *)
Definition shortPk : PublicKey.t :=
  {| PublicKey.N := 77; PublicKey.S := 2; PublicKey.Z_ := 68;
     PublicKey.R := [3; 5]; PublicKey.Params := Example.params |}.

(** The builder at address 0 of [Example.heap]. *)
Definition builder : DisclosureProofBuilder.t :=
  default {| DisclosureProofBuilder.randomizedSignature := Example.sig;
             DisclosureProofBuilder.eCommit := None;
             DisclosureProofBuilder.vCommit := None;
             DisclosureProofBuilder.attrRandomizers := ∅;
             DisclosureProofBuilder.z := None;
             DisclosureProofBuilder.disclosedAttributes := [];
             DisclosureProofBuilder.undisclosedAttributes := [];
             DisclosureProofBuilder.pk := Example.pk;
             DisclosureProofBuilder.attributes := [] |}
    (Example.heap !! 0%nat).

(** [builder] after [Commit] with the secret-key randomizer 9. *)
Definition committed : DisclosureProofBuilder.t :=
  default builder (snd <$> DisclosureProofBuilder.Commit (Some 9) builder).

(** The proof that [committed] makes for the challenge 3. *)
Definition proofK : ProofD.t :=
  default Example.proofC (DisclosureProofBuilder.CreateProof 3 committed).

(** [BuildProofList] on [Example.heap], with the builder at address 0
    named twice. *)
Definition built : option (ProofList.t * gmap nat DisclosureProofBuilder.t * Z) :=
  BuildProofList (hash := Example.hash) (rnd := Example.counter)
    Example.params 11 20 [0%nat; 1%nat; 0%nat] Example.heap 324769.

Definition builtList : ProofList.t := default [] ((λ r, r.1.1) <$> built).

Definition builtHeap : gmap nat DisclosureProofBuilder.t :=
  default ∅ ((λ r, r.1.2) <$> built).
End ExampleU.

(** * Properties *)

(** ** Arithmetic modulo a positive [n] *)

Lemma eqm_eq n a b : eqm n a b ↔ a mod n = b mod n.
Proof. done. Qed.

#[local] Instance eqm_equivalence n : Equivalence (eqm n) := eqm_setoid n.
#[local] Instance mul_eqm n : Proper (eqm n ==> eqm n ==> eqm n) Z.mul := Zmult_eqm n.

Section Modular.
Context (n : Z) (Hn : 0 < n).

Lemma eqm_mul_1_l a b : eqm n a 1 → eqm n (a * b) b.
Proof. intros H. rewrite H. by rewrite Z.mul_1_l. Qed.

Lemma invmod_mul_l x : Z.coprime x n → eqm n (Z.invmod x n * x) 1.
Proof. intros H. apply eqm_eq. by apply Z.invmod_coprime'. Qed.

Lemma invmod_mul_r x : Z.coprime x n → eqm n (x * Z.invmod x n) 1.
Proof. intros H. rewrite Z.mul_comm. by apply invmod_mul_l. Qed.

Lemma coprime_eqm a b : eqm n a b → Z.coprime a n → Z.coprime b n.
Proof.
  rewrite eqm_eq. intros H Ha. apply Z.coprime_mod_l_iff. rewrite <- H.
  by apply Z.coprime_mod_l_iff.
Qed.

Lemma coprime_of_inverse a b : eqm n (a * b) 1 → Z.coprime a n.
Proof.
  rewrite eqm_eq. intros H. apply Z.coprime_Bezout.
  exists b, ((1 - a * b) / n).
  assert (Hd : (1 - a * b) mod n = 0).
  { rewrite Zminus_mod, <- H, Z.sub_diag. apply Z.mod_0_l. lia. }
  pose proof (Z.div_mod (1 - a * b) n ltac:(lia)) as Hdm.
  rewrite Hd in Hdm. lia.
Qed.

Lemma eqm_mul_cancel_l x a b : Z.coprime x n → eqm n (x * a) (x * b) → eqm n a b.
Proof.
  intros Hx H.
  assert (H' : eqm n (Z.invmod x n * (x * a)) (Z.invmod x n * (x * b))) by by rewrite H.
  rewrite !Z.mul_assoc in H'.
  rewrite <- (eqm_mul_1_l (Z.invmod x n * x) a (invmod_mul_l x Hx)).
  rewrite <- (eqm_mul_1_l (Z.invmod x n * x) b (invmod_mul_l x Hx)).
  done.
Qed.

Lemma invmod_unique a b : eqm n (a * b) 1 → eqm n (Z.invmod a n) b.
Proof.
  intros H. pose proof (coprime_of_inverse a b H) as Ha.
  apply (eqm_mul_cancel_l a); [done|].
  rewrite H. by apply invmod_mul_r.
Qed.

Lemma pow_eqm a b k : eqm n a b → eqm n (a ^ k) (b ^ k).
Proof.
  rewrite !eqm_eq. intros H. rewrite <- (Z.mod_pow_l a), <- (Z.mod_pow_l b). by rewrite H.
Qed.

Lemma zpow_nonneg x y : 0 ≤ y → zpow n x y = x ^ y mod n.
Proof. intros H. unfold zpow. by rewrite (proj2 (Z.ltb_ge y 0)). Qed.

Lemma zpow_neg x y : y < 0 → zpow n x y = Z.invmod x n ^ (- y) mod n.
Proof. intros H. unfold zpow. by rewrite (proj2 (Z.ltb_lt y 0)). Qed.

Lemma zpow_range x y : 0 ≤ zpow n x y < n.
Proof. unfold zpow. destruct (y <? 0); apply Z.mod_pos_bound; lia. Qed.

Lemma zpow_0 x : eqm n (zpow n x 0) 1.
Proof. rewrite zpow_nonneg by lia. rewrite Z.pow_0_r. apply Zmod_eqm. Qed.

Lemma zpow_succ x y : Z.coprime x n → eqm n (zpow n x (y + 1)) (x * zpow n x y).
Proof.
  intros Hx. destruct (Z.lt_trichotomy y (-1)) as [Hy|[->|Hy]].
  - rewrite !zpow_neg by lia. rewrite !Zmod_eqm.
    replace (- y) with (Z.succ (- (y + 1))) by lia.
    rewrite Z.pow_succ_r by lia. rewrite Z.mul_assoc.
    symmetry. apply eqm_mul_1_l. by apply invmod_mul_r.
  - change (-1 + 1) with 0. rewrite zpow_0. rewrite zpow_neg by lia.
    rewrite Zmod_eqm. change (- -1) with 1. rewrite Z.pow_1_r.
    symmetry. by apply invmod_mul_r.
  - rewrite !zpow_nonneg by lia. rewrite !Zmod_eqm.
    replace (y + 1) with (Z.succ y) by lia. by rewrite Z.pow_succ_r by lia.
Qed.

Lemma zpow_add x a b :
  Z.coprime x n → eqm n (zpow n x (a + b)) (zpow n x a * zpow n x b).
Proof.
  intros Hx. pattern b. apply Z.bi_induction.
  - intros ? ? ->. done.
  - rewrite Z.add_0_r. rewrite (zpow_0 x). by rewrite Z.mul_1_r.
  - intros k. rewrite <- !Z.add_1_r, Z.add_assoc. split.
    + intros IH. rewrite !zpow_succ by done. rewrite IH. f_equal. ring.
    + intros IH. rewrite !zpow_succ in IH by done.
      apply (eqm_mul_cancel_l x); [done|]. rewrite IH. f_equal. ring.
Qed.

Lemma zpow_mul_nonneg x y c :
  Z.coprime x n → 0 ≤ c → eqm n (zpow n x (c * y)) (zpow n x y ^ c).
Proof.
  intros Hx Hc. pattern c. apply natlike_ind; [| |done].
  - rewrite Z.mul_0_l, Z.pow_0_r. apply zpow_0.
  - intros k Hk IH. rewrite Z.pow_succ_r by done.
    replace (Z.succ k * y) with (y + k * y) by lia.
    rewrite zpow_add by done. by rewrite IH.
Qed.

Lemma coprime_zpow x y : Z.coprime x n → Z.coprime (zpow n x y) n.
Proof.
  intros Hx. unfold zpow. destruct (y <? 0) eqn:Hy.
  - apply Z.coprime_mod_l_iff, Z.coprime_pow_l; [lia|]. by apply Z.coprime_invmod.
  - apply Z.coprime_mod_l_iff, Z.coprime_pow_l; [lia|done].
Qed.

Lemma zpow_eqm_base x x' y : eqm n x x' → zpow n x y = zpow n x' y.
Proof.
  intros H. unfold zpow. destruct (y <? 0).
  - apply eqm_eq in H. rewrite <- (Z.invmod_mod_l x), <- (Z.invmod_mod_l x'). by rewrite H.
  - by apply eqm_eq, pow_eqm.
Qed.

(** ** The big-integer operations modulo a positive [n] *)

Lemma Mod_pos x : Big.Mod x n = Some (x mod n).
Proof.
  unfold Big.Mod. rewrite (proj2 (Z.eqb_neq n 0)) by lia. by rewrite Z.abs_eq by lia.
Qed.

Lemma ModInverse_coprime x : Z.coprime x n → Big.ModInverse x n = Some (Z.invmod x n).
Proof.
  intros Hx. unfold Big.ModInverse. rewrite (proj2 (Z.eqb_neq n 0)) by lia.
  rewrite Hx. simpl. by rewrite Z.abs_eq by lia.
Qed.

Lemma ModInverse_Some x r : Big.ModInverse x n = Some r → Z.coprime x n ∧ r = Z.invmod x n.
Proof.
  unfold Big.ModInverse. rewrite (proj2 (Z.eqb_neq n 0)) by lia.
  destruct (Z.eqb_spec (Z.gcd x n) 1) as [Hg|]; [|done].
  rewrite Z.abs_eq by lia. by intros [= <-].
Qed.

Lemma Exp_nonneg x y : 0 ≤ y → Big.Exp x y n = Some (x ^ y mod n).
Proof.
  intros Hy. unfold Big.Exp. rewrite (proj2 (Z.eqb_neq n 0)) by lia.
  rewrite (proj2 (Z.ltb_ge y 0)) by lia. by rewrite Z.abs_eq by lia.
Qed.

Lemma Exp_coprime x y : Z.coprime x n → Big.Exp x y n = Some (zpow n x y).
Proof.
  intros Hx. unfold Big.Exp, zpow. rewrite (proj2 (Z.eqb_neq n 0)) by lia.
  rewrite Hx, Z.abs_eq by lia. by destruct (y <? 0).
Qed.

Lemma Exp_Some x y q :
  Big.Exp x y n = Some q → q = zpow n x y ∧ (y < 0 → Z.coprime x n).
Proof.
  unfold Big.Exp, zpow. rewrite (proj2 (Z.eqb_neq n 0)) by lia.
  rewrite Z.abs_eq by lia. destruct (Z.ltb_spec y 0).
  - destruct (Z.eqb_spec (Z.gcd x n) 1); [|done]. by intros [= <-].
  - intros [= <-]. split; [done|lia].
Qed.

Lemma modPow_nonneg x y : 0 ≤ y → modPow x y n = Some (x ^ y mod n).
Proof.
  intros Hy. unfold modPow. rewrite (proj2 (Z.ltb_ge y 0)) by lia. by apply Exp_nonneg.
Qed.

Lemma modPow_coprime x y : Z.coprime x n → modPow x y n = Some (zpow n x y).
Proof.
  intros Hx. unfold modPow. destruct (Z.ltb_spec y 0).
  - rewrite ModInverse_coprime by done. simpl. rewrite Exp_nonneg by lia.
    by rewrite zpow_neg.
  - rewrite Exp_nonneg by done. by rewrite zpow_nonneg.
Qed.

End Modular.



(** ** Loops *)

Lemma foldlM_ext {A B} (f g : B → A → option B) l :
  (∀ b x, f b x = g b x) → ∀ b, foldlM f b l = foldlM g b l.
Proof.
  intros Hfg. induction l as [|x l IH]; intros b; simpl; [done|].
  rewrite Hfg. destruct (g b x); simpl; auto.
Qed.

Lemma foldlM_mulStep_cons {A} (g : A → option Z) b x l :
  foldlM (mulStep g) b (x :: l) =
  match g x with Some y => foldlM (mulStep g) (b * y) l | None => None end.
Proof. cbn [foldlM]. unfold mulStep. by destruct (g x). Qed.

Lemma foldlM_mulStep_perm {A} (g : A → option Z) (l l' : list A) :
  l ≡ₚ l' → ∀ b, foldlM (mulStep g) b l = foldlM (mulStep g) b l'.
Proof.
  induction 1 as [|x l l' _ IH|x y l|l l' l'' _ IH1 _ IH2]; intros b.
  - done.
  - rewrite !foldlM_mulStep_cons. destruct (g x); auto.
  - rewrite !foldlM_mulStep_cons.
    destruct (g x) as [gx|] eqn:Ex, (g y) as [gy|] eqn:Ey;
      rewrite ?foldlM_mulStep_cons, ?Ex, ?Ey; try done.
    by rewrite Z.mul_shuffle0.
  - by rewrite IH1.
Qed.

Lemma responsesInRange_forallb minimum maximum rs :
  ProofD.responsesInRange minimum maximum rs =
  forallb (λ e, negb ((e.2 <? minimum) || (e.2 >? maximum))) rs.
Proof.
  induction rs as [|[i a] rs IH]; simpl; [done|].
  rewrite IH. by destruct ((a <? minimum) || (a >? maximum)).
Qed.

Lemma responsesInRange_perm minimum maximum rs rs' :
  rs ≡ₚ rs' →
  ProofD.responsesInRange minimum maximum rs = ProofD.responsesInRange minimum maximum rs'.
Proof.
  intros Hp. rewrite !responsesInRange_forallb.
  induction Hp as [|x l l' _ IH|x y l|l l' l'' _ IH1 _ IH2]; simpl.
  - done.
  - by rewrite IH.
  - rewrite !andb_assoc. f_equal. apply andb_comm.
  - by rewrite IH1.
Qed.

Lemma reconstructZ_enum_perm ds ds' rs rs' p pk :
  ds ≡ₚ ds' → rs ≡ₚ rs' →
  ProofD.reconstructZ_enum ds rs p pk = ProofD.reconstructZ_enum ds' rs' p pk.
Proof.
  intros Hd Hr. unfold ProofD.reconstructZ_enum.
  destruct (Big.Exp _ _ _) as [n0|]; simpl; [|done].
  set (gd := λ e : Z * Z, Ri ← index (PublicKey.R pk) e.1;
                          Big.Exp Ri e.2 (PublicKey.N pk)).
  set (gr := λ e : Z * Z, Ri ← index (PublicKey.R pk) e.1;
                          modPow Ri e.2 (PublicKey.N pk)).
  rewrite (foldlM_ext _ (mulStep gd) ds), (foldlM_ext _ (mulStep gd) ds').
  2,3: intros b [i a]; unfold mulStep, gd; simpl;
       by destruct (index _ _) as [Ri|]; simpl; [destruct (Big.Exp _ _ _)|].
  rewrite (foldlM_mulStep_perm gd ds ds' Hd).
  destruct (foldlM _ _ ds') as [num|]; simpl; [|done].
  destruct (Big.ModInverse _ _) as [k|]; simpl; [|done].
  destruct (modPow _ _ _) as [kc|]; simpl; [|done].
  destruct (modPow _ _ _) as [ae|]; simpl; [|done].
  destruct (modPow _ _ _) as [sv|]; simpl; [|done].
  rewrite (foldlM_ext _ (mulStep gr) rs), (foldlM_ext _ (mulStep gr) rs').
  2,3: intros b [i a]; unfold mulStep, gr; simpl;
       by destruct (index _ _) as [Ri|]; simpl; [destruct (modPow _ _ _)|].
  by rewrite (foldlM_mulStep_perm gr rs rs' Hr).
Qed.

(** C9. The value of [reconstructZ], and with it that of
    [ChallengeContribution] and of [Verify], does not depend on the order in
    which the entries of [aResponses] and [aDisclosed] are enumerated: two
    runs that meet the entries of the same maps in different orders return
    the same result. *)
Theorem reconstructZ_enum_indep {hash : HashCommit} (p : ProofD.t) (pk : PublicKey.t)
    (ds ds' rs rs' rs1 rs1' : list (Z * Z)) (context nonce : Z) :
  enumerates ds (ProofD.aDisclosed p) → enumerates ds' (ProofD.aDisclosed p) →
  enumerates rs (ProofD.aResponses p) → enumerates rs' (ProofD.aResponses p) →
  enumerates rs1 (ProofD.aResponses p) → enumerates rs1' (ProofD.aResponses p) →
  ProofD.reconstructZ_enum ds rs p pk = ProofD.reconstructZ_enum ds' rs' p pk
  ∧ ProofD.reconstructZ_enum ds rs p pk = ProofD.reconstructZ p pk
  ∧ ProofD.ChallengeContribution_enum ds rs p pk
    = ProofD.ChallengeContribution_enum ds' rs' p pk
  ∧ ProofD.Verify_enum ds rs rs1 p pk context nonce
    = ProofD.Verify_enum ds' rs' rs1' p pk context nonce
  ∧ ProofD.Verify_enum ds rs rs1 p pk context nonce = ProofD.Verify p pk context nonce.
Proof.
  unfold enumerates. intros Hd Hd' Hr Hr' H1 H1'.
  assert (Hz : ProofD.reconstructZ_enum ds rs p pk = ProofD.reconstructZ_enum ds' rs' p pk).
  { apply reconstructZ_enum_perm; [by rewrite Hd, Hd'|by rewrite Hr, Hr']. }
  assert (Hz0 : ProofD.reconstructZ_enum ds rs p pk = ProofD.reconstructZ p pk).
  { by apply reconstructZ_enum_perm. }
  assert (Hs : ∀ rc, ProofD.VerifyWithChallenge_enum rs1 p pk rc
                     = ProofD.VerifyWithChallenge_enum rs1' p pk rc).
  { intros rc. unfold ProofD.VerifyWithChallenge_enum, ProofD.correctResponseSizes_enum.
    rewrite (responsesInRange_perm _ _ rs1 rs1'); [done|by rewrite H1, H1']. }
  assert (Hs0 : ∀ rc, ProofD.VerifyWithChallenge_enum rs1 p pk rc
                      = ProofD.VerifyWithChallenge p pk rc).
  { intros rc. unfold ProofD.VerifyWithChallenge_enum, ProofD.VerifyWithChallenge,
      ProofD.correctResponseSizes, ProofD.correctResponseSizes_enum.
    by rewrite (responsesInRange_perm _ _ rs1 _ H1). }
  repeat split.
  - done.
  - done.
  - unfold ProofD.ChallengeContribution_enum. by rewrite Hz.
  - unfold ProofD.Verify_enum, ProofD.ChallengeContribution_enum. rewrite Hz.
    destruct (ProofD.reconstructZ_enum ds' rs' p pk); simpl; [|done]. by rewrite Hs.
  - unfold ProofD.Verify_enum, ProofD.Verify, ProofD.ChallengeContribution_enum,
      ProofD.ChallengeContribution. rewrite Hz0.
    destruct (ProofD.reconstructZ p pk); simpl; [|done]. by rewrite Hs0.
Qed.

(** ** Verification of a single proof *)

Lemma Uint_add_small (a b : N) : (a + b < Uint.modulus)%N → Uint.add a b = (a + b)%N.
Proof. intros H. unfold Uint.add. by apply N.mod_small. Qed.

Lemma Uint_sub_small (a b : N) :
  (b ≤ a)%N → (a < Uint.modulus)%N → Uint.sub a b = (a - b)%N.
Proof.
  intros Hb Ha. unfold Uint.sub.
  rewrite (N.mod_small b) by lia.
  replace (a + (Uint.modulus - b))%N with ((a - b) + 1 * Uint.modulus)%N by lia.
  rewrite N.Div0.mod_add. apply N.mod_small. lia.
Qed.

Lemma Lsh_1 (k : N) : Big.Lsh 1 k = 2 ^ Z.of_N k.
Proof. unfold Big.Lsh. apply Z.shiftl_1_l. Qed.

Lemma Lsh_1_succ (k : N) :
  (k + 1 < Uint.modulus)%N → Big.Lsh 1 (Uint.add k 1) = 2 ^ (Z.of_N k + 1).
Proof. intros H. rewrite Uint_add_small by done. rewrite Lsh_1. f_equal. lia. Qed.

Lemma responsesInRange_true minimum maximum (m : gmap Z Z) :
  ProofD.responsesInRange minimum maximum (map_to_list m) = true
  ↔ ∀ i a, m !! i = Some a → minimum ≤ a ≤ maximum.
Proof.
  rewrite responsesInRange_forallb, forallb_forall. split.
  - intros H i a Hia. apply elem_of_map_to_list, list_elem_of_In in Hia.
    specialize (H _ Hia). simpl in H. lia.
  - intros H [i a] Hin. apply list_elem_of_In, elem_of_map_to_list in Hin.
    specialize (H _ _ Hin). simpl. lia.
Qed.

Lemma correctResponseSizes_true p pk :
  (LmCommit (PublicKey.Params pk) + 1 < Uint.modulus)%N →
  (LeCommit (PublicKey.Params pk) + 1 < Uint.modulus)%N →
  ProofD.correctResponseSizes p pk = true ↔ responseSizesInRange p pk.
Proof.
  intros Hm He. unfold ProofD.correctResponseSizes, ProofD.correctResponseSizes_enum,
    responseSizesInRange.
  rewrite !Lsh_1_succ by done.
  rewrite <- responsesInRange_true.
  destruct (ProofD.responsesInRange _ _ _); simpl;
    [|split; [done|by intros [[=] _]]].
  destruct (Z.ltb_spec (ProofD.eResponse p)
              (- (2 ^ (Z.of_N (LeCommit (PublicKey.Params pk)) + 1) - 1))); simpl;
    [split; [done|lia]|].
  destruct (Z.gtb_spec (ProofD.eResponse p)
              (2 ^ (Z.of_N (LeCommit (PublicKey.Params pk)) + 1) - 1)); simpl;
    [split; [done|lia]|].
  split; [|done]. intros _. split; [done|lia].
Qed.

(** C2. [ProofD.Verify] returns true exactly when (a) every [aResponse] and
    [eResponse] lie in their intervals and (b) the challenge recomputed as
    H(context, A, reconstructZ(pk), nonce) equals [c]; when a response is out
    of range the proof is rejected, whatever the recomputed challenge is.
    The bit lengths are such that [LmCommit+1] and [LeCommit+1] fit a
    [uint]. *)
Theorem ProofD_Verify_iff {hash : HashCommit} (p : ProofD.t) (pk : PublicKey.t) (context nonce : Z) :
  (LmCommit (PublicKey.Params pk) + 1 < Uint.modulus)%N →
  (LeCommit (PublicKey.Params pk) + 1 < Uint.modulus)%N →
  (ProofD.Verify p pk context nonce = Some true
   ↔ responseSizesInRange p pk
     ∧ ∃ z, ProofD.reconstructZ p pk = Some z
            ∧ hashCommit [context; ProofD.A p; z; nonce] = ProofD.c p)
  ∧ (∀ z, ProofD.reconstructZ p pk = Some z → ¬ responseSizesInRange p pk →
          ProofD.Verify p pk context nonce = Some false).
Proof.
  intros Hm He.
  pose proof (correctResponseSizes_true p pk Hm He) as Hsz.
  unfold ProofD.Verify, ProofD.ChallengeContribution, ProofD.VerifyWithChallenge,
    createChallenge.
  split.
  - destruct (ProofD.reconstructZ p pk) as [z|]; simpl;
      [|split; [done|by intros [_ (? & [=] & _)]]].
    split.
    + intros [= Hv]. apply andb_true_iff in Hv as [Hs Hc].
      apply Hsz in Hs. apply Z.eqb_eq in Hc. split; [done|]. by exists z.
    + intros [Hs (z' & [= <-] & Hc)]. f_equal. apply andb_true_iff. split.
      * by apply Hsz.
      * by apply Z.eqb_eq.
  - intros z -> Hn. simpl. f_equal.
    destruct (ProofD.correctResponseSizes p pk) eqn:Hs; [|done].
    exfalso. apply Hn. by apply Hsz.
Qed.

Lemma isPowMod_Exp a x n q : 0 < n → Big.Exp a x n = Some q ↔ isPowMod a x n q.
Proof.
  intros Hn. unfold isPowMod. destruct (decide (0 ≤ x)) as [Hx|Hx].
  - rewrite Exp_nonneg by done. naive_solver.
  - split.
    + intros Hq. apply Exp_Some in Hq as [-> Hc]; [|done].
      exists (Z.invmod a n). split.
      * apply eqm_eq, invmod_mul_r. apply Hc. lia.
      * apply zpow_neg. lia.
    + intros (b & Hb & ->). apply eqm_eq in Hb.
      rewrite (Exp_coprime n Hn) by by eapply coprime_of_inverse.
      f_equal. rewrite zpow_neg by lia. apply eqm_eq, pow_eqm.
      by apply invmod_unique.
Qed.

(** C6. [ProofS.Verify] computes [Q = A^e mod N],
    [ACommit = A^(c + eResponse*e) mod N] and
    [c' = H(context, Q, A, nonce, ACommit)], and returns true exactly when
    [c] equals [c']; [N] is a positive modulus. *)
Theorem ProofS_Verify_iff {hash : HashCommit} (p : ProofS.t) (pk : PublicKey.t)
    (signature : CLSignature.t) (context nonce : Z) :
  0 < PublicKey.N pk →
  (ProofS.Verify p pk signature context nonce = Some true
   ↔ ProofS_accepts p pk signature context nonce)
  ∧ (∀ Q ACommit,
       isPowMod (CLSignature.A signature) (CLSignature.E signature) (PublicKey.N pk) Q →
       isPowMod (CLSignature.A signature)
         (ProofS.c p + ProofS.eResponse p * CLSignature.E signature) (PublicKey.N pk) ACommit →
       ProofS.Verify p pk signature context nonce
       = Some (bool_decide
                 (ProofS.c p = hashCommit [context; Q; CLSignature.A signature; nonce; ACommit]))).
Proof.
  intros Hn. unfold ProofS.Verify, ProofS_accepts. split.
  - split.
    + destruct (Big.Exp _ (_ + _) _) as [ac|] eqn:Hac; simpl; [|done].
      destruct (Big.Exp _ (CLSignature.E _) _) as [q|] eqn:Hq; simpl; [|done].
      intros [= Hc]. apply Z.eqb_eq in Hc.
      exists q, ac. by rewrite <- !isPowMod_Exp.
    + intros (q & ac & Hq & Hac & Hc).
      apply isPowMod_Exp in Hq, Hac; [|done..]. rewrite Hac, Hq. simpl.
      f_equal. by apply Z.eqb_eq.
  - intros q ac Hq Hac. apply isPowMod_Exp in Hq, Hac; [|done..].
    rewrite Hac, Hq. simpl. f_equal.
    destruct (Z.eqb_spec (ProofS.c p)
      (hashCommit [context; q; CLSignature.A signature; nonce; ac]));
      [by rewrite bool_decide_eq_true_2|by rewrite bool_decide_eq_false_2].
Qed.

(** ** Verification of a proof list *)

Lemma Proof_Verify_unfold {hash : HashCommit} (p : Proof) pk context nonce :
  Proof_Verify p pk context nonce =
  (contribution ← ChallengeContribution p pk;
   Some (VerifyWithChallenge p pk (createChallenge context nonce contribution))).
Proof. by destruct p. Qed.

Lemma verifyEach_from_true {hash : HashCommit} (pl : ProofList.t) publicKeys context nonce i :
  ProofList.verifyEach_from i pl publicKeys context nonce = Some true
  ↔ ∀ j p, pl !! j = Some p →
      ∃ pk, publicKeys !! (i + j)%nat = Some pk
            ∧ Proof_Verify p pk context nonce = Some true.
Proof.
  revert i. induction pl as [|q pl IH]; intros i; simpl.
  - split; [|done]. intros _ j p Hj. by destruct j.
  - split.
    + intros Hv j p Hj.
      destruct (publicKeys !! i) as [pk|] eqn:Hpk; simpl in Hv; [|done].
      destruct (ChallengeContribution q pk) as [cs|] eqn:Hcs; simpl in Hv; [|done].
      destruct (VerifyWithChallenge q pk _) eqn:Hq; simpl in Hv; [|done].
      destruct j as [|j]; simpl in Hj.
      * injection Hj as <-. exists pk. rewrite Nat.add_0_r. split; [done|].
        rewrite Proof_Verify_unfold, Hcs. simpl. by rewrite Hq.
      * replace (i + S j)%nat with (S i + j)%nat by lia. by eapply IH.
    + intros Hall.
      destruct (Hall 0%nat q eq_refl) as (pk & Hpk & Hq).
      rewrite Nat.add_0_r in Hpk. rewrite Hpk. simpl.
      rewrite Proof_Verify_unfold in Hq.
      destruct (ChallengeContribution q pk) as [cs|]; simpl in *; [|done].
      injection Hq as ->. simpl. apply IH. intros j p Hj.
      replace (S i + j)%nat with (i + S j)%nat by lia. by apply Hall.
Qed.

(** C7. For a non-empty proof list and as many public keys, [Verify] with
    [shouldBeBound = false] returns true exactly when every proof of the
    list verifies on its own against the public key of its position, the
    context and the nonce. *)
Theorem ProofList_Verify_unbound_iff {hash : HashCommit} (pl : ProofList.t)
    (publicKeys : list PublicKey.t) (context nonce : Z) :
  pl ≠ [] → length pl = length publicKeys →
  ProofList.Verify pl publicKeys context nonce false = Some true
  ↔ ∀ i p pk, pl !! i = Some p → publicKeys !! i = Some pk →
      Proof_Verify p pk context nonce = Some true.
Proof.
  intros Hne Hlen. unfold ProofList.Verify.
  destruct pl as [|q pl]; [done|].
  change (length (q :: pl) =? 0)%nat with false. cbv iota.
  rewrite (proj2 (Nat.eqb_eq _ _) Hlen). cbv iota beta. simpl negb. cbv iota.
  rewrite verifyEach_from_true. split.
  - intros Hall i p pk Hp Hpk. destruct (Hall i p Hp) as (pk' & Hpk' & Hv).
    simpl in Hpk'. by simplify_eq.
  - intros Hall j p Hj.
    destruct (lookup_lt_is_Some_2 publicKeys j) as [pk Hpk].
    { rewrite <- Hlen. by eapply lookup_lt_Some. }
    exists pk. split; [done|]. by eapply Hall.
Qed.

Lemma verifyBound_from_total (pl : ProofList.t) publicKeys expected challenge i :
  (i + length pl ≤ length publicKeys)%nat →
  is_Some expected →
  (∀ p, p ∈ pl → is_Some (SecretKeyResponse p)) →
  is_Some (ProofList.verifyBound_from i pl publicKeys expected challenge).
Proof.
  intros Hlen [e ->]. revert i Hlen.
  induction pl as [|q pl IH]; intros i Hlen Hall; simpl; [done|].
  destruct (Hall q) as [r ->]; [by left|]. simpl.
  destruct (e ?= r); [|done..].
  destruct (lookup_lt_is_Some_2 publicKeys i) as [pk ->]; [simpl in Hlen; lia|].
  simpl. destruct (VerifyWithChallenge q pk challenge); simpl; [|done].
  apply IH; [simpl in Hlen; lia|]. intros p Hp. apply Hall. by right.
Qed.

Lemma verifyBound_from_prefix (pre rest : ProofList.t) publicKeys expected challenge i :
  (i + length pre ≤ length publicKeys)%nat →
  (∀ j p pk, pre !! j = Some p → publicKeys !! (i + j)%nat = Some pk →
     Big.Cmp expected (SecretKeyResponse p) = Some Eq
     ∧ VerifyWithChallenge p pk challenge = true) →
  ProofList.verifyBound_from i (pre ++ rest) publicKeys expected challenge
  = ProofList.verifyBound_from (i + length pre) rest publicKeys expected challenge.
Proof.
  revert i. induction pre as [|q pre IH]; intros i Hlen Hall; simpl.
  - by rewrite Nat.add_0_r.
  - destruct (lookup_lt_is_Some_2 publicKeys i) as [pk Hpk]; [simpl in Hlen; lia|].
    destruct (Hall 0%nat q pk eq_refl) as [Hc Hv]; [by rewrite Nat.add_0_r|].
    rewrite Hc, Hpk. simpl. rewrite Hv. simpl.
    rewrite IH.
    + f_equal. lia.
    + simpl in Hlen. lia.
    + intros j p pk' Hj Hpk'. apply (Hall (S j)); [done|].
      by replace (i + S j)%nat with (S i + j)%nat by lia.
Qed.

(** C10. [ProofList.Verify] with [shouldBeBound = true] is safe under the
    precondition that every proof of the list has a secret-key response
    (for a [ProofD]: key 0 in [aResponses]): with the contributions
    computed, it then returns a value. Without the precondition the panic
    is reachable: when the first proof has a secret-key response, a
    [ProofD] that lacks key 0 gives nil from [SecretKeyResponse()], and
    once the loop gets to it, the proofs before it having passed, the
    comparison dereferences nil: the result is the panic. *)
Theorem ProofList_Verify_bound_total {hash : HashCommit} (pl : ProofList.t)
    (publicKeys : list PublicKey.t) (context nonce : Z) (contributions : list Z) :
  length pl = length publicKeys →
  ProofList.challengeContributions pl publicKeys = Some contributions →
  ((∀ p, p ∈ pl → is_Some (SecretKeyResponse p)) →
   is_Some (ProofList.Verify pl publicKeys context nonce true))
  ∧ (∀ first pre d rest,
       pl = pre ++ IsProofD d :: rest →
       pl !! 0%nat = Some first →
       is_Some (SecretKeyResponse first) →
       ProofD.aResponses d !! 0 = None →
       (∀ j p pk, pre !! j = Some p → publicKeys !! j = Some pk →
          Big.Cmp (SecretKeyResponse first) (SecretKeyResponse p) = Some Eq
          ∧ VerifyWithChallenge p pk
              (createChallenge context nonce contributions) = true) →
       ProofD.SecretKeyResponse d = None
       ∧ ProofList.Verify pl publicKeys context nonce true = None).
Proof.
  intros Hlen Hcs. unfold ProofList.Verify. rewrite Hcs. split.
  - intros Hall. destruct pl as [|q pl]; [done|].
    change (length (q :: pl) =? 0)%nat with false. cbv iota.
    rewrite (proj2 (Nat.eqb_eq _ _) Hlen). simpl.
    apply (verifyBound_from_total (q :: pl)); [simpl in *; lia| |done].
    apply Hall. by left.
  - intros first pre d rest Hpl Hhd [e He] Hd Hpre. split; [done|].
    assert (Hnz : (length pl =? 0)%nat = false).
    { apply Nat.eqb_neq. rewrite Hpl, length_app. simpl. lia. }
    rewrite Hnz, (proj2 (Nat.eqb_eq _ _) Hlen). simpl. rewrite Hhd. simpl.
    rewrite Hpl, verifyBound_from_prefix.
    + simpl. change (SecretKeyResponse (IsProofD d)) with (ProofD.SecretKeyResponse d).
      unfold ProofD.SecretKeyResponse. by rewrite Hd, He.
    + rewrite <- Hlen, Hpl, length_app. simpl. lia.
    + intros j p pk Hj Hpk. by apply (Hpre j).
Qed.

(** ** The disclosed and the undisclosed indices *)

Lemma markDisclosed_None ds check :
  markDisclosed ds check = None
  ↔ ∃ v, v ∈ ds ∧ (v < 0 ∨ Z.of_nat (length check) ≤ v).
Proof.
  revert check. induction ds as [|v ds IH]; intros check; simpl.
  - split; [done|]. intros (v & Hv & _). by apply elem_of_nil in Hv.
  - destruct (Z.ltb_spec v 0) as [Hlt|Hge]; simpl.
    { split; [|done]. intros _. exists v. split; [left|lia]. }
    destruct (Z.leb_spec (Z.of_nat (length check)) v) as [Hle|Hlt]; simpl.
    { split; [|done]. intros _. exists v. split; [left|lia]. }
    rewrite IH, length_insert. split.
    + intros (w & Hw & Hr). exists w. split; [by right|done].
    + intros (w & Hw & Hr). apply elem_of_cons in Hw as [->|Hw]; [lia|].
      by exists w.
Qed.

Lemma markDisclosed_Some ds check check' :
  markDisclosed ds check = Some check' →
  length check' = length check
  ∧ (∀ v, v ∈ ds → 0 ≤ v < Z.of_nat (length check))
  ∧ (∀ k, check' !! k = Some true ↔
          k < length check ∧ (check !! k = Some true ∨ Z.of_nat k ∈ ds))%nat.
Proof.
  revert check. induction ds as [|v ds IH]; intros check; simpl.
  - intros [= <-]. split; [done|]. split.
    + intros v Hv. by apply elem_of_nil in Hv.
    + intros k. split.
      * intros Hk. split; [by eapply lookup_lt_Some|by left].
      * intros [_ [Hk|Hk]]; [done|]. by apply elem_of_nil in Hk.
  - destruct (Z.ltb_spec v 0) as [Hlt|Hge]; simpl; [done|].
    destruct (Z.leb_spec (Z.of_nat (length check)) v) as [Hle|Hlt]; simpl; [done|].
    intros Hm. apply IH in Hm as (Hlen & Hrange & Hk).
    rewrite length_insert in Hlen, Hrange, Hk. split; [done|]. split.
    + intros w Hw. apply elem_of_cons in Hw as [->|Hw]; [lia|]. by apply Hrange.
    + intros k. rewrite Hk. split.
      * intros [Hlt' [Hc|Hc]].
        -- split; [done|]. destruct (decide (k = Z.to_nat v)) as [->|Hne].
           ++ right. rewrite Z2Nat.id by lia. left.
           ++ left. by rewrite list_lookup_insert_ne in Hc.
        -- split; [done|]. right. by right.
      * intros [Hlt' [Hc|Hc]].
        -- split; [done|]. left. destruct (decide (k = Z.to_nat v)) as [->|Hne].
           ++ by rewrite list_lookup_insert_eq by lia.
           ++ by rewrite list_lookup_insert_ne.
        -- split; [done|]. apply elem_of_cons in Hc as [Hc|Hc]; [|by right].
           left. subst v. rewrite Nat2Z.id. by rewrite list_lookup_insert_eq by lia.
Qed.

Lemma collectUnmarked_elem i check v :
  v ∈ collectUnmarked i check
  ↔ ∃ k : nat, v = i + Z.of_nat k ∧ check !! k = Some false.
Proof.
  revert i. induction check as [|b check IH]; intros i; simpl.
  - split; [intros H; by apply elem_of_nil in H|]. by intros (k & _ & Hk).
  - destruct b; simpl.
    + rewrite IH. split.
      * intros (k & -> & Hk). exists (S k). split; [lia|done].
      * intros ([|k] & -> & Hk); [done|]. exists k. split; [lia|done].
    + rewrite elem_of_cons, IH. split.
      * intros [->|(k & -> & Hk)].
        -- exists 0%nat. split; [lia|done].
        -- exists (S k). split; [lia|done].
      * intros ([|k] & -> & Hk).
        -- left. lia.
        -- right. exists k. split; [lia|done].
Qed.

Lemma collectUnmarked_NoDup i check : NoDup (collectUnmarked i check).
Proof.
  revert i. induction check as [|b check IH]; intros i; simpl; [constructor|].
  destruct b; simpl; [apply IH|]. constructor; [|apply IH].
  rewrite collectUnmarked_elem. intros (k & Hk & _). lia.
Qed.

Lemma getUndisclosedAttributes_None ds L :
  getUndisclosedAttributes ds L = None
  ↔ ∃ v, v ∈ ds ∧ (v < 0 ∨ Z.of_nat L ≤ v).
Proof.
  unfold getUndisclosedAttributes.
  pose proof (markDisclosed_None ds (replicate L false)) as Hn.
  rewrite length_replicate in Hn. rewrite <- Hn.
  by destruct (markDisclosed _ _).
Qed.

Lemma getUndisclosedAttributes_Some ds L us :
  getUndisclosedAttributes ds L = Some us →
  NoDup us
  ∧ (∀ v, v ∈ ds → 0 ≤ v < Z.of_nat L)
  ∧ (∀ v, v ∈ us ↔ 0 ≤ v < Z.of_nat L ∧ v ∉ ds).
Proof.
  unfold getUndisclosedAttributes.
  destruct (markDisclosed _ _) as [check|] eqn:Hm; simpl; [|done].
  intros [= <-]. apply markDisclosed_Some in Hm as (Hlen & Hrange & Hk).
  rewrite length_replicate in Hlen, Hrange, Hk.
  split; [apply collectUnmarked_NoDup|]. split; [done|].
  intros v. rewrite collectUnmarked_elem. split.
  - intros (k & -> & Hf). pose proof (lookup_lt_Some _ _ _ Hf) as Hlt.
    split; [lia|]. intros Hin.
    assert (Ht : check !! k = Some true).
    { apply Hk. split; [lia|]. right. by rewrite Z.add_0_l in Hin. }
    congruence.
  - intros [Hv Hnin]. exists (Z.to_nat v). split; [lia|].
    destruct (lookup_lt_is_Some_2 check (Z.to_nat v)) as [b Hb]; [lia|].
    destruct b; [|done]. apply Hk in Hb as [_ [Hb|Hb]].
    + apply lookup_replicate in Hb as [? _]. done.
    + rewrite Z2Nat.id in Hb by lia. done.
Qed.

Lemma getUndisclosedAttributes_is_Some ds L :
  (∀ v, v ∈ ds → 0 ≤ v < Z.of_nat L) → is_Some (getUndisclosedAttributes ds L).
Proof.
  intros Hr. destruct (getUndisclosedAttributes ds L) eqn:Hg; [done|].
  apply getUndisclosedAttributes_None in Hg as (v & Hv & Hb).
  apply Hr in Hv. lia.
Qed.

(** ** The maps built by the response phase *)

Lemma foldlM_insertStep_cons f m0 w vs :
  foldlM (insertStep f) m0 (w :: vs) =
  match f w with Some x => foldlM (insertStep f) (<[w := x]> m0) vs | None => None end.
Proof. cbn [foldlM]. unfold insertStep. by destruct (f w). Qed.

Lemma foldlM_insertStep f vs m0 m :
  foldlM (insertStep f) m0 vs = Some m →
  (∀ v, v ∈ vs → is_Some (f v))
  ∧ ∀ v, m !! v = if decide (v ∈ vs) then f v else m0 !! v.
Proof.
  revert m0. induction vs as [|w vs IH]; intros m0.
  - intros [= <-]. split; [intros v Hv; by apply elem_of_nil in Hv|].
    intros v. by rewrite decide_False by apply not_elem_of_nil.
  - rewrite foldlM_insertStep_cons. destruct (f w) as [x|] eqn:Hw; [|done].
    intros Hm. apply IH in Hm as [Hs Hl]. split.
    + intros v Hv. apply elem_of_cons in Hv as [->|Hv]; [by rewrite Hw|by apply Hs].
    + intros v. rewrite Hl. destruct (decide (v ∈ vs)) as [Hv|Hv].
      * by rewrite decide_True by by right.
      * destruct (decide (v = w)) as [->|Hne].
        -- rewrite decide_True by left. by rewrite lookup_insert_eq.
        -- rewrite decide_False by (rewrite elem_of_cons; tauto).
           by rewrite lookup_insert_ne.
Qed.

Lemma foldlM_insertStep_is_Some f vs m0 :
  (∀ v, v ∈ vs → is_Some (f v)) → is_Some (foldlM (insertStep f) m0 vs).
Proof.
  revert m0. induction vs as [|w vs IH]; intros m0 Hs; [done|].
  rewrite foldlM_insertStep_cons. destruct (Hs w) as [x ->]; [left|].
  apply IH. intros v Hv. apply Hs. by right.
Qed.

Lemma respond_unfold pk sig attributes eCommit vCommit aCommits ds us c :
  respond pk sig attributes eCommit vCommit aCommits ds us c =
  (eCommit ← eCommit;
   vCommit ← vCommit;
   aResponses ← foldlM (insertStep (attrResponse attributes aCommits c)) ∅ us;
   aDisclosed ← foldlM (insertStep (index attributes)) ∅ ds;
   Some {| ProofD.c := c; ProofD.A := CLSignature.A sig;
           ProofD.eResponse :=
             eCommit + c * (CLSignature.E sig
                            - Big.Lsh 1 (Uint.sub (Le (PublicKey.Params pk)) 1));
           ProofD.vResponse := vCommit + c * CLSignature.V sig;
           ProofD.aResponses := aResponses; ProofD.aDisclosed := aDisclosed |}).
Proof.
  unfold respond. destruct eCommit as [e|]; simpl; [|done].
  destruct vCommit as [v|]; simpl; [|done].
  rewrite (foldlM_ext _ (insertStep (attrResponse attributes aCommits c)) us).
  2:{ intros m w. unfold insertStep, attrResponse.
      destruct (index attributes w); [|done]. by destruct (mapGet aCommits w). }
  rewrite (foldlM_ext (λ (m : gmap Z Z) v, a ← index attributes v; Some (<[v:=a]> m))
             (insertStep (index attributes)) ds); [done|].
  intros m w. unfold insertStep. by destruct (index attributes w).
Qed.

Lemma respond_Some pk sig attributes eCommit vCommit aCommits ds us c p :
  respond pk sig attributes eCommit vCommit aCommits ds us c = Some p →
  ∃ e v,
    eCommit = Some e ∧ vCommit = Some v
    ∧ ProofD.c p = c ∧ ProofD.A p = CLSignature.A sig
    ∧ ProofD.eResponse p
      = e + c * (CLSignature.E sig - Big.Lsh 1 (Uint.sub (Le (PublicKey.Params pk)) 1))
    ∧ ProofD.vResponse p = v + c * CLSignature.V sig
    ∧ (∀ w, ProofD.aResponses p !! w
            = if decide (w ∈ us) then attrResponse attributes aCommits c w else None)
    ∧ (∀ w, ProofD.aDisclosed p !! w = if decide (w ∈ ds) then index attributes w else None)
    ∧ (∀ w, w ∈ us → is_Some (attrResponse attributes aCommits c w))
    ∧ (∀ w, w ∈ ds → is_Some (index attributes w)).
Proof.
  rewrite respond_unfold.
  destruct eCommit as [e|]; simpl; [|done]. destruct vCommit as [v|]; simpl; [|done].
  destruct (foldlM _ ∅ us) as [mr|] eqn:Hr; simpl; [|done].
  destruct (foldlM _ ∅ ds) as [md|] eqn:Hd; simpl; [|done].
  intros [= <-]. simpl.
  apply foldlM_insertStep in Hr as [Hrs Hrl], Hd as [Hds Hdl].
  by exists e, v.
Qed.

Lemma respond_is_Some pk sig attributes e v aCommits ds us c :
  (∀ w, w ∈ us → is_Some (attrResponse attributes aCommits c w)) →
  (∀ w, w ∈ ds → is_Some (index attributes w)) →
  is_Some (respond pk sig attributes (Some e) (Some v) aCommits ds us c).
Proof.
  intros Hus Hds. rewrite respond_unfold. simpl.
  destruct (foldlM_insertStep_is_Some _ us ∅ Hus) as [mr ->].
  destruct (foldlM_insertStep_is_Some _ ds ∅ Hds) as [md ->]. done.
Qed.

Lemma index_is_Some {A} (l : list A) i : is_Some (index l i) ↔ 0 ≤ i < Z.of_nat (length l).
Proof.
  unfold index. destruct (Z.ltb_spec i 0).
  - split; [by intros [? ?]|lia].
  - rewrite lookup_lt_is_Some. lia.
Qed.

(** The invariant on the keys, for the proof made from a disclosed list
    and the undisclosed list computed from it. *)
Lemma respond_partition pk sig attributes eCommit vCommit aCommits ds us c p :
  getUndisclosedAttributes ds (length attributes) = Some us →
  respond pk sig attributes eCommit vCommit aCommits ds us c = Some p →
  partitionsIndices p (length attributes)
  ∧ disclosesAttributes p attributes ds
  ∧ (0 ∉ ds → (0 < length attributes)%nat → 0 ∈ dom (ProofD.aResponses p))
  ∧ (0 ∈ ds → 0 ∉ dom (ProofD.aResponses p)).
Proof.
  intros Hus Hp. apply getUndisclosedAttributes_Some in Hus as (Hnd & Hrange & Hel).
  apply respond_Some in Hp as (e & v & _ & _ & _ & _ & _ & _ & Hr & Hd & Hrs & Hds).
  assert (HdomR : ∀ i, i ∈ dom (ProofD.aResponses p) ↔ i ∈ us).
  { intros i. rewrite elem_of_dom, Hr. destruct (decide (i ∈ us)) as [Hi|Hi].
    - split; [done|]. intros _. by apply Hrs.
    - split; [by intros [? ?]|done]. }
  assert (HdomD : ∀ i, i ∈ dom (ProofD.aDisclosed p) ↔ i ∈ ds).
  { intros i. rewrite elem_of_dom, Hd. destruct (decide (i ∈ ds)) as [Hi|Hi].
    - split; [done|]. intros _. by apply Hds.
    - split; [by intros [? ?]|done]. }
  split; [split|split; [|split]].
  - intros i Hi1 Hi2. apply HdomR, Hel in Hi1 as [_ Hi1]. by apply HdomD in Hi2.
  - intros i. rewrite elem_of_union, HdomR, HdomD, Hel. split.
    + intros [[? _]|?]; [done|by apply Hrange].
    + intros Hi. destruct (decide (i ∈ ds)); [by right|by left].
  - intros i Hi. destruct (Hds i Hi) as [a Ha]. exists a. split; [done|].
    by rewrite Hd, decide_True.
  - intros H0 HL. apply HdomR, Hel. split; [lia|done].
  - intros H0 Hin. apply HdomR, Hel in Hin as [_ Hin]. done.
Qed.

(** ** Building a proof: indices, keys, random source *)

Section Builder.
Context {hash : HashCommit} {St : Type} {rnd : RandomBigInt St}.

Lemma CreateDisclosureProofBuilder_Some ic disclosed st randSig st1 us :
  CLSignature.Randomize (IdemixCredential.Signature ic) (IdemixCredential.Pk ic) st
    = Some (randSig, st1) →
  getUndisclosedAttributes disclosed (length (IdemixCredential.Attributes ic)) = Some us →
  ∃ d st',
    CreateDisclosureProofBuilder ic disclosed st = Some (d, st')
    ∧ DisclosureProofBuilder.randomizedSignature d = randSig
    ∧ DisclosureProofBuilder.eCommit d
      = (rnd (LeCommit (PublicKey.Params (IdemixCredential.Pk ic))) st1).1.1
    ∧ DisclosureProofBuilder.vCommit d
      = (rnd (LvCommit (PublicKey.Params (IdemixCredential.Pk ic)))
           (rnd (LeCommit (PublicKey.Params (IdemixCredential.Pk ic))) st1).2).1.1
    ∧ DisclosureProofBuilder.z d = None
    ∧ DisclosureProofBuilder.disclosedAttributes d = disclosed
    ∧ DisclosureProofBuilder.undisclosedAttributes d = us
    ∧ DisclosureProofBuilder.pk d = IdemixCredential.Pk ic
    ∧ DisclosureProofBuilder.attributes d = IdemixCredential.Attributes ic.
Proof.
  intros Hr Hus. unfold CreateDisclosureProofBuilder. rewrite Hr. simpl.
  unfold randomBigInt.
  destruct (rnd (LeCommit _) st1) as [[eC ?] st2]. simpl.
  destruct (rnd (LvCommit _) st2) as [[vC ?] st3]. simpl.
  rewrite Hus. simpl.
  destruct (drawRandomizers _ us ∅ st3) as [aC st4]. simpl.
  eexists _, _. split; [done|]. by simpl.
Qed.

Lemma CreateDisclosureProofBuilder_inv ic disclosed st d st' :
  CreateDisclosureProofBuilder ic disclosed st = Some (d, st') →
  getUndisclosedAttributes disclosed (length (IdemixCredential.Attributes ic))
    = Some (DisclosureProofBuilder.undisclosedAttributes d)
  ∧ DisclosureProofBuilder.disclosedAttributes d = disclosed
  ∧ DisclosureProofBuilder.attributes d = IdemixCredential.Attributes ic
  ∧ DisclosureProofBuilder.pk d = IdemixCredential.Pk ic.
Proof.
  unfold CreateDisclosureProofBuilder.
  destruct (CLSignature.Randomize _ _ st) as [[randSig st1]|]; simpl; [|done].
  unfold randomBigInt.
  destruct (rnd (LeCommit _) st1) as [[eC ?] st2]. simpl.
  destruct (rnd (LvCommit _) st2) as [[vC ?] st3]. simpl.
  destruct (getUndisclosedAttributes _ _) as [us|]; simpl; [|done].
  destruct (drawRandomizers _ us ∅ st3) as [aC st4]. simpl.
  by intros [= <- <-].
Qed.

Lemma CreateDisclosureProof_inv ic disclosed context nonce st p st' :
  CreateDisclosureProof ic disclosed context nonce st = Some (p, st') →
  ∃ us randSig eCommit vCommit aCommits c,
    getUndisclosedAttributes disclosed (length (IdemixCredential.Attributes ic)) = Some us
    ∧ respond (IdemixCredential.Pk ic) randSig (IdemixCredential.Attributes ic)
        eCommit vCommit aCommits disclosed us c = Some p.
Proof.
  unfold CreateDisclosureProof, CreateDisclosureProof_commit.
  destruct (getUndisclosedAttributes _ _) as [us|]; simpl; [|done].
  destruct (CLSignature.Randomize _ _ st) as [[randSig st1]|]; simpl; [|done].
  unfold randomBigInt.
  destruct (rnd (LeCommit _) st1) as [[eC ?] st2]. simpl.
  destruct (rnd (LvCommit _) st2) as [[vC ?] st3]. simpl.
  destruct (drawRandomizers _ us ∅ st3) as [aC st4]. simpl.
  destruct (commitZ _ _ _ _ _ _) as [Zc|]; simpl; [|done].
  destruct (respond _ _ _ _ _ _ _ _ _) as [p'|] eqn:Hp; simpl; [|done].
  intros [= <- <-]. by eexists us, randSig, eC, vC, aC, _.
Qed.

(** C4, as the code has it. A disclosed list with an index outside
    [[0, L)] makes [CreateDisclosureProofBuilder] and
    [CreateDisclosureProof] panic on the slice access: no builder and no
    proof. A disclosed list within range is accepted, index 0 included:
    once the signature is randomized a builder is returned, and its
    undisclosed indices are those of [[0, L)] that are not disclosed. *)
Theorem CreateDisclosureProofBuilder_indices (ic : IdemixCredential.t)
    (disclosed : list Z) (context nonce : Z) (st : St) :
  ((∃ v, v ∈ disclosed
         ∧ (v < 0 ∨ Z.of_nat (length (IdemixCredential.Attributes ic)) ≤ v)) →
   CreateDisclosureProofBuilder ic disclosed st = None
   ∧ CreateDisclosureProof ic disclosed context nonce st = None)
  ∧ ((∀ v, v ∈ disclosed → 0 ≤ v < Z.of_nat (length (IdemixCredential.Attributes ic))) →
     is_Some (CLSignature.Randomize (IdemixCredential.Signature ic)
                (IdemixCredential.Pk ic) st) →
     ∃ d st',
       CreateDisclosureProofBuilder ic disclosed st = Some (d, st')
       ∧ DisclosureProofBuilder.disclosedAttributes d = disclosed
       ∧ ∀ v, v ∈ DisclosureProofBuilder.undisclosedAttributes d
              ↔ 0 ≤ v < Z.of_nat (length (IdemixCredential.Attributes ic))
                ∧ v ∉ disclosed).
Proof.
  split.
  - intros Hbad. apply getUndisclosedAttributes_None in Hbad. split.
    + unfold CreateDisclosureProofBuilder.
      destruct (CLSignature.Randomize _ _ st) as [[randSig st1]|]; simpl; [|done].
      unfold randomBigInt.
      destruct (rnd (LeCommit _) st1) as [[eC ?] st2]. simpl.
      destruct (rnd (LvCommit _) st2) as [[vC ?] st3]. simpl.
      by rewrite Hbad.
    + unfold CreateDisclosureProof, CreateDisclosureProof_commit. by rewrite Hbad.
  - intros Hok [[randSig st1] Hr].
    destruct (getUndisclosedAttributes_is_Some _ _ Hok) as [us Hus].
    destruct (CreateDisclosureProofBuilder_Some _ _ _ _ _ _ Hr Hus)
      as (d & st' & Hd & _ & _ & _ & _ & Hds & Hu & _).
    exists d, st'. split; [done|]. split; [done|]. rewrite Hu.
    by apply getUndisclosedAttributes_Some in Hus as (_ & _ & Hel).
Qed.

(** C5, as the code has it. Every [ProofD] made by [CreateDisclosureProof]
    or by [CreateProof] on a builder of [CreateDisclosureProofBuilder],
    before or after [Commit], has disjoint key sets in [aResponses] and
    [aDisclosed] whose union is [0 .. L-1], and holds under every disclosed
    index the attribute of the credential. Key 0 is in [aResponses] when
    index 0 is not in the disclosed list and the credential has an
    attribute 0; it is not when index 0 is disclosed. *)
Theorem ProofD_keys_partition (ic : IdemixCredential.t) (disclosed : list Z) (p : ProofD.t) :
  (∃ context nonce st st',
     CreateDisclosureProof ic disclosed context nonce st = Some (p, st'))
  ∨ (∃ st d st' challenge,
       CreateDisclosureProofBuilder ic disclosed st = Some (d, st')
       ∧ (DisclosureProofBuilder.CreateProof challenge d = Some p
          ∨ ∃ skRandomizer values d',
              DisclosureProofBuilder.Commit skRandomizer d = Some (values, d')
              ∧ DisclosureProofBuilder.CreateProof challenge d' = Some p)) →
  wellFormedProofD p (IdemixCredential.Attributes ic) disclosed
  ∧ (0 ∉ disclosed → (0 < length (IdemixCredential.Attributes ic))%nat →
     0 ∈ dom (ProofD.aResponses p))
  ∧ (0 ∈ disclosed → 0 ∉ dom (ProofD.aResponses p)).
Proof.
  assert (Hgen : ∀ pk sig eC vC aC us c,
    getUndisclosedAttributes disclosed (length (IdemixCredential.Attributes ic)) = Some us →
    respond pk sig (IdemixCredential.Attributes ic) eC vC aC disclosed us c = Some p →
    wellFormedProofD p (IdemixCredential.Attributes ic) disclosed
    ∧ (0 ∉ disclosed → (0 < length (IdemixCredential.Attributes ic))%nat →
       0 ∈ dom (ProofD.aResponses p))
    ∧ (0 ∈ disclosed → 0 ∉ dom (ProofD.aResponses p))).
  { intros pk sig eC vC aC us c Hus Hp.
    destruct (respond_partition _ _ _ _ _ _ _ _ _ _ Hus Hp) as (? & ? & ? & ?).
    split; [by split|by split]. }
  intros [(context & nonce & st & st' & Hp)|(st & d & st' & c & Hd & Hp)].
  - apply CreateDisclosureProof_inv in Hp as (us & sig & eC & vC & aC & c & Hus & Hp).
    exact (Hgen _ _ _ _ _ _ _ Hus Hp).
  - apply CreateDisclosureProofBuilder_inv in Hd as (Hus & Hds & Hat & Hpk).
    destruct Hp as [Hp|(sk & values & d' & Hc & Hp)].
    + unfold DisclosureProofBuilder.CreateProof in Hp. rewrite Hds, Hat in Hp.
      exact (Hgen _ _ _ _ _ _ _ Hus Hp).
    + unfold DisclosureProofBuilder.Commit in Hc.
      destruct (commitZ _ _ _ _ _ _) as [z'|]; simpl in Hc; [|done].
      injection Hc as <- <-.
      unfold DisclosureProofBuilder.CreateProof in Hp. simpl in Hp.
      rewrite Hds, Hat in Hp. exact (Hgen _ _ _ _ _ _ _ Hus Hp).
Qed.

End Builder.

(** ** The error of the random source *)

Section RandomErrors.
Context {hash : HashCommit} {St : Type} (rnd : RandomBigInt St) (err : N → St → bool).

Lemma withErrors_value bits st :
  (withErrors rnd err bits st).1.1 = (rnd bits st).1.1
  ∧ (withErrors rnd err bits st).2 = (rnd bits st).2.
Proof. unfold withErrors. by destruct (rnd bits st) as [[v e] st']. Qed.

Ltac same_draw bits st :=
  let H := fresh in
  pose proof (withErrors_value bits st) as H;
  unfold randomBigInt;
  destruct (withErrors rnd err bits st) as [[? ?] ?], (rnd bits st) as [[? ?] ?];
  simpl in H; destruct H as [-> ->].

Lemma Randomize_withErrors s pk st :
  CLSignature.Randomize (rnd := withErrors rnd err) s pk st
  = CLSignature.Randomize (rnd := rnd) s pk st.
Proof.
  unfold CLSignature.Randomize, randomBigInt, withErrors.
  by destruct (rnd _ st) as [[v e] st'].
Qed.

Lemma drawRandomizers_withErrors bits vs m st :
  drawRandomizers (rnd := withErrors rnd err) bits vs m st
  = drawRandomizers (rnd := rnd) bits vs m st.
Proof.
  revert m st. induction vs as [|v vs IH]; intros m st; simpl; [done|].
  same_draw bits st. apply IH.
Qed.

(** C8, as the code has it. The error handed back by [randomBigInt] is
    dropped: whatever errors the random source reports,
    [CreateDisclosureProof], [CreateDisclosureProofBuilder] and
    [BuildProofList] return what they return for the same pointers without
    them, and no result stands for a failure of the random source. In
    particular [CreateDisclosureProofBuilder] returns a builder whenever the
    signature is randomized and the disclosed indices are in range: its
    randomizers are the pointers it was handed. *)
Theorem randomBigInt_error_dropped :
  (∀ ic disclosed context nonce st,
     CreateDisclosureProof (rnd := withErrors rnd err) ic disclosed context nonce st
     = CreateDisclosureProof (rnd := rnd) ic disclosed context nonce st)
  ∧ (∀ ic disclosed st,
       CreateDisclosureProofBuilder (rnd := withErrors rnd err) ic disclosed st
       = CreateDisclosureProofBuilder (rnd := rnd) ic disclosed st)
  ∧ (∀ B (builder : ProofBuilder B) params context nonce proofBuilders heap st,
       BuildProofList (rnd := withErrors rnd err) params context nonce proofBuilders heap st
       = BuildProofList (rnd := rnd) params context nonce proofBuilders heap st)
  ∧ (∀ ic disclosed st randSig st1,
       CLSignature.Randomize (rnd := rnd) (IdemixCredential.Signature ic)
         (IdemixCredential.Pk ic) st = Some (randSig, st1) →
       (∀ v, v ∈ disclosed → 0 ≤ v < Z.of_nat (length (IdemixCredential.Attributes ic))) →
       ∃ d st',
         CreateDisclosureProofBuilder (rnd := withErrors rnd err) ic disclosed st
           = Some (d, st')
         ∧ DisclosureProofBuilder.eCommit d
           = (rnd (LeCommit (PublicKey.Params (IdemixCredential.Pk ic))) st1).1.1
         ∧ DisclosureProofBuilder.vCommit d
           = (rnd (LvCommit (PublicKey.Params (IdemixCredential.Pk ic)))
                (rnd (LeCommit (PublicKey.Params (IdemixCredential.Pk ic))) st1).2).1.1).
Proof.
  assert (Hb : ∀ ic disclosed st,
    CreateDisclosureProofBuilder (rnd := withErrors rnd err) ic disclosed st
    = CreateDisclosureProofBuilder (rnd := rnd) ic disclosed st).
  { intros ic disclosed st. unfold CreateDisclosureProofBuilder.
    rewrite Randomize_withErrors.
    destruct (CLSignature.Randomize _ _ st) as [[randSig st1]|]; simpl; [|done].
    same_draw (LeCommit (PublicKey.Params (IdemixCredential.Pk ic))) st1.
    match goal with |- context [withErrors rnd err ?b ?s] => same_draw b s end.
    destruct (getUndisclosedAttributes _ _) as [us|]; simpl; [|done].
    by rewrite drawRandomizers_withErrors. }
  split; [|split; [done|split]].
  - intros ic disclosed context nonce st.
    unfold CreateDisclosureProof, CreateDisclosureProof_commit.
    destruct (getUndisclosedAttributes _ _) as [us|]; simpl; [|done].
    rewrite Randomize_withErrors.
    destruct (CLSignature.Randomize _ _ st) as [[randSig st1]|]; simpl; [|done].
    same_draw (LeCommit (PublicKey.Params (IdemixCredential.Pk ic))) st1.
    match goal with |- context [withErrors rnd err ?b ?s] => same_draw b s end.
    by rewrite drawRandomizers_withErrors.
  - intros B builder params context nonce proofBuilders heap st.
    unfold BuildProofList, randomBigInt, withErrors.
    by destruct (rnd (LmCommit params) st) as [[sk ?] st'].
  - intros ic disclosed st randSig st1 Hr Hok. rewrite Hb.
    destruct (getUndisclosedAttributes_is_Some _ _ Hok) as [us Hus].
    destruct (CreateDisclosureProofBuilder_Some _ _ _ _ _ _ Hr Hus)
      as (d & st' & Hd & _ & HeC & HvC & _).
    by exists d, st'.
Qed.

End RandomErrors.

(** ** The group equation *)

#[local] Instance pow_eqm_proper n : Proper (eqm n ==> eq ==> eqm n) Z.pow.
Proof. intros a b Hab k ? <-. rewrite !eqm_eq in *. rewrite <- (Z.mod_pow_l a), <- (Z.mod_pow_l b). by rewrite Hab. Qed.

Lemma eqm_range n a b : 0 ≤ a < n → 0 ≤ b < n → eqm n a b → a = b.
Proof. rewrite eqm_eq. intros Ha Hb. by rewrite !Z.mod_small. Qed.

Section Algebra.
Context (pk : PublicKey.t) (L : nat) (Hk : validKey pk L).

#[local] Abbreviation N := (PublicKey.N pk).
#[local] Abbreviation S := (PublicKey.S pk).

Lemma key_N_pos : 0 < N.
Proof. pose proof (vk_N _ _ Hk). lia. Qed.

Lemma baseAt_coprime v : Z.coprime (baseAt pk v) N.
Proof.
  unfold baseAt, index. destruct (v <? 0); [apply Z.coprime_1_l|].
  destruct (PublicKey.R pk !! Z.to_nat v) as [r|] eqn:Hr; [|apply Z.coprime_1_l].
  simpl. by eapply (proj1 (Forall_lookup _ _) (vk_R _ _ Hk)).
Qed.

Lemma index_baseAt v :
  0 ≤ v < Z.of_nat (length (PublicKey.R pk)) → index (PublicKey.R pk) v = Some (baseAt pk v).
Proof.
  intros Hv. destruct (proj2 (index_is_Some (PublicKey.R pk) v) Hv) as [r Hr].
  unfold baseAt. by rewrite Hr.
Qed.

Lemma basePow_Some v x :
  0 ≤ v < Z.of_nat (length (PublicKey.R pk)) →
  basePow pk (v, x) = Some (zpow N (baseAt pk v) x).
Proof.
  intros Hv. unfold basePow. simpl. rewrite index_baseAt by done. simpl.
  apply modPow_coprime; [apply key_N_pos|apply baseAt_coprime].
Qed.

Lemma foldlM_basePow b f l :
  (∀ v, v ∈ l → 0 ≤ v < Z.of_nat (length (PublicKey.R pk))) →
  foldlM (mulStep (basePow pk)) b (entries f l) = Some (b * prodR pk f l).
Proof.
  revert b. induction l as [|v l IH]; intros b Hl.
  - simpl. by rewrite Z.mul_1_r.
  - unfold entries. rewrite fmap_cons, foldlM_mulStep_cons.
    rewrite basePow_Some by (apply Hl; left).
    fold (entries f l). rewrite IH by (intros w Hw; apply Hl; by right).
    simpl. by rewrite Z.mul_assoc.
Qed.

Lemma prodR_perm f l l' : l ≡ₚ l' → prodR pk f l = prodR pk f l'.
Proof.
  induction 1 as [|x l l' _ IH|x y l|l l' l'' _ IH1 _ IH2]; simpl.
  - done.
  - by rewrite IH.
  - lia.
  - by rewrite IH1.
Qed.

Lemma prodR_app f l1 l2 : prodR pk f (l1 ++ l2) = prodR pk f l1 * prodR pk f l2.
Proof.
  induction l1 as [|v l1 IH]; simpl; [by destruct (prodR pk f l2)|].
  rewrite IH. lia.
Qed.

Lemma prodR_ext f g l : (∀ v, v ∈ l → f v = g v) → prodR pk f l = prodR pk g l.
Proof.
  induction l as [|v l IH]; intros Hfg; simpl; [done|].
  rewrite (Hfg v) by left. rewrite IH; [done|]. intros w Hw. apply Hfg. by right.
Qed.

Lemma prodR_coprime f l : Z.coprime (prodR pk f l) N.
Proof.
  induction l as [|v l IH]; simpl; [apply Z.coprime_1_l|].
  apply Z.coprime_mul_l; [|done]. apply coprime_zpow, baseAt_coprime.
Qed.

Lemma zpow_response x a m c :
  Z.coprime x N → 0 ≤ c →
  eqm N (zpow N x (a + c * m)) (zpow N x a * zpow N x m ^ c).
Proof.
  intros Hx Hc. rewrite zpow_add by done.
  by rewrite zpow_mul_nonneg; [|done..].
Qed.

Lemma prodR_response a m c l :
  0 ≤ c →
  eqm N (prodR pk (λ v, a v + c * m v) l) (prodR pk a l * prodR pk m l ^ c).
Proof.
  intros Hc. induction l as [|v l IH]; simpl.
  - by rewrite Z.pow_1_l.
  - rewrite IH. rewrite zpow_response; [|apply baseAt_coprime|done].
    rewrite Z.pow_mul_l. apply eqm_eq. f_equal. ring.
Qed.

(** The commitment of the prover. *)
Lemma commitZ_loop (aC : gmap Z (option Z)) (a : Z → Z) us Z0 :
  0 ≤ Z0 < N →
  (∀ v, v ∈ us → 0 ≤ v < Z.of_nat (length (PublicKey.R pk)) ∧ mapGet aC v = Some (a v)) →
  ∃ Zc,
    foldlM (λ Z v,
              Rv ← index (PublicKey.R pk) v;
              a ← mapGet aC v;
              x ← modPow Rv a N;
              Big.Mod (Z * x) N) Z0 us = Some Zc
    ∧ 0 ≤ Zc < N ∧ eqm N Zc (Z0 * prodR pk a us).
Proof.
  revert Z0. induction us as [|v us IH]; intros Z0 HZ0 Hus.
  - exists Z0. simpl. by rewrite Z.mul_1_r.
  - destruct (Hus v) as [Hv Hav]; [left|].
    cbn [foldlM]. rewrite index_baseAt by done. simpl. rewrite Hav. simpl.
    rewrite (modPow_coprime N key_N_pos) by apply baseAt_coprime. simpl.
    rewrite (Mod_pos N key_N_pos). simpl.
    destruct (IH ((Z0 * zpow N (baseAt pk v) (a v)) mod N)) as (Zc & -> & Hr & He).
    + apply Z.mod_pos_bound, key_N_pos.
    + intros w Hw. apply Hus. by right.
    + exists Zc. split; [done|]. split; [done|].
      rewrite He. rewrite Zmod_eqm. by rewrite Z.mul_assoc.
Qed.

Lemma commitZ_Some A eC vC (aC : gmap Z (option Z)) (a : Z → Z) us :
  Z.coprime A N →
  (∀ v, v ∈ us → 0 ≤ v < Z.of_nat (length (PublicKey.R pk)) ∧ mapGet aC v = Some (a v)) →
  ∃ Zc,
    commitZ pk A (Some eC) (Some vC) aC us = Some Zc
    ∧ 0 ≤ Zc < N
    ∧ eqm N Zc (zpow N A eC * zpow N S vC * prodR pk a us).
Proof.
  intros HA Hus. unfold commitZ. simpl.
  rewrite (modPow_coprime N key_N_pos A eC HA). simpl.
  rewrite (modPow_coprime N key_N_pos S vC (vk_S _ _ Hk)). simpl.
  rewrite (Mod_pos N key_N_pos). simpl.
  destruct (commitZ_loop aC a us ((zpow N A eC * zpow N S vC) mod N))
    as (Zc & -> & Hr & He); [apply Z.mod_pos_bound, key_N_pos|done|].
  exists Zc. split; [done|]. split; [done|]. rewrite He. by rewrite Zmod_eqm.
Qed.

Lemma baseExp_Some v x :
  0 ≤ v < Z.of_nat (length (PublicKey.R pk)) →
  baseExp pk (v, x) = Some (zpow N (baseAt pk v) x).
Proof.
  intros Hv. unfold baseExp. simpl. rewrite index_baseAt by done. simpl.
  apply Exp_coprime; [apply key_N_pos|apply baseAt_coprime].
Qed.

Lemma foldlM_baseExp b f l :
  (∀ v, v ∈ l → 0 ≤ v < Z.of_nat (length (PublicKey.R pk))) →
  foldlM (mulStep (baseExp pk)) b (entries f l) = Some (b * prodR pk f l).
Proof.
  revert b. induction l as [|v l IH]; intros b Hl.
  - simpl. by rewrite Z.mul_1_r.
  - unfold entries. rewrite fmap_cons, foldlM_mulStep_cons.
    rewrite baseExp_Some by (apply Hl; left).
    fold (entries f l). rewrite IH by (intros w Hw; apply Hl; by right).
    simpl. by rewrite Z.mul_assoc.
Qed.

Lemma Lsh_Le : Big.Lsh 1 (Uint.sub (Le (PublicKey.Params pk)) 1)
               = 2 ^ (Z.of_N (Le (PublicKey.Params pk)) - 1).
Proof.
  pose proof (vk_Le _ _ Hk) as HLe.
  rewrite Uint_sub_small by lia. rewrite Lsh_1. f_equal. lia.
Qed.

Lemma zpow_neg_pow x c : 0 ≤ c → eqm N (zpow N x (- c)) (Z.invmod x N ^ c).
Proof.
  intros Hc. destruct (decide (c = 0)) as [->|Hne].
  - simpl. rewrite zpow_0. by rewrite Z.pow_0_r.
  - rewrite zpow_neg by lia. rewrite Zmod_eqm. by rewrite Z.opp_involutive.
Qed.

Lemma invmod_eqm x y : eqm N x y → Z.invmod x N = Z.invmod y N.
Proof.
  rewrite eqm_eq. intros H. rewrite <- (Z.invmod_mod_l x), <- (Z.invmod_mod_l y).
  by rewrite H.
Qed.

End Algebra.

(** ** The verifier reconstructs the commitment of the prover *)

Lemma reconstructZ_unfold ds rs p pk :
  ProofD.reconstructZ_enum ds rs p pk =
  (numerator ← Big.Exp (ProofD.A p) (Big.Lsh 1 (Uint.sub (Le (PublicKey.Params pk)) 1))
                 (PublicKey.N pk);
   numerator ← foldlM (mulStep (baseExp pk)) numerator ds;
   known ← Big.ModInverse numerator (PublicKey.N pk);
   knownC ← modPow (PublicKey.Z_ pk * known) (- ProofD.c p) (PublicKey.N pk);
   Ae ← modPow (ProofD.A p) (ProofD.eResponse p) (PublicKey.N pk);
   Sv ← modPow (PublicKey.S pk) (ProofD.vResponse p) (PublicKey.N pk);
   Rs ← foldlM (mulStep (basePow pk)) 1 rs;
   Big.Mod (knownC * Ae * Rs * Sv) (PublicKey.N pk)).
Proof.
  unfold ProofD.reconstructZ_enum.
  destruct (Big.Exp _ _ _) as [n0|]; simpl; [|done].
  rewrite (foldlM_ext _ (mulStep (baseExp pk)) ds).
  2:{ intros b [i a]. unfold mulStep, baseExp. simpl.
      destruct (index _ _) as [Ri|]; simpl; [|done]. by destruct (Big.Exp _ _ _). }
  destruct (foldlM _ _ ds) as [num|]; simpl; [|done].
  destruct (Big.ModInverse _ _) as [k|]; simpl; [|done].
  destruct (modPow _ _ _) as [kc|]; simpl; [|done].
  destruct (modPow _ _ _) as [ae|]; simpl; [|done].
  destruct (modPow _ _ _) as [sv|]; simpl; [|done].
  rewrite (foldlM_ext _ (mulStep (basePow pk)) rs); [done|].
  intros b [i a]. unfold mulStep, basePow. simpl.
  destruct (index _ _) as [Ri|]; simpl; [|done]. by destruct (modPow _ _ _).
Qed.

Section Reconstruct.
Context (pk : PublicKey.t) (L : nat) (Hk : validKey pk L).

#[local] Abbreviation N := (PublicKey.N pk).
#[local] Abbreviation S := (PublicKey.S pk).

Lemma reconstructZ_Some (p : ProofD.t) (A E V eC vC c : Z) (a m : Z → Z) (us dsU : list Z) :
  Z.coprime A N → 0 ≤ c →
  (∀ v, v ∈ us → 0 ≤ v < Z.of_nat (length (PublicKey.R pk))) →
  (∀ v, v ∈ dsU → 0 ≤ v < Z.of_nat (length (PublicKey.R pk))) →
  ProofD.c p = c → ProofD.A p = A →
  ProofD.eResponse p = eC + c * (E - 2 ^ (Z.of_N (Le (PublicKey.Params pk)) - 1)) →
  ProofD.vResponse p = vC + c * V →
  map_to_list (ProofD.aResponses p) ≡ₚ entries (λ v, a v + c * m v) us →
  map_to_list (ProofD.aDisclosed p) ≡ₚ entries m dsU →
  eqm N (zpow N A E * zpow N S V * (prodR pk m us * prodR pk m dsU)) (PublicKey.Z_ pk) →
  ∃ z, ProofD.reconstructZ p pk = Some z
       ∧ 0 ≤ z < N
       ∧ eqm N z (zpow N A eC * zpow N S vC * prodR pk a us).
Proof.
  intros HA Hc Hus Hds Hpc HpA HpE HpV Hresp Hdis HCL.
  pose proof (key_N_pos pk L Hk) as HN.
  pose proof (vk_S _ _ Hk) as HS.
  set (k := 2 ^ (Z.of_N (Le (PublicKey.Params pk)) - 1)) in *.
  set (num := zpow N A k * prodR pk m dsU).
  assert (Hnum : Z.coprime num N).
  { apply Z.coprime_mul_l; [by apply coprime_zpow|by eapply prodR_coprime]. }
  set (U := zpow N A (E - k) * zpow N S V * prodR pk m us).
  assert (HU : Z.coprime U N).
  { repeat apply Z.coprime_mul_l; try by apply coprime_zpow. by eapply prodR_coprime. }
  assert (Hknown : eqm N (PublicKey.Z_ pk * Z.invmod num N) U).
  { rewrite <- HCL. replace E with ((E - k) + k) at 1 by lia.
    rewrite zpow_add by done.
    transitivity (U * (num * Z.invmod num N)).
    - apply eqm_eq. f_equal. unfold U, num. ring.
    - rewrite invmod_mul_r by done. by rewrite Z.mul_1_r. }
  assert (Hkc : Z.coprime (PublicKey.Z_ pk * Z.invmod num N) N).
  { eapply coprime_eqm; [symmetry; exact Hknown|done]. }
  unfold ProofD.reconstructZ. rewrite reconstructZ_unfold.
  rewrite Hpc, HpA, HpE, HpV. rewrite (Lsh_Le pk L Hk). fold k.
  rewrite (Exp_coprime N HN A k HA). simpl.
  rewrite (foldlM_mulStep_perm _ _ _ Hdis).
  rewrite (foldlM_baseExp pk L Hk) by done. simpl. fold num.
  rewrite (ModInverse_coprime N HN num Hnum). simpl.
  rewrite (modPow_coprime N HN _ (- c) Hkc). simpl.
  rewrite (modPow_coprime N HN A _ HA). simpl.
  rewrite (modPow_coprime N HN S _ HS). simpl.
  rewrite (foldlM_mulStep_perm _ _ _ Hresp).
  rewrite (foldlM_basePow pk L Hk) by done. simpl.
  rewrite (Mod_pos N HN). eexists. split; [done|].
  split; [by apply Z.mod_pos_bound|].
  rewrite Zmod_eqm.
  rewrite (zpow_eqm_base N _ U (- c) Hknown).
  rewrite (zpow_neg_pow pk U c Hc).
  rewrite (zpow_response pk A eC (E - k) c HA Hc).
  rewrite (zpow_response pk S vC V c HS Hc).
  rewrite (prodR_response pk L Hk a m c us Hc).
  transitivity (zpow N A eC * zpow N S vC * prodR pk a us * (Z.invmod U N * U) ^ c).
  - apply eqm_eq. f_equal. unfold U. rewrite !Z.pow_mul_l. ring.
  - rewrite invmod_mul_l by done. rewrite Z.pow_1_l by done. by rewrite Z.mul_1_r.
Qed.

End Reconstruct.

(** ** The honest prover *)

Lemma map_to_list_entries (mp : gmap Z Z) (f : Z → Z) (l : list Z) :
  NoDup l →
  (∀ v, mp !! v = if decide (v ∈ l) then Some (f v) else None) →
  map_to_list mp ≡ₚ entries f l.
Proof.
  intros Hnd Hmp. apply NoDup_Permutation.
  - apply NoDup_map_to_list.
  - unfold entries. apply NoDup_fmap_2; [|done]. by intros v w [= ->].
  - intros [i x]. rewrite elem_of_map_to_list, Hmp. unfold entries.
    rewrite list_elem_of_fmap. split.
    + destruct (decide (i ∈ l)) as [Hi|Hi]; [|done]. intros [= <-]. by exists i.
    + intros (v & [= -> ->] & Hv). by rewrite decide_True.
Qed.

Lemma seqZ_partition (L : nat) (us ds : list Z) :
  NoDup us →
  (∀ v, v ∈ ds → 0 ≤ v < Z.of_nat L) →
  (∀ v, v ∈ us ↔ 0 ≤ v < Z.of_nat L ∧ v ∉ ds) →
  seqZ 0 (Z.of_nat L) ≡ₚ us ++ remove_dups ds.
Proof.
  intros Hnd Hds Hus. apply NoDup_Permutation.
  - apply NoDup_seqZ.
  - apply NoDup_app. split; [done|]. split; [|apply NoDup_remove_dups].
    intros v Hv Hv'. rewrite elem_of_remove_dups in Hv'. apply Hus in Hv as [_ Hv]. done.
  - intros v. rewrite elem_of_seqZ, elem_of_app, elem_of_remove_dups, Hus. split.
    + intros Hv. destruct (decide (v ∈ ds)); [by right|left]. split; [lia|done].
    + intros [[Hv _]|Hv]; [lia|]. apply Hds in Hv. lia.
Qed.

Section Honest.
Context (pk : PublicKey.t) (L : nat) (Hk : validKey pk L).

#[local] Abbreviation N := (PublicKey.N pk).
#[local] Abbreviation S := (PublicKey.S pk).

Lemma CLVerify_eqm sig attributes :
  length attributes = L →
  Z.coprime (CLSignature.A sig) N →
  CLVerify pk sig attributes = Some true
  ↔ eqm N (zpow N (CLSignature.A sig) (CLSignature.E sig)
           * zpow N S (CLSignature.V sig)
           * prodR pk (attrAt attributes) (seqZ 0 (Z.of_nat L)))
          (PublicKey.Z_ pk).
Proof.
  intros HL HA. pose proof (key_N_pos pk L Hk) as HN.
  unfold CLVerify. rewrite HL.
  rewrite (modPow_coprime N HN _ _ HA). simpl.
  rewrite (modPow_coprime N HN _ _ (vk_S _ _ Hk)). simpl.
  rewrite (foldlM_basePow pk L Hk).
  2:{ intros v Hv. apply elem_of_seqZ in Hv. pose proof (vk_R_length _ _ Hk). lia. }
  simpl. rewrite !(Mod_pos N HN). simpl. rewrite Z.mul_1_l, eqm_eq. split.
  - intros [= H]. by apply Z.eqb_eq in H.
  - intros H. f_equal. by apply Z.eqb_eq.
Qed.

(** Randomizing a valid signature gives a valid signature. *)
Lemma Randomize_valid {St} {rnd : RandomBigInt St} sig attributes st :
  randomWorks rnd → length attributes = L →
  validSignature pk sig attributes →
  ∃ sig' st',
    CLSignature.Randomize sig pk st = Some (sig', st')
    ∧ validSignature pk sig' attributes
    ∧ CLSignature.E sig' = CLSignature.E sig.
Proof.
  intros Hrnd HL [HA HE HCL]. pose proof (key_N_pos pk L Hk) as HN.
  pose proof (vk_S _ _ Hk) as HS.
  unfold CLSignature.Randomize, randomBigInt.
  destruct (Hrnd (Uint.sub (Lv (PublicKey.Params pk)) (Ln (PublicKey.Params pk))) st)
    as (r & Hr & Hr0).
  destruct (rnd _ st) as [[r' e] st']. simpl in Hr. injection Hr as -> ->. simpl.
  rewrite (Exp_coprime N HN S r HS). simpl. rewrite (Mod_pos N HN). simpl.
  set (sig' := {| CLSignature.A := (CLSignature.A sig * zpow N S r) mod N;
                  CLSignature.E := CLSignature.E sig;
                  CLSignature.V := CLSignature.V sig - CLSignature.E sig * r |}).
  exists sig', st'. split; [done|]. split; [|done].
  assert (HA' : Z.coprime ((CLSignature.A sig * zpow N S r) mod N) N).
  { apply Z.coprime_mod_l_iff, Z.coprime_mul_l; [done|by apply coprime_zpow]. }
  assert (HE0 : 0 ≤ CLSignature.E sig).
  { etrans; [|exact HE]. apply Z.pow_nonneg. lia. }
  split; [done|done|].
  apply (CLVerify_eqm sig' attributes HL HA'). apply (CLVerify_eqm sig attributes HL HA) in HCL.
  simpl.
  rewrite <- HCL.
  rewrite (zpow_eqm_base N _ (CLSignature.A sig * zpow N S r) _ (Zmod_eqm N _)).
  rewrite !(zpow_nonneg N _ (CLSignature.E sig)) by done. rewrite !Zmod_eqm.
  rewrite Z.pow_mul_l.
  rewrite <- (zpow_mul_nonneg N S r (CLSignature.E sig) HS HE0).
  replace (CLSignature.V sig - CLSignature.E sig * r)
    with (- (CLSignature.E sig * r) + CLSignature.V sig) by lia.
  rewrite (zpow_add N S (- (CLSignature.E sig * r))) by done.
  transitivity (CLSignature.A sig ^ CLSignature.E sig
                * (zpow N S (CLSignature.E sig * r + - (CLSignature.E sig * r))
                   * zpow N S (CLSignature.V sig))
                * prodR pk (attrAt attributes) (seqZ 0 (Z.of_nat L))).
  - rewrite (zpow_add N S (CLSignature.E sig * r)) by done. apply eqm_eq. f_equal. ring.
  - rewrite Z.add_opp_diag_r, zpow_0. apply eqm_eq. f_equal. ring.
Qed.

End Honest.

Lemma drawRandomizers_works {St} {rnd : RandomBigInt St} bits vs m st :
  randomWorks rnd →
  ∀ v, v ∈ vs →
    ∃ a, mapGet (drawRandomizers bits vs m st).1 v = Some a ∧ 0 ≤ a < 2 ^ Z.of_N bits.
Proof.
  intros Hrnd. revert m st.
  assert (Hkeep : ∀ vs m st v a, v ∉ vs → mapGet m v = Some a →
            mapGet (drawRandomizers bits vs m st).1 v = Some a).
  { clear vs. induction vs as [|w vs IH]; intros m st v a Hv Hm; simpl; [done|].
    unfold randomBigInt. destruct (rnd bits st) as [[r e] st'].
    apply IH; [by intros ?; apply Hv; right|].
    unfold mapGet. rewrite lookup_insert_ne; [done|]. intros ->. apply Hv. left. }
  induction vs as [|w vs IH]; intros m st v Hv; [by apply elem_of_nil in Hv|].
  simpl. unfold randomBigInt. destruct (Hrnd bits st) as (r & Hr & Hr0).
  destruct (rnd bits st) as [[r' e] st']. simpl in Hr. injection Hr as -> ->.
  destruct (decide (v ∈ vs)) as [Hin|Hnin]; [by apply IH|].
  apply elem_of_cons in Hv as [->|Hv]; [|done].
  exists r. split; [|done]. apply Hkeep; [done|].
  unfold mapGet. by rewrite lookup_insert_eq.
Qed.

Lemma response_in_range (bits Lh Lm' : N) (r c m : Z) :
  (Lh + Lm' ≤ bits)%N →
  0 ≤ r < 2 ^ Z.of_N bits → 0 ≤ c < 2 ^ Z.of_N Lh → 0 ≤ m < 2 ^ Z.of_N Lm' →
  - (2 ^ (Z.of_N bits + 1) - 1) ≤ r + c * m ≤ 2 ^ (Z.of_N bits + 1) - 1.
Proof.
  intros Hb Hr Hc Hm.
  assert (Hcm : c * m < 2 ^ Z.of_N bits).
  { apply Z.lt_le_trans with (2 ^ (Z.of_N Lh + Z.of_N Lm')).
    - rewrite Z.pow_add_r by lia. nia.
    - apply Z.pow_le_mono_r; lia. }
  rewrite Z.pow_add_r, Z.pow_1_r by lia. nia.
Qed.

Lemma eResponse_in_range (bits Lh : N) (r c e : Z) :
  0 ≤ r < 2 ^ Z.of_N bits → 0 ≤ c < 2 ^ Z.of_N Lh → 0 ≤ e →
  2 ^ Z.of_N Lh * e ≤ 2 ^ Z.of_N bits →
  - (2 ^ (Z.of_N bits + 1) - 1) ≤ r + c * e ≤ 2 ^ (Z.of_N bits + 1) - 1.
Proof.
  intros Hr Hc He Hb. rewrite Z.pow_add_r, Z.pow_1_r by lia. nia.
Qed.

(** ** A response to any challenge reconstructs the commitment *)

Section Core.
Context (pk : PublicKey.t) (attributes : list Z).
Context (Hk : validKey pk (length attributes)).
Context (sig : CLSignature.t) (Hsig : validSignature pk sig attributes).
Context (ds us : list Z).
Context (Hus : getUndisclosedAttributes ds (length attributes) = Some us).
Context (eC vC : Z) (aC : gmap Z (option Z)).
Context (HaC : ∀ v, v ∈ us → is_Some (mapGet aC v)).

#[local] Abbreviation N := (PublicKey.N pk).
#[local] Abbreviation randomizerAt := (λ v, default 0 (mapGet aC v)).

Lemma undisclosed_in_range v :
  v ∈ us → 0 ≤ v < Z.of_nat (length attributes)
           ∧ 0 ≤ v < Z.of_nat (length (PublicKey.R pk)).
Proof.
  intros Hv. apply getUndisclosedAttributes_Some in Hus as (_ & _ & Hel).
  apply Hel in Hv as [Hv _]. pose proof (vk_R_length _ _ Hk). lia.
Qed.

Lemma disclosed_in_range v :
  v ∈ ds → 0 ≤ v < Z.of_nat (length attributes)
           ∧ 0 ≤ v < Z.of_nat (length (PublicKey.R pk)).
Proof.
  intros Hv. apply getUndisclosedAttributes_Some in Hus as (_ & Hr & _).
  apply Hr in Hv. pose proof (vk_R_length _ _ Hk). lia.
Qed.

Lemma index_attrAt v :
  0 ≤ v < Z.of_nat (length attributes) → index attributes v = Some (attrAt attributes v).
Proof.
  intros Hv. destruct (proj2 (index_is_Some attributes v) Hv) as [a Ha].
  unfold attrAt. by rewrite Ha.
Qed.

Lemma attrResponse_Some c v :
  v ∈ us →
  attrResponse attributes aC c v = Some (randomizerAt v + c * attrAt attributes v).
Proof.
  intros Hv. unfold attrResponse.
  rewrite index_attrAt by by apply undisclosed_in_range.
  destruct (HaC v Hv) as [r Hr]. rewrite Hr. done.
Qed.

Lemma honest_response (c : Z) :
  0 ≤ c →
  ∃ Zc p,
    commitZ pk (CLSignature.A sig) (Some eC) (Some vC) aC us = Some Zc
    ∧ respond pk sig attributes (Some eC) (Some vC) aC ds us c = Some p
    ∧ ProofD.reconstructZ p pk = Some Zc
    ∧ ProofD.c p = c ∧ ProofD.A p = CLSignature.A sig
    ∧ ProofD.eResponse p
      = eC + c * (CLSignature.E sig - 2 ^ (Z.of_N (Le (PublicKey.Params pk)) - 1))
    ∧ (∀ w, ProofD.aResponses p !! w
            = if decide (w ∈ us)
              then Some (randomizerAt w + c * attrAt attributes w) else None).
Proof.
  intros Hc. destruct Hsig as [HA HE HCL].
  pose proof (getUndisclosedAttributes_Some _ _ _ Hus) as (Hnd & Hrange & Hel).
  destruct (commitZ_Some pk _ Hk (CLSignature.A sig) eC vC aC randomizerAt us HA)
    as (Zc & HZc & HZr & HZe).
  { intros v Hv. split; [by apply undisclosed_in_range|].
    destruct (HaC v Hv) as [r Hr]. by rewrite Hr. }
  destruct (respond_is_Some pk sig attributes eC vC aC ds us c) as [p Hp].
  { intros w Hw. by rewrite attrResponse_Some. }
  { intros w Hw. apply index_is_Some. by apply disclosed_in_range. }
  pose proof (respond_Some _ _ _ _ _ _ _ _ _ _ Hp)
    as (e & v & [= <-] & [= <-] & Hpc & HpA & HpE & HpV & Hr & Hd & _ & _).
  rewrite (Lsh_Le pk _ Hk) in HpE.
  assert (Hr' : ∀ w, ProofD.aResponses p !! w
                     = if decide (w ∈ us)
                       then Some (randomizerAt w + c * attrAt attributes w) else None).
  { intros w. rewrite Hr. destruct (decide (w ∈ us)); [|done].
    by apply attrResponse_Some. }
  assert (Hd' : ∀ w, ProofD.aDisclosed p !! w
                     = if decide (w ∈ remove_dups ds)
                       then Some (attrAt attributes w) else None).
  { intros w. rewrite Hd. destruct (decide (w ∈ ds)) as [Hw|Hw].
    - rewrite decide_True by by rewrite elem_of_remove_dups.
      apply index_attrAt. by apply disclosed_in_range.
    - rewrite decide_False; [done|]. by rewrite elem_of_remove_dups. }
  destruct (reconstructZ_Some pk _ Hk p (CLSignature.A sig) (CLSignature.E sig)
              (CLSignature.V sig) eC vC c randomizerAt (attrAt attributes) us
              (remove_dups ds)) as (z & Hz & Hzr & Hze); try done.
  - intros w Hw. by apply undisclosed_in_range.
  - intros w Hw. rewrite elem_of_remove_dups in Hw. by apply disclosed_in_range.
  - by apply map_to_list_entries.
  - apply map_to_list_entries; [apply NoDup_remove_dups|done].
  - rewrite <- (prodR_app pk).
    rewrite <- (prodR_perm pk _ _ _ (seqZ_partition _ us ds Hnd Hrange Hel)).
    by apply (CLVerify_eqm pk _ Hk sig attributes eq_refl HA).
  - exists Zc, p. split; [done|]. split; [done|]. split; [|done].
    rewrite Hz. f_equal. apply (eqm_range N); [done..|]. by rewrite Hze, HZe.
Qed.

End Core.

#[local] Arguments respond : simpl never.
#[local] Arguments commitZ : simpl never.

Lemma ProofD_Verify_accepts {hash : HashCommit} p pk context nonce z :
  ProofD.correctResponseSizes p pk = true →
  ProofD.reconstructZ p pk = Some z →
  hashCommit [context; ProofD.A p; z; nonce] = ProofD.c p →
  ProofD.Verify p pk context nonce = Some true.
Proof.
  intros Hs Hz Hc. unfold ProofD.Verify, ProofD.ChallengeContribution. rewrite Hz. simpl.
  unfold ProofD.VerifyWithChallenge, createChallenge. rewrite Hs. simpl.
  f_equal. apply Z.eqb_eq. by rewrite Hc.
Qed.

(** The responses of an honest prover are within the ranges of §4.3. *)
Lemma honest_sizes (Lh : N) pk attributes (E eC c : Z) (a : Z → Z) (us : list Z) p :
  validKey pk (length attributes) →
  Forall (λ m, 0 ≤ m < 2 ^ Z.of_N (Lm (PublicKey.Params pk))) attributes →
  (Lh + Lm (PublicKey.Params pk) ≤ LmCommit (PublicKey.Params pk))%N →
  2 ^ (Z.of_N (Le (PublicKey.Params pk)) - 1) ≤ E →
  2 ^ Z.of_N Lh * (E - 2 ^ (Z.of_N (Le (PublicKey.Params pk)) - 1))
    ≤ 2 ^ Z.of_N (LeCommit (PublicKey.Params pk)) →
  0 ≤ c < 2 ^ Z.of_N Lh →
  0 ≤ eC < 2 ^ Z.of_N (LeCommit (PublicKey.Params pk)) →
  (∀ v, v ∈ us → 0 ≤ v < Z.of_nat (length attributes)
                 ∧ 0 ≤ a v < 2 ^ Z.of_N (LmCommit (PublicKey.Params pk))) →
  ProofD.eResponse p = eC + c * (E - 2 ^ (Z.of_N (Le (PublicKey.Params pk)) - 1)) →
  (∀ w, ProofD.aResponses p !! w
        = if decide (w ∈ us) then Some (a w + c * attrAt attributes w) else None) →
  responseSizesInRange p pk ∧ ProofD.correctResponseSizes p pk = true.
Proof.
  intros Hk Hattrs HLm HE HEhi Hc HeC Hus HpE Hr.
  assert (Hin : responseSizesInRange p pk).
  { split.
    - intros i x Hix. rewrite Hr in Hix. destruct (decide (i ∈ us)) as [Hi|]; [|done].
      injection Hix as <-. destruct (Hus i Hi) as [Hi' Ha].
      apply (response_in_range _ Lh (Lm (PublicKey.Params pk))); [done..|].
      destruct (proj2 (index_is_Some attributes i) Hi') as [m Hm].
      unfold attrAt. rewrite Hm. simpl. unfold index in Hm.
      destruct (i <? 0); [done|].
      by apply (proj1 (Forall_lookup _ _) Hattrs _ _ Hm).
    - rewrite HpE. apply (eResponse_in_range _ Lh); [done|done|lia|done]. }
  split; [done|].
  apply correctResponseSizes_true; [apply (vk_LmCommit _ _ Hk)|apply (vk_LeCommit _ _ Hk)|done].
Qed.

(** C1. For a valid credential (a valid key, a signature that satisfies
    the CL equation on the attributes, attributes of [Lm] bits), a disclosed
    list of indices of the credential that does not contain 0, and every
    context and nonce, [CreateDisclosureProof] returns a proof, and
    [ProofD.Verify] accepts it: the reconstructed [Z] is the commitment [Z]
    of the prover, the rehashed challenge is the challenge [c] of the proof,
    and the responses are within their ranges. The random source works and
    the hash has [Lh] bits. *)
Theorem CreateDisclosureProof_verifies {hash : HashCommit} {St} {rnd : RandomBigInt St}
    (Lh : N) (ic : IdemixCredential.t) (disclosed : list Z) (context nonce : Z) (st : St) :
  validCredential Lh ic → hashBound hash Lh → randomWorks rnd →
  0 ∉ disclosed →
  (∀ v, v ∈ disclosed → 0 ≤ v < Z.of_nat (length (IdemixCredential.Attributes ic))) →
  ∃ us randSig eCommit vCommit aCommits Zc st' p,
    CreateDisclosureProof_commit ic disclosed st
      = Some (us, randSig, eCommit, vCommit, aCommits, Zc, st')
    ∧ CreateDisclosureProof ic disclosed context nonce st = Some (p, st')
    ∧ ProofD.reconstructZ p (IdemixCredential.Pk ic) = Some Zc
    ∧ hashCommit [context; ProofD.A p; Zc; nonce] = ProofD.c p
    ∧ responseSizesInRange p (IdemixCredential.Pk ic)
    ∧ ProofD.Verify p (IdemixCredential.Pk ic) context nonce = Some true.
Proof.
  intros [Hk Hsig Hattrs HEhi HLm] Hhash Hrnd _ Hds.
  set (pk := IdemixCredential.Pk ic) in *.
  set (attributes := IdemixCredential.Attributes ic) in *.
  destruct (getUndisclosedAttributes_is_Some _ _ Hds) as [us Hus].
  destruct (Randomize_valid pk _ Hk (IdemixCredential.Signature ic) attributes st
              Hrnd eq_refl Hsig) as (sig' & st1 & HR & Hsig' & HE').
  unfold CreateDisclosureProof, CreateDisclosureProof_commit.
  fold pk attributes. rewrite Hus, HR. simpl. unfold randomBigInt.
  destruct (Hrnd (LeCommit (PublicKey.Params pk)) st1) as (eC & HeC & HeC0).
  destruct (rnd (LeCommit _) st1) as [[? ?] st2]. simpl in HeC. injection HeC as -> ->.
  destruct (Hrnd (LvCommit (PublicKey.Params pk)) st2) as (vC & HvC & HvC0).
  destruct (rnd (LvCommit _) st2) as [[? ?] st3]. simpl in HvC. injection HvC as -> ->.
  pose proof (drawRandomizers_works (LmCommit (PublicKey.Params pk)) us ∅ st3 Hrnd) as HaC.
  destruct (drawRandomizers _ us ∅ st3) as [aC st4]. simpl in HaC.
  assert (HaC' : ∀ v, v ∈ us → is_Some (mapGet aC v)).
  { intros v Hv. destruct (HaC v Hv) as (a & -> & _). done. }
  assert (Hzero : ∀ Zc, 0 ≤ hashCommit [context; CLSignature.A sig'; Zc; nonce]
                        < 2 ^ Z.of_N Lh) by (intros; apply Hhash).
  destruct (commitZ pk (CLSignature.A sig') (Some eC) (Some vC) aC us) as [Zc|] eqn:HZc.
  2:{ destruct (honest_response pk attributes Hk sig' Hsig' disclosed us Hus eC vC aC HaC'
                  0 ltac:(done)) as (Zc & ? & HZc' & _). congruence. }
  set (c := hashCommit [context; CLSignature.A sig'; Zc; nonce]).
  destruct (honest_response pk attributes Hk sig' Hsig' disclosed us Hus eC vC aC HaC'
              c (proj1 (Hzero Zc)))
    as (Zc' & p & HZc' & Hp & Hz & Hpc & HpA & HpE & Hr).
  assert (Zc' = Zc) as -> by congruence.
  destruct (honest_sizes Lh pk attributes (CLSignature.E sig') eC c
              (λ v, default 0 (mapGet aC v)) us p) as [Hin Hsz]; try done.
  - destruct Hsig' as [_ HE _]. done.
  - by rewrite HE'.
  - apply Hzero.
  - intros v Hv. split.
    + by eapply undisclosed_in_range.
    + destruct (HaC v Hv) as (a & -> & Ha). done.
  - exists us, sig', (Some eC), (Some vC), aC, Zc, st4, p.
    split; [done|]. split; [simpl; fold c; by rewrite Hp|]. split; [done|].
    assert (Hc : hashCommit [context; ProofD.A p; Zc; nonce] = ProofD.c p).
    { by rewrite HpA, Hpc. }
    split; [done|]. split; [done|]. by eapply ProofD_Verify_accepts.
Qed.

(** ** Bound proof lists *)

Lemma challengeContributions_from_map (l : list nat) (Pf : nat → Proof) (V : nat → list Z)
    publicKeys i :
  (∀ j a, l !! j = Some a →
     ∃ pk, publicKeys !! (i + j)%nat = Some pk
           ∧ ChallengeContribution (Pf a) pk = Some (V a)) →
  ProofList.challengeContributions_from i (Pf <$> l) publicKeys = Some (l ≫= V).
Proof.
  revert i. induction l as [|a l IH]; intros i Hl; [done|].
  rewrite fmap_cons. cbn [ProofList.challengeContributions_from].
  destruct (Hl 0%nat a eq_refl) as (pk & Hpk & Hc). rewrite Nat.add_0_r in Hpk.
  rewrite Hpk. simpl. rewrite Hc. simpl. rewrite IH; [done|].
  intros j b Hj. replace (Datatypes.S i + j)%nat with (i + Datatypes.S j)%nat by lia.
  by apply Hl.
Qed.

Lemma verifyBound_from_map (l : list nat) (Pf : nat → Proof) publicKeys i r challenge :
  (∀ j a, l !! j = Some a →
     ∃ pk, publicKeys !! (i + j)%nat = Some pk
           ∧ SecretKeyResponse (Pf a) = Some r
           ∧ VerifyWithChallenge (Pf a) pk challenge = true) →
  ProofList.verifyBound_from i (Pf <$> l) publicKeys (Some r) challenge = Some true.
Proof.
  revert i. induction l as [|a l IH]; intros i Hl; [done|].
  rewrite fmap_cons. cbn [ProofList.verifyBound_from].
  destruct (Hl 0%nat a eq_refl) as (pk & Hpk & Hr & Hv). rewrite Nat.add_0_r in Hpk.
  rewrite Hr. simpl. rewrite Z.compare_refl, Hpk. simpl. rewrite Hv. simpl.
  apply IH. intros j b Hj.
  replace (Datatypes.S i + j)%nat with (i + Datatypes.S j)%nat by lia. by apply Hl.
Qed.

Lemma Commit_idem sk d values d' :
  DisclosureProofBuilder.Commit sk d = Some (values, d') →
  DisclosureProofBuilder.Commit sk d' = Some (values, d').
Proof.
  unfold DisclosureProofBuilder.Commit.
  destruct (commitZ _ _ _ _ _ _) as [z'|] eqn:Hz; simpl; [|done].
  intros [= <- <-]. simpl. rewrite insert_insert_eq. by rewrite Hz.
Qed.

Section Bound.
Context (Lh : N) (params : SystemParameters) (secret : Z).

Lemma Commit_ready sk d :
  readyBuilder Lh params secret d →
  0 ≤ sk < 2 ^ Z.of_N (LmCommit params) →
  ∃ zc d',
    DisclosureProofBuilder.Commit (Some sk) d
      = Some ([CLSignature.A (DisclosureProofBuilder.randomizedSignature d); zc], d')
    ∧ readyBuilder Lh params secret d'
    ∧ DisclosureProofBuilder.pk d' = DisclosureProofBuilder.pk d
    ∧ DisclosureProofBuilder.randomizedSignature d'
      = DisclosureProofBuilder.randomizedSignature d
    ∧ builderValues d'
      = [CLSignature.A (DisclosureProofBuilder.randomizedSignature d); zc]
    ∧ mapGet (DisclosureProofBuilder.attrRandomizers d') 0 = Some sk
    ∧ commitZ (DisclosureProofBuilder.pk d')
        (CLSignature.A (DisclosureProofBuilder.randomizedSignature d'))
        (DisclosureProofBuilder.eCommit d') (DisclosureProofBuilder.vCommit d')
        (DisclosureProofBuilder.attrRandomizers d')
        (DisclosureProofBuilder.undisclosedAttributes d') = Some zc.
Proof.
  intros [Hk Hsig Hat HE HLm Hpar Hus Hhid Hsec (e & HeC & He) [v HvC] Hrand] Hsk.
  assert (Hsk' : 0 ≤ sk < 2 ^ Z.of_N (LmCommit (PublicKey.Params (DisclosureProofBuilder.pk d)))).
  { split; [lia|]. eapply Z.lt_le_trans; [apply Hsk|]. apply Z.pow_le_mono_r; lia. }
  assert (Hrand' : ∀ w, w ∈ DisclosureProofBuilder.undisclosedAttributes d →
            ∃ a, mapGet (<[0:=Some sk]> (DisclosureProofBuilder.attrRandomizers d)) w = Some a
                 ∧ 0 ≤ a < 2 ^ Z.of_N (LmCommit (PublicKey.Params (DisclosureProofBuilder.pk d)))).
  { intros w Hw. unfold mapGet. destruct (decide (w = 0)) as [->|Hne].
    - rewrite lookup_insert_eq. by exists sk.
    - rewrite lookup_insert_ne by done. by apply Hrand. }
  unfold DisclosureProofBuilder.Commit. rewrite HeC, HvC.
  destruct (commitZ_Some (DisclosureProofBuilder.pk d) _ Hk
              (CLSignature.A (DisclosureProofBuilder.randomizedSignature d)) e v
              (<[0:=Some sk]> (DisclosureProofBuilder.attrRandomizers d))
              (λ w, default 0 (mapGet (<[0:=Some sk]> (DisclosureProofBuilder.attrRandomizers d)) w))
              (DisclosureProofBuilder.undisclosedAttributes d) (vs_A _ _ _ Hsig))
    as (zc & Hzc & _).
  { intros w Hw. split.
    - by eapply undisclosed_in_range.
    - destruct (Hrand' w Hw) as (a & -> & _). done. }
  rewrite Hzc. simpl. eexists zc, _. split; [done|].
  split; [|split; [done|split; [done|split; [done|split]]]].
  - split; simpl; try done.
    + by exists e.
  - simpl. unfold mapGet. by rewrite lookup_insert_eq.
  - simpl. done.
Qed.

Lemma commitAll_ready sk (proofBuilders : list nat)
    (heap : gmap nat DisclosureProofBuilder.t) :
  0 ≤ sk < 2 ^ Z.of_N (LmCommit params) →
  (∀ a, a ∈ proofBuilders → ∃ d, heap !! a = Some d ∧ readyBuilder Lh params secret d) →
  ∃ heap',
    commitAll (Some sk) proofBuilders heap
      = Some (proofBuilders ≫= valuesAt heap', heap')
    ∧ (∀ a, a ∈ proofBuilders →
         ∃ d values d', heap !! a = Some d
           ∧ DisclosureProofBuilder.Commit (Some sk) d = Some (values, d')
           ∧ heap' !! a = Some d')
    ∧ (∀ a, a ∉ proofBuilders → heap' !! a = heap !! a).
Proof.
  intros Hsk. revert heap.
  induction proofBuilders as [|a rest IH]; intros heap Hready.
  - exists heap. split; [done|]. split; [|done]. intros a Ha. by apply elem_of_nil in Ha.
  - destruct (Hready a) as (d & Hd & Hrd); [left|].
    destruct (Commit_ready sk d Hrd Hsk) as (zc & d1 & Hc & Hrd1 & Hpk1 & _ & Hv1 & _).
    destruct (IH (<[a:=d1]> heap)) as (heap' & Hall & Hin & Hout).
    { intros b Hb. destruct (decide (b = a)) as [->|Hne].
      - exists d1. by rewrite lookup_insert_eq.
      - rewrite lookup_insert_ne by done. apply Hready. by right. }
    assert (Ha' : heap' !! a = Some d1).
    { destruct (decide (a ∈ rest)) as [Hi|Hi].
      - destruct (Hin a Hi) as (d0 & values & d0' & Hd0 & Hc0 & Hd0').
        rewrite lookup_insert_eq in Hd0. injection Hd0 as <-.
        rewrite (Commit_idem _ _ _ _ Hc) in Hc0. by injection Hc0 as <- <-.
      - rewrite (Hout a Hi). by rewrite lookup_insert_eq. }
    exists heap'. split; [|split].
    + cbn [commitAll]. rewrite Hd. simpl.
      change (Commit (Some sk) d) with (DisclosureProofBuilder.Commit (Some sk) d).
      rewrite Hc. simpl. rewrite Hall. simpl. f_equal. f_equal.
      unfold valuesAt at 2. rewrite Ha'.
      change (default [] (builderValues <$> Some d1)) with (builderValues d1).
      by rewrite Hv1.
    + intros b Hb. destruct (decide (b = a)) as [->|Hne].
      * by eexists d, _, d1.
      * apply elem_of_cons in Hb as [->|Hb]; [done|].
        destruct (Hin b Hb) as (d0 & values & d0' & Hd0 & Hc0 & Hd0').
        rewrite lookup_insert_ne in Hd0 by done. by exists d0, values, d0'.
    + intros b Hb. rewrite not_elem_of_cons in Hb. destruct Hb as [Hne Hb].
      rewrite (Hout b Hb). by rewrite lookup_insert_ne.
Qed.

Lemma createAll_map challenge (proofBuilders : list nat)
    (heap : gmap nat DisclosureProofBuilder.t) :
  (∀ a, a ∈ proofBuilders → is_Some (heap !! a ≫= CreateProof challenge)) →
  createAll challenge proofBuilders heap = Some (proofAt heap challenge <$> proofBuilders).
Proof.
  induction proofBuilders as [|a rest IH]; intros Hall; [done|].
  cbn [createAll]. rewrite fmap_cons. destruct (Hall a) as [q Hq]; [left|].
  unfold proofAt at 1.
  destruct (heap !! a) as [d|] eqn:Hd; simpl in Hq |- *; [|done].
  rewrite Hq. simpl.
  rewrite IH; [done|]. intros b Hb. apply Hall. by right.
Qed.

End Bound.

Lemma CreateDisclosureProofBuilder_ready {St} {rnd : RandomBigInt St} (Lh : N)
    (params : SystemParameters) (secret : Z) ic disclosed st d st' :
  randomWorks rnd → validCredential Lh ic →
  0 ∉ disclosed →
  index (IdemixCredential.Attributes ic) 0 = Some secret →
  (LmCommit params ≤ LmCommit (PublicKey.Params (IdemixCredential.Pk ic)))%N →
  CreateDisclosureProofBuilder ic disclosed st = Some (d, st') →
  readyBuilder Lh params secret d.
Proof.
  intros Hrnd [Hk Hsig Hattrs HEhi HLm] Hhid Hsec Hpar.
  unfold CreateDisclosureProofBuilder.
  destruct (Randomize_valid (IdemixCredential.Pk ic) _ Hk (IdemixCredential.Signature ic)
              (IdemixCredential.Attributes ic) st Hrnd eq_refl Hsig)
    as (sig' & st1 & -> & Hsig' & HE').
  simpl. unfold randomBigInt.
  destruct (Hrnd (LeCommit (PublicKey.Params (IdemixCredential.Pk ic))) st1)
    as (eC & HeC & HeC0).
  destruct (rnd (LeCommit _) st1) as [[? ?] st2]. simpl in HeC. injection HeC as -> ->.
  destruct (Hrnd (LvCommit (PublicKey.Params (IdemixCredential.Pk ic))) st2)
    as (vC & HvC & HvC0).
  destruct (rnd (LvCommit _) st2) as [[? ?] st3]. simpl in HvC. injection HvC as -> ->.
  destruct (getUndisclosedAttributes _ _) as [us|] eqn:Hus; simpl; [|done].
  pose proof (drawRandomizers_works
                (LmCommit (PublicKey.Params (IdemixCredential.Pk ic))) us ∅ st3 Hrnd) as HaC.
  destruct (drawRandomizers _ us ∅ st3) as [aC st4]. simpl in HaC.
  intros [= <- <-]. split; simpl; try done.
  - by rewrite HE'.
  - by exists eC.
Qed.

(** C3, as the code has it. [BuildProofList] on disclosure proof builders
    that [CreateDisclosureProofBuilder] made from valid credentials which
    hold the same secret key (attribute 0) and do not disclose it, with
    parameters whose secret-key randomizer fits the keys, returns a proof
    list in which every proof has the same [SecretKeyResponse()], and
    [ProofList.Verify] with [shouldBeBound = true] accepts it against the
    public keys of the builders in the same order. The builders are
    objects on a heap and the list may name one of them more than once. *)
Theorem BuildProofList_bound {hash : HashCommit} {St} {rnd : RandomBigInt St}
    (Lh : N) (secret : Z) (params : SystemParameters) (context nonce : Z)
    (proofBuilders : list nat) (heap : gmap nat DisclosureProofBuilder.t) (st : St) :
  hashBound hash Lh → randomWorks rnd →
  (∀ a, a ∈ proofBuilders →
     ∃ d ic disclosed st0 st1,
       heap !! a = Some d
       ∧ CreateDisclosureProofBuilder ic disclosed st0 = Some (d, st1)
       ∧ validCredential Lh ic
       ∧ (0 ∉ disclosed)
       ∧ index (IdemixCredential.Attributes ic) 0 = Some secret
       ∧ (LmCommit params ≤ LmCommit (PublicKey.Params (IdemixCredential.Pk ic)))%N) →
  ∃ pl heap' st',
    BuildProofList params context nonce proofBuilders heap st = Some (pl, heap', st')
    ∧ length pl = length proofBuilders
    ∧ (∃ r, ∀ p, p ∈ pl → SecretKeyResponse p = Some r)
    ∧ ∀ publicKeys,
        Forall2 (λ a pk, keyAt heap a = Some pk) proofBuilders publicKeys →
        ProofList.Verify pl publicKeys context nonce true = Some true.
Proof.
  intros Hhash Hrnd Hmade.
  assert (Hready : ∀ a, a ∈ proofBuilders →
            ∃ d, heap !! a = Some d ∧ readyBuilder Lh params secret d).
  { intros a Ha.
    destruct (Hmade a Ha) as (d & ic & ds & st0 & st1 & Hd & Hc & Hv & Hh & Hs & Hp).
    exists d. split; [done|]. by eapply CreateDisclosureProofBuilder_ready. }
  unfold BuildProofList, randomBigInt.
  destruct (Hrnd (LmCommit params) st) as (sk & Hsk & Hsk0).
  destruct (rnd (LmCommit params) st) as [[? ?] st']. simpl in Hsk. injection Hsk as -> ->.
  destruct (commitAll_ready Lh params secret sk proofBuilders heap Hsk0 Hready)
    as (heap' & Hall & Hin & _).
  rewrite Hall. simpl.
  set (challenge := createChallenge context nonce (proofBuilders ≫= valuesAt heap')).
  assert (Hc : 0 ≤ challenge < 2 ^ Z.of_N Lh) by apply Hhash.
  assert (HF : ∀ a, a ∈ proofBuilders →
            ∃ p pk, keyAt heap a = Some pk
              ∧ heap' !! a ≫= CreateProof challenge = Some (IsProofD p)
              ∧ ChallengeContribution (IsProofD p) pk = Some (valuesAt heap' a)
              ∧ SecretKeyResponse (IsProofD p) = Some (sk + challenge * secret)
              ∧ VerifyWithChallenge (IsProofD p) pk challenge = true).
  { intros a Ha. destruct (Hin a Ha) as (d & values & d' & Hd & Hcm & Hd').
    destruct (Hready a Ha) as (d0 & Hd0 & Hrd). rewrite Hd in Hd0. injection Hd0 as <-.
    destruct (Commit_ready Lh params secret sk d Hrd Hsk0)
      as (zc & d'' & Hcm' & Hrd' & Hpk & Hsg & Hvals & Hsk' & Hzc).
    rewrite Hcm in Hcm'. injection Hcm' as -> <-.
    destruct Hrd' as [Hk Hsig Hat HE HLm Hpar Hus Hhid Hsec (e & HeC & He) [v HvC] Hrand].
    assert (HaC : ∀ w, w ∈ DisclosureProofBuilder.undisclosedAttributes d' →
              is_Some (mapGet (DisclosureProofBuilder.attrRandomizers d') w)).
    { intros w Hw. destruct (Hrand w Hw) as (x & -> & _). done. }
    destruct (honest_response _ _ Hk _ Hsig _ _ Hus e v _ HaC challenge (proj1 Hc))
      as (Zc & p & HZc & Hp & Hz & Hpc & HpA & HpE & Hr).
    rewrite HeC, HvC in Hzc. assert (Zc = zc) as -> by congruence.
    assert (H0 : 0 ∈ DisclosureProofBuilder.undisclosedAttributes d').
    { apply getUndisclosedAttributes_Some in Hus as (_ & _ & Hel). apply Hel.
      split; [|done]. by apply index_is_Some. }
    exists p, (DisclosureProofBuilder.pk d').
    split; [unfold keyAt; by rewrite Hd, Hpk|].
    split.
    { rewrite Hd'. simpl. unfold DisclosureProofBuilder.CreateProof.
      rewrite HeC, HvC, Hp. done. }
    split.
    { change (ChallengeContribution (IsProofD p) (DisclosureProofBuilder.pk d'))
        with (ProofD.ChallengeContribution p (DisclosureProofBuilder.pk d')).
      unfold ProofD.ChallengeContribution, valuesAt. rewrite Hz, Hd'.
      change (Some [ProofD.A p; zc] = Some (builderValues d')).
      by rewrite HpA, Hvals, Hsg. }
    split.
    { change (SecretKeyResponse (IsProofD p)) with (ProofD.SecretKeyResponse p).
      unfold ProofD.SecretKeyResponse. rewrite Hr, decide_True by done.
      rewrite Hsk'. simpl. unfold attrAt. by rewrite Hsec. }
    change (VerifyWithChallenge (IsProofD p) (DisclosureProofBuilder.pk d') challenge)
      with (ProofD.VerifyWithChallenge p (DisclosureProofBuilder.pk d') challenge).
    unfold ProofD.VerifyWithChallenge. rewrite Hpc, Z.eqb_refl, andb_true_r.
    destruct (honest_sizes Lh (DisclosureProofBuilder.pk d')
                (DisclosureProofBuilder.attributes d')
                (CLSignature.E (DisclosureProofBuilder.randomizedSignature d')) e challenge
                (λ w, default 0 (mapGet (DisclosureProofBuilder.attrRandomizers d') w))
                (DisclosureProofBuilder.undisclosedAttributes d') p
                Hk Hat HLm (vs_E _ _ _ Hsig) HE Hc He) as [_ Hsz]; [|done|done|done].
    intros w Hw. split; [by eapply undisclosed_in_range|].
    destruct (Hrand w Hw) as (x & -> & Hx). done. }
  rewrite (createAll_map challenge proofBuilders heap').
  2:{ intros a Ha. destruct (HF a Ha) as (p & pk & _ & -> & _). done. }
  simpl. eexists _, _, _. split; [done|]. split; [by rewrite length_fmap|].
  assert (HP : ∀ a, a ∈ proofBuilders →
            ∃ pk, keyAt heap a = Some pk
              ∧ ChallengeContribution (proofAt heap' challenge a) pk = Some (valuesAt heap' a)
              ∧ SecretKeyResponse (proofAt heap' challenge a) = Some (sk + challenge * secret)
              ∧ VerifyWithChallenge (proofAt heap' challenge a) pk challenge = true).
  { intros a Ha. destruct (HF a Ha) as (p & pk & Hpk & Hp & H1 & H2 & H3).
    exists pk. unfold proofAt. rewrite Hp. done. }
  split.
  - exists (sk + challenge * secret). intros p Hp.
    apply list_elem_of_fmap in Hp as (a & -> & Ha).
    by destruct (HP a Ha) as (pk & _ & _ & ? & _).
  - intros publicKeys Hpks. pose proof (Forall2_length _ _ _ Hpks) as Hlen.
    unfold ProofList.Verify. rewrite length_fmap.
    destruct (decide (proofBuilders = [])) as [Hnil|Hne].
    { rewrite Hnil. done. }
    assert (H0 : ∃ a0, proofBuilders !! 0%nat = Some a0).
    { destruct proofBuilders as [|a0 ?]; [done|]. by exists a0. }
    destruct H0 as [a0 Ha0].
    assert (Hnz : (length proofBuilders =? 0)%nat = false).
    { apply Nat.eqb_neq. by destruct proofBuilders. }
    rewrite Hnz, (proj2 (Nat.eqb_eq _ _) Hlen). cbn [negb].
    assert (Hlook : ∀ j a, proofBuilders !! j = Some a →
              ∃ pk, publicKeys !! (0 + j)%nat = Some pk ∧ keyAt heap a = Some pk).
    { intros j a Hj. destruct (Forall2_lookup_l _ _ _ _ _ Hpks Hj) as (pk & Hpk & Hk).
      by exists pk. }
    unfold ProofList.challengeContributions.
    rewrite (challengeContributions_from_map proofBuilders _ (valuesAt heap')).
    2:{ intros j a Hj. destruct (Hlook j a Hj) as (pk & Hpk & Hk).
        destruct (HP a) as (pk' & Hk' & Hcc & _); [by eapply list_elem_of_lookup_2|].
        exists pk. split; [done|]. by simplify_eq. }
    rewrite list_lookup_fmap, Ha0. simpl. fold challenge.
    destruct (HP a0) as (pk0 & _ & _ & Hr0 & _); [by eapply list_elem_of_lookup_2|].
    rewrite Hr0.
    apply verifyBound_from_map. intros j a Hj. destruct (Hlook j a Hj) as (pk & Hpk & Hk).
    destruct (HP a) as (pk' & Hk' & _ & Hr & Hv); [by eapply list_elem_of_lookup_2|].
    exists pk. split; [done|]. by simplify_eq.
Qed.

(** ** The theorems on the small credential *)

Ltac example_arith :=
  first [ reflexivity
        | vm_compute; reflexivity
        | unfold Uint.modulus; simpl; lia
        | vm_compute; intuition discriminate ].

Ltac example_valid :=
  repeat match goal with
         | |- validCredential _ _ => split
         | |- validKey _ _ => split
         | |- validSignature _ _ _ => split
         | |- Forall _ _ => repeat constructor
         end;
  simpl; example_arith.

Ltac example_hash :=
  intros ?; unfold Example.hash; apply Z.mod_pos_bound; lia.

Ltac example_random :=
  intros bits ?; eexists; split; [reflexivity|];
  apply Z.mod_pos_bound, Z.pow_pos_nonneg; lia.

Ltac example_elem H :=
  rewrite ?elem_of_cons, ?elem_of_nil in H;
  repeat destruct H as [H|H]; try done; subst.

Lemma CreateDisclosureProof_verifies_witness :
  ∃ us randSig eCommit vCommit aCommits Zc st' p,
    CreateDisclosureProof_commit (rnd := Example.counter) Example.cred [1] 5
      = Some (us, randSig, eCommit, vCommit, aCommits, Zc, st')
    ∧ CreateDisclosureProof (hash := Example.hash) (rnd := Example.counter)
        Example.cred [1] 11 20 5 = Some (p, st')
    ∧ ProofD.reconstructZ p Example.pk = Some Zc
    ∧ Example.hash [11; ProofD.A p; Zc; 20] = ProofD.c p
    ∧ responseSizesInRange p Example.pk
    ∧ ProofD.Verify (hash := Example.hash) p Example.pk 11 20 = Some true.
Proof.
  apply (CreateDisclosureProof_verifies (hash := Example.hash) (rnd := Example.counter)
           2 Example.cred [1] 11 20 5).
  - example_valid.
  - example_hash.
  - example_random.
  - intros H. example_elem H.
  - intros v H. example_elem H. simpl. lia.
Defined.

Lemma ProofD_Verify_iff_witness :
  (ProofD.Verify (hash := Example.hash) Example.proofC Example.pk 10 20 = Some true
   ↔ responseSizesInRange Example.proofC Example.pk
     ∧ ∃ z, ProofD.reconstructZ Example.proofC Example.pk = Some z
            ∧ Example.hash [10; ProofD.A Example.proofC; z; 20] = ProofD.c Example.proofC)
  ∧ (∀ z, ProofD.reconstructZ Example.proofC Example.pk = Some z →
          ¬ responseSizesInRange Example.proofC Example.pk →
          ProofD.Verify (hash := Example.hash) Example.proofC Example.pk 10 20 = Some false).
Proof.
  apply (ProofD_Verify_iff (hash := Example.hash) Example.proofC Example.pk 10 20);
    example_arith.
Defined.

(** Two proof builders for credentials with different secret keys: the
    proofs of [BuildProofList] have different secret-key responses, and the
    bound verification rejects the list. *)
Lemma BuildProofList_bound_counterexample :
  (r ← Example.twoBuilders Example.cred [1] Example.otherCred [] 5;
   r' ← BuildProofList (hash := Example.hash) (rnd := Example.counter)
          Example.params 10 20 [0%nat; 1%nat] r.1 r.2;
   Some (SecretKeyResponse <$> r'.1.1,
         ProofList.Verify (hash := Example.hash) r'.1.1
           [Example.pk; Example.otherPk] 10 20 true))
  = Some ([Some 8; Some 6], Some false).
Proof. vm_compute. reflexivity. Qed.

Lemma BuildProofList_bound_witness :
  ∃ pl heap' st',
    BuildProofList (hash := Example.hash) (rnd := Example.counter)
      Example.params 11 20 [0%nat; 1%nat; 0%nat] Example.heap 324769 = Some (pl, heap', st')
    ∧ length pl = 3%nat
    ∧ (∃ r, ∀ p, p ∈ pl → SecretKeyResponse p = Some r)
    ∧ ∀ publicKeys,
        Forall2 (λ a pk, keyAt Example.heap a = Some pk) [0%nat; 1%nat; 0%nat] publicKeys →
        ProofList.Verify (hash := Example.hash) pl publicKeys 11 20 true = Some true.
Proof.
  apply (BuildProofList_bound (hash := Example.hash) (rnd := Example.counter)
           2 2 Example.params 11 20 [0%nat; 1%nat; 0%nat] Example.heap 324769).
  - example_hash.
  - example_random.
  - intros a H. example_elem H.
    + eexists _, Example.cred, [1], 5, _.
      split; [vm_compute; reflexivity|]. split; [vm_compute; reflexivity|].
      split; [example_valid|]. split; [intros H; example_elem H|].
      split; [reflexivity|]. simpl. lia.
    + eexists _, Example.cred, [2], 1336, _.
      split; [vm_compute; reflexivity|]. split; [vm_compute; reflexivity|].
      split; [example_valid|]. split; [intros H; example_elem H|].
      split; [reflexivity|]. simpl. lia.
    + eexists _, Example.cred, [1], 5, _.
      split; [vm_compute; reflexivity|]. split; [vm_compute; reflexivity|].
      split; [example_valid|]. split; [intros H; example_elem H|].
      split; [reflexivity|]. simpl. lia.
Defined.

(** A disclosed list that contains index 0 is accepted: a builder and a
    proof are returned, and index 0 is among the disclosed attributes. *)
Lemma CreateDisclosureProofBuilder_indices_counterexample :
  (r ← CreateDisclosureProofBuilder (rnd := Example.counter) Example.cred [0] 5;
   Some (DisclosureProofBuilder.disclosedAttributes r.1,
         DisclosureProofBuilder.undisclosedAttributes r.1))
  = Some ([0], [1; 2])
  ∧ (r ← CreateDisclosureProof (hash := Example.hash) (rnd := Example.counter)
           Example.cred [0] 10 20 5;
     Some (ProofD.aDisclosed r.1 !! 0)) = Some (Some 2).
Proof. split; vm_compute; reflexivity. Qed.

Lemma CreateDisclosureProofBuilder_indices_witness :
  ∃ d st',
    CreateDisclosureProofBuilder (rnd := Example.counter) Example.cred [0; 2] 5 = Some (d, st')
    ∧ DisclosureProofBuilder.disclosedAttributes d = [0; 2]
    ∧ ∀ v, v ∈ DisclosureProofBuilder.undisclosedAttributes d
           ↔ 0 ≤ v < Z.of_nat (length (IdemixCredential.Attributes Example.cred))
             ∧ v ∉ [0; 2].
Proof.
  apply (proj2 (CreateDisclosureProofBuilder_indices (hash := Example.hash)
                  (rnd := Example.counter) Example.cred [0; 2] 10 20 5)).
  - intros v H. example_elem H; simpl; lia.
  - vm_compute. eexists. reflexivity.
Defined.

(** A proof for a disclosed list that contains index 0 has no key 0 in
    [aResponses]: the secret key is in [aDisclosed]. *)
Lemma ProofD_keys_partition_counterexample :
  (r ← CreateDisclosureProof (hash := Example.hash) (rnd := Example.counter)
         Example.cred [0; 2] 10 20 5;
   Some (ProofD.aResponses r.1 !! 0, ProofD.aDisclosed r.1 !! 0))
  = Some (None, Some 2).
Proof. vm_compute. reflexivity. Qed.

Lemma ProofD_keys_partition_witness :
  wellFormedProofD Example.proofC (IdemixCredential.Attributes Example.cred) [1]
  ∧ (0 ∉ [1] → (0 < length (IdemixCredential.Attributes Example.cred))%nat →
     0 ∈ dom (ProofD.aResponses Example.proofC))
  ∧ (0 ∈ [1] → 0 ∉ dom (ProofD.aResponses Example.proofC)).
Proof.
  apply (ProofD_keys_partition (hash := Example.hash) (rnd := Example.counter)
           Example.cred [1] Example.proofC).
  left. exists 10, 20, 5, 1336. vm_compute. reflexivity.
Defined.

Lemma ProofS_Verify_iff_witness :
  (ProofS.Verify (hash := Example.hash) Example.proofS Example.pk Example.sig 10 20
     = Some true
   ↔ ProofS_accepts (hash := Example.hash) Example.proofS Example.pk Example.sig 10 20)
  ∧ (∀ Q ACommit,
       isPowMod (CLSignature.A Example.sig) (CLSignature.E Example.sig)
         (PublicKey.N Example.pk) Q →
       isPowMod (CLSignature.A Example.sig)
         (ProofS.c Example.proofS + ProofS.eResponse Example.proofS * CLSignature.E Example.sig)
         (PublicKey.N Example.pk) ACommit →
       ProofS.Verify (hash := Example.hash) Example.proofS Example.pk Example.sig 10 20
       = Some (bool_decide
                 (ProofS.c Example.proofS
                  = Example.hash [10; Q; CLSignature.A Example.sig; 20; ACommit]))).
Proof.
  apply (ProofS_Verify_iff (hash := Example.hash) Example.proofS Example.pk Example.sig 10 20).
  simpl. lia.
Defined.

Lemma ProofList_Verify_unbound_iff_witness :
  ProofList.Verify (hash := Example.hash) [IsProofD Example.proofC] [Example.pk] 10 20 false
    = Some true
  ↔ ∀ i p pk, [IsProofD Example.proofC] !! i = Some p → [Example.pk] !! i = Some pk →
      Proof_Verify (hash := Example.hash) p pk 10 20 = Some true.
Proof.
  apply (ProofList_Verify_unbound_iff (hash := Example.hash)
           [IsProofD Example.proofC] [Example.pk] 10 20).
  - discriminate.
  - reflexivity.
Defined.

(** The random source fails on every draw after the randomization of the
    signature: a builder is returned all the same, with nil randomizers;
    and [BuildProofList] returns a proof list when the draw of the shared
    randomizer reports an error next to a zero. *)
Lemma randomBigInt_error_dropped_counterexample :
  Example.stream 4%N [] = ((None, true), [])
  ∧ (r ← CreateDisclosureProofBuilder (rnd := Example.stream) Example.cred [1]
           [(Some 1, false)];
     Some (DisclosureProofBuilder.eCommit r.1, DisclosureProofBuilder.vCommit r.1,
           DisclosureProofBuilder.attrRandomizers r.1 !! 0))
    = Some (None, None, Some None)
  ∧ (r ← BuildProofList (hash := Example.hash) (rnd := Example.stream)
           Example.params 10 20 [0%nat; 1%nat] Example.heap [(Some 0, true)];
     Some (length r.1.1)) = Some 2%nat.
Proof. repeat split; vm_compute; reflexivity. Qed.

Lemma randomBigInt_error_dropped_witness :
  ∃ d st',
    CreateDisclosureProofBuilder (rnd := withErrors Example.stream (λ _ _, true))
      Example.cred [1] [(Some 1, false)] = Some (d, st')
    ∧ DisclosureProofBuilder.eCommit d = None
    ∧ DisclosureProofBuilder.vCommit d = None.
Proof.
  apply (proj2 (proj2 (proj2
           (randomBigInt_error_dropped (hash := Example.hash) Example.stream (λ _ _, true))))
           Example.cred [1] [(Some 1, false)]
           {| CLSignature.A := 8; CLSignature.E := 5; CLSignature.V := 2 |} []).
  - vm_compute. reflexivity.
  - intros v H. example_elem H. simpl. lia.
Defined.

Lemma reconstructZ_enum_indep_witness :
  ProofD.reconstructZ_enum [(1, 3)] [(0, 5); (2, 31)] Example.proofA Example.pk
    = ProofD.reconstructZ_enum [(1, 3)] [(2, 31); (0, 5)] Example.proofA Example.pk
  ∧ ProofD.reconstructZ_enum [(1, 3)] [(0, 5); (2, 31)] Example.proofA Example.pk
    = ProofD.reconstructZ Example.proofA Example.pk
  ∧ ProofD.ChallengeContribution_enum [(1, 3)] [(0, 5); (2, 31)] Example.proofA Example.pk
    = ProofD.ChallengeContribution_enum [(1, 3)] [(2, 31); (0, 5)] Example.proofA Example.pk
  ∧ ProofD.Verify_enum (hash := Example.hash) [(1, 3)] [(0, 5); (2, 31)] [(2, 31); (0, 5)]
      Example.proofA Example.pk 10 20
    = ProofD.Verify_enum (hash := Example.hash) [(1, 3)] [(2, 31); (0, 5)] [(0, 5); (2, 31)]
        Example.proofA Example.pk 10 20
  ∧ ProofD.Verify_enum (hash := Example.hash) [(1, 3)] [(0, 5); (2, 31)] [(2, 31); (0, 5)]
      Example.proofA Example.pk 10 20
    = ProofD.Verify (hash := Example.hash) Example.proofA Example.pk 10 20.
Proof.
  apply (reconstructZ_enum_indep (hash := Example.hash) Example.proofA Example.pk);
    unfold enumerates; vm_compute;
    first [reflexivity | apply perm_swap].
Defined.

Lemma ProofList_Verify_bound_total_witness :
  ProofD.SecretKeyResponse Example.proofB = None
  ∧ ProofList.Verify (hash := Example.hash)
      [IsProofD Example.proofA; IsProofD Example.proofB] [Example.pk; Example.pk] 10 20 true
    = None.
Proof.
  apply (proj2 (ProofList_Verify_bound_total (hash := Example.hash)
                  [IsProofD Example.proofA; IsProofD Example.proofB]
                  [Example.pk; Example.pk] 10 20 [8; 24; 4; 48] eq_refl
                  ltac:(vm_compute; reflexivity))
           (IsProofD Example.proofA) [IsProofD Example.proofA] Example.proofB []).
  - reflexivity.
  - reflexivity.
  - vm_compute. eexists. reflexivity.
  - vm_compute. reflexivity.
  - intros j p pk Hj Hpk. destruct j as [|j]; [|by destruct j].
    injection Hj as <-. injection Hpk as <-. vm_compute. split; reflexivity.
Defined.

(** * Further properties of the code *)

(** ** ProofU *)

Lemma ProofU_correctResponseSizes_true p pk :
  (LvPrimeCommit (PublicKey.Params pk) + 1 < Uint.modulus)%N →
  ProofU.correctResponseSizes p pk = true ↔ responseSizeInRangeU p pk.
Proof.
  intros Hv. unfold ProofU.correctResponseSizes, responseSizeInRangeU.
  rewrite Lsh_1_succ by done. rewrite andb_true_iff, Z.geb_le, Z.leb_le. done.
Qed.

(** X1. [ProofU.Verify] returns true exactly when [vPrimeResponse] is in
    its range and the challenge recomputed as
    H(context, u, reconstructUcommit(pk), nonce) equals [c]; with a response
    out of range it returns false whenever the commitment is reconstructed.
    [LvPrimeCommit+1] fits a [uint]. *)
Theorem ProofU_Verify_iff {hash : HashCommit} (p : ProofU.t) (pk : PublicKey.t)
    (context nonce : Z) :
  (LvPrimeCommit (PublicKey.Params pk) + 1 < Uint.modulus)%N →
  (ProofU.Verify p pk context nonce = Some true
   ↔ responseSizeInRangeU p pk
     ∧ ∃ uc, ProofU.reconstructUcommit p pk = Some uc
             ∧ hashCommit [context; ProofU.u p; uc; nonce] = ProofU.c p)
  ∧ (∀ uc, ProofU.reconstructUcommit p pk = Some uc → ¬ responseSizeInRangeU p pk →
           ProofU.Verify p pk context nonce = Some false).
Proof.
  intros Hv. pose proof (ProofU_correctResponseSizes_true p pk Hv) as Hsz.
  unfold ProofU.Verify, ProofU.ChallengeContribution, ProofU.VerifyWithChallenge,
    createChallenge.
  split.
  - destruct (ProofU.reconstructUcommit p pk) as [uc|]; simpl;
      [|split; [done|by intros [_ (? & [=] & _)]]].
    split.
    + intros [= Hb]. apply andb_true_iff in Hb as [Hs Hc].
      apply Hsz in Hs. apply Z.eqb_eq in Hc. split; [done|]. by exists uc.
    + intros [Hs (uc' & [= <-] & Hc)]. f_equal. apply andb_true_iff. split.
      * by apply Hsz.
      * by apply Z.eqb_eq.
  - intros uc -> Hn. simpl. f_equal.
    destruct (ProofU.correctResponseSizes p pk) eqn:Hs; [|done].
    exfalso. apply Hn. by apply Hsz.
Qed.

Lemma ProofU_Verify_iff_witness :
  (ProofU.Verify (hash := Example.hash) ExampleU.proofU Example.pk 10 20 = Some true
   ↔ responseSizeInRangeU ExampleU.proofU Example.pk
     ∧ ∃ uc, ProofU.reconstructUcommit ExampleU.proofU Example.pk = Some uc
             ∧ Example.hash [10; ProofU.u ExampleU.proofU; uc; 20]
               = ProofU.c ExampleU.proofU)
  ∧ (∀ uc, ProofU.reconstructUcommit ExampleU.proofU Example.pk = Some uc →
           ¬ responseSizeInRangeU ExampleU.proofU Example.pk →
           ProofU.Verify (hash := Example.hash) ExampleU.proofU Example.pk 10 20
           = Some false).
Proof.
  apply (ProofU_Verify_iff (hash := Example.hash) ExampleU.proofU Example.pk 10 20).
  example_arith.
Defined.

(** X2. The responses of an honest issuance proof reconstruct its
    commitment: when [u = S^v' * R[0]^s (mod N)], the challenge is not
    negative and the responses are [vPrimeResponse = vCommit + c*v'] and
    [sResponse = sCommit + c*s], [reconstructUcommit] returns
    [S^vCommit * R[0]^sCommit mod N]. [N] is above 1, and [S] and [R[0]] are
    units modulo [N]. *)
Theorem reconstructUcommit_honest (p : ProofU.t) (pk : PublicKey.t)
    (R0 vPrime s vCommit sCommit Sv Rs : Z) :
  1 < PublicKey.N pk →
  Z.coprime (PublicKey.S pk) (PublicKey.N pk) →
  index (PublicKey.R pk) 0 = Some R0 → Z.coprime R0 (PublicKey.N pk) →
  modPow (PublicKey.S pk) vPrime (PublicKey.N pk) = Some Sv →
  modPow R0 s (PublicKey.N pk) = Some Rs →
  ProofU.u p mod PublicKey.N pk = (Sv * Rs) mod PublicKey.N pk →
  0 ≤ ProofU.c p →
  ProofU.vPrimeResponse p = vCommit + ProofU.c p * vPrime →
  ProofU.sResponse p = sCommit + ProofU.c p * s →
  ∃ Svc Rsc,
    modPow (PublicKey.S pk) vCommit (PublicKey.N pk) = Some Svc
    ∧ modPow R0 sCommit (PublicKey.N pk) = Some Rsc
    ∧ ProofU.reconstructUcommit p pk = Some ((Svc * Rsc) mod PublicKey.N pk).
Proof.
  intros HN HS HR0 HR0c HSv HRs Hu Hc HvR HsR.
  assert (Hn : 0 < PublicKey.N pk) by lia.
  set (n := PublicKey.N pk) in *.
  rewrite (modPow_coprime n Hn _ _ HS) in HSv. injection HSv as <-.
  rewrite (modPow_coprime n Hn _ _ HR0c) in HRs. injection HRs as <-.
  apply eqm_eq in Hu.
  set (U := zpow n (PublicKey.S pk) vPrime * zpow n R0 s) in *.
  assert (HU : Z.coprime U n).
  { apply Z.coprime_mul_l; by apply coprime_zpow. }
  assert (Huc : Z.coprime (ProofU.u p) n).
  { eapply coprime_eqm; [symmetry; exact Hu|done]. }
  exists (zpow n (PublicKey.S pk) vCommit), (zpow n R0 sCommit).
  split; [by apply modPow_coprime|]. split; [by apply modPow_coprime|].
  unfold ProofU.reconstructUcommit. fold n.
  rewrite (modPow_coprime n Hn _ _ Huc). simpl.
  rewrite (modPow_coprime n Hn _ _ HS). simpl.
  rewrite HR0. simpl. rewrite (modPow_coprime n Hn _ _ HR0c). simpl.
  rewrite (Mod_pos n Hn). f_equal.
  match goal with |- ?a mod _ = ?b mod _ => change (eqm n a b) end.
  rewrite HvR, HsR.
  rewrite (zpow_eqm_base n _ U _ Hu).
  assert (Hneg : eqm n (zpow n U (- ProofU.c p)) (Z.invmod U n ^ ProofU.c p)).
  { destruct (decide (ProofU.c p = 0)) as [->|Hne].
    - simpl. rewrite zpow_0. by rewrite Z.pow_0_r.
    - rewrite zpow_neg by lia. rewrite Zmod_eqm. by rewrite Z.opp_involutive. }
  rewrite Hneg.
  rewrite (zpow_add n (PublicKey.S pk)) by done.
  rewrite (zpow_add n R0) by done.
  rewrite !zpow_mul_nonneg by done.
  transitivity (zpow n (PublicKey.S pk) vCommit * zpow n R0 sCommit
                * (Z.invmod U n * U) ^ ProofU.c p).
  - apply eqm_eq. f_equal. unfold U. rewrite !Z.pow_mul_l. ring.
  - rewrite invmod_mul_l by done. rewrite Z.pow_1_l by done. by rewrite Z.mul_1_r.
Qed.

Lemma reconstructUcommit_honest_witness :
  ∃ Svc Rsc,
    modPow (PublicKey.S Example.pk) 7 (PublicKey.N Example.pk) = Some Svc
    ∧ modPow 3 4 (PublicKey.N Example.pk) = Some Rsc
    ∧ ProofU.reconstructUcommit ExampleU.proofU Example.pk
      = Some ((Svc * Rsc) mod PublicKey.N Example.pk).
Proof.
  apply (reconstructUcommit_honest ExampleU.proofU Example.pk 3 5 2 7 4 32 9);
    example_arith.
Defined.

(** ** ProofList *)

Lemma GetProofU_from_spec (pl : ProofList.t) (count n : Z) :
  ProofList.GetProofU_from count pl n
  = if n <? count then inr ProofList.ErrMissingProofU
    else match proofUs pl !! Z.to_nat (n - count) with
         | Some p => inl p
         | None => inr ProofList.ErrMissingProofU
         end.
Proof.
  revert count. induction pl as [|q pl IH]; intros count.
  - simpl. by destruct (n <? count).
  - destruct q as [u|d]; cbn [ProofList.GetProofU_from].
    + unfold proofUs. cbn [omap list_omap]. fold (proofUs pl).
      destruct (Z.eqb_spec count n) as [->|Hne].
      * rewrite Z.ltb_irrefl, Z.sub_diag. done.
      * rewrite IH. destruct (Z.ltb_spec n count) as [Hlt|Hge].
        -- rewrite (proj2 (Z.ltb_lt n (count + 1))) by lia. done.
        -- rewrite (proj2 (Z.ltb_ge n (count + 1))) by lia.
           replace (Z.to_nat (n - count)) with (Datatypes.S (Z.to_nat (n - (count + 1))))
             by lia.
           done.
    + rewrite IH. done.
Qed.

(** X3. [GetProofU(n)] returns the [ProofU] that stands at position [n]
    (from 0) among the [ProofU] proofs of the list, the [ProofD] proofs not
    counted; it returns [ErrMissingProofU] for a negative [n] and when the
    list has no more than [n] proofs of that kind. *)
Theorem GetProofU_nth (pl : ProofList.t) (n : Z) :
  ProofList.GetProofU pl n
  = if n <? 0 then inr ProofList.ErrMissingProofU
    else match proofUs pl !! Z.to_nat n with
         | Some p => inl p
         | None => inr ProofList.ErrMissingProofU
         end.
Proof. unfold ProofList.GetProofU. rewrite GetProofU_from_spec. by rewrite Z.sub_0_r. Qed.

Lemma proofUs_nil_iff (pl : ProofList.t) :
  proofUs pl = [] ↔ ∀ p, p ∈ pl → ∃ d, p = IsProofD d.
Proof.
  induction pl as [|q pl IH].
  - split; [|done]. intros _ p Hp. by apply elem_of_nil in Hp.
  - destruct q as [u|d]; unfold proofUs; cbn [omap list_omap]; fold (proofUs pl).
    + split; [done|]. intros H. destruct (H (IsProofU u)) as [d Hd]; [left|done].
    + rewrite IH. split.
      * intros H p Hp. apply elem_of_cons in Hp as [->|Hp]; [by exists d|by apply H].
      * intros H p Hp. apply H. by right.
Qed.

(** X4. [GetFirstProofU] fails with [ErrMissingProofU] exactly when every
    proof of the list is a [ProofD]; when it returns a proof, that proof is
    in the list and only [ProofD] proofs stand before it. *)
Theorem GetFirstProofU_first (pl : ProofList.t) :
  (ProofList.GetFirstProofU pl = inr ProofList.ErrMissingProofU
   ↔ ∀ p, p ∈ pl → ∃ d, p = IsProofD d)
  ∧ (∀ u, ProofList.GetFirstProofU pl = inl u →
       ∃ pre rest, pl = pre ++ IsProofU u :: rest ∧ ∀ p, p ∈ pre → ∃ d, p = IsProofD d).
Proof.
  unfold ProofList.GetFirstProofU, ProofList.GetProofU.
  rewrite GetProofU_from_spec, Z.sub_0_r. simpl. split.
  - rewrite <- proofUs_nil_iff. destruct (proofUs pl) as [|u us]; simpl; split; done.
  - intros u. induction pl as [|q pl IH]; [done|].
    destruct q as [u'|d]; unfold proofUs; cbn [omap list_omap]; fold (proofUs pl).
    + simpl. intros [= ->]. exists [], pl. split; [done|].
      intros p Hp. by apply elem_of_nil in Hp.
    + intros Hu. destruct (IH Hu) as (pre & rest & -> & Hpre).
      exists (IsProofD d :: pre), rest. split; [done|].
      intros p Hp. apply elem_of_cons in Hp as [->|Hp]; [by exists d|by apply Hpre].
Qed.

Lemma Cmp_Eq_iff (x y : option Z) : Big.Cmp x y = Some Eq ↔ x = y.
Proof.
  destruct x as [a|], y as [b|]; simpl; split; try done.
  - intros [= H]. apply Z.compare_eq in H. by subst.
  - intros [= ->]. by rewrite Z.compare_refl.
Qed.

Lemma verifyBound_from_true (pl : ProofList.t) publicKeys expected challenge i :
  ProofList.verifyBound_from i pl publicKeys expected challenge = Some true
  ↔ ∀ j p, pl !! j = Some p →
      SecretKeyResponse p = expected
      ∧ ∃ pk, publicKeys !! (i + j)%nat = Some pk
              ∧ VerifyWithChallenge p pk challenge = true.
Proof.
  revert i. induction pl as [|q pl IH]; intros i; cbn [ProofList.verifyBound_from].
  - split; [|done]. intros _ j p Hj. by destruct j.
  - split.
    + intros Hv j p Hj.
      destruct (Big.Cmp expected (SecretKeyResponse q)) as [cmp|] eqn:Hc;
        simpl in Hv; [|done].
      destruct cmp; [|done..]. apply Cmp_Eq_iff in Hc.
      destruct (publicKeys !! i) as [pk|] eqn:Hpk; simpl in Hv; [|done].
      destruct (VerifyWithChallenge q pk challenge) eqn:Hq; simpl in Hv; [|done].
      destruct j as [|j]; simpl in Hj.
      * injection Hj as <-. split; [done|]. exists pk. by rewrite Nat.add_0_r.
      * replace (i + Datatypes.S j)%nat with (Datatypes.S i + j)%nat by lia.
        by eapply IH.
    + intros Hall. destruct (Hall 0%nat q eq_refl) as (Hr & pk & Hpk & Hq).
      rewrite Nat.add_0_r in Hpk.
      rewrite (proj2 (Cmp_Eq_iff expected (SecretKeyResponse q))) by done.
      simpl. rewrite Hpk. simpl. rewrite Hq. simpl. apply IH. intros j p Hj.
      replace (Datatypes.S i + j)%nat with (i + Datatypes.S j)%nat by lia.
      by apply Hall.
Qed.

(** X5. For a non-empty proof list and as many public keys, [Verify] with
    [shouldBeBound = true] returns true exactly when the contributions of
    all the proofs are computed, every proof has the secret-key response of
    the first proof, and every proof passes [VerifyWithChallenge] against
    the key of its position and the one challenge made from context, all
    the contributions in order, and nonce. *)
Theorem ProofList_Verify_bound_iff {hash : HashCommit} (pl : ProofList.t)
    (publicKeys : list PublicKey.t) (context nonce : Z) :
  pl ≠ [] → length pl = length publicKeys →
  ProofList.Verify pl publicKeys context nonce true = Some true
  ↔ ∃ contributions first,
      ProofList.challengeContributions pl publicKeys = Some contributions
      ∧ pl !! 0%nat = Some first
      ∧ ∀ i p pk, pl !! i = Some p → publicKeys !! i = Some pk →
          SecretKeyResponse p = SecretKeyResponse first
          ∧ VerifyWithChallenge p pk (createChallenge context nonce contributions) = true.
Proof.
  intros Hne Hlen. unfold ProofList.Verify.
  assert (Hnz : (length pl =? 0)%nat = false).
  { apply Nat.eqb_neq. by destruct pl. }
  rewrite Hnz, (proj2 (Nat.eqb_eq _ _) Hlen). cbn [negb].
  destruct (ProofList.challengeContributions pl publicKeys) as [cs|]; simpl.
  2:{ split; [done|]. by intros (? & ? & [=] & _). }
  destruct (pl !! 0%nat) as [first|] eqn:Hf; simpl.
  2:{ split; [done|]. by intros (? & ? & _ & [=] & _). }
  rewrite verifyBound_from_true. split.
  - intros Hall. exists cs, first. split; [done|]. split; [done|].
    intros i p pk Hp Hpk. destruct (Hall i p Hp) as (Hr & pk' & Hpk' & Hv).
    simpl in Hpk'. by simplify_eq.
  - intros (cs' & first' & [= <-] & [= <-] & Hall) j p Hj.
    destruct (lookup_lt_is_Some_2 publicKeys j) as [pk Hpk].
    { rewrite <- Hlen. by eapply lookup_lt_Some. }
    destruct (Hall j p pk Hj Hpk) as [Hr Hv]. split; [done|]. by exists pk.
Qed.

Lemma ProofList_Verify_bound_iff_witness :
  ProofList.Verify (hash := Example.hash)
    [IsProofU ExampleU.proofU; IsProofD Example.proofC] [Example.pk; Example.pk] 10 20 true
    = Some true
  ↔ ∃ contributions first,
      ProofList.challengeContributions [IsProofU ExampleU.proofU; IsProofD Example.proofC]
        [Example.pk; Example.pk] = Some contributions
      ∧ [IsProofU ExampleU.proofU; IsProofD Example.proofC] !! 0%nat = Some first
      ∧ ∀ i p pk, [IsProofU ExampleU.proofU; IsProofD Example.proofC] !! i = Some p →
          [Example.pk; Example.pk] !! i = Some pk →
          SecretKeyResponse p = SecretKeyResponse first
          ∧ VerifyWithChallenge p pk
              (createChallenge (hash := Example.hash) 10 20 contributions) = true.
Proof.
  apply (ProofList_Verify_bound_iff (hash := Example.hash)
           [IsProofU ExampleU.proofU; IsProofD Example.proofC] [Example.pk; Example.pk] 10 20).
  - discriminate.
  - reflexivity.
Defined.

Lemma verifyEach_from_false {hash : HashCommit} (pl : ProofList.t) publicKeys
    context nonce i :
  ProofList.verifyEach_from i pl publicKeys context nonce = Some false
  ↔ ∃ j p pk,
      pl !! j = Some p ∧ publicKeys !! (i + j)%nat = Some pk
      ∧ Proof_Verify p pk context nonce = Some false
      ∧ ∀ j' p', (j' < j)%nat → pl !! j' = Some p' →
          ∃ pk', publicKeys !! (i + j')%nat = Some pk'
                 ∧ Proof_Verify p' pk' context nonce = Some true.
Proof.
  revert i. induction pl as [|q pl IH]; intros i; cbn [ProofList.verifyEach_from].
  - split; [done|]. intros (j & p & pk & Hj & _). by destruct j.
  - split.
    + intros Hv.
      destruct (publicKeys !! i) as [pk|] eqn:Hpk; simpl in Hv; [|done].
      destruct (ChallengeContribution q pk) as [cs|] eqn:Hcs; simpl in Hv; [|done].
      destruct (VerifyWithChallenge q pk _) eqn:Hq; simpl in Hv.
      * apply IH in Hv as (j & p & pk' & Hj & Hpk' & Hp & Hbefore).
        exists (Datatypes.S j), p, pk'. split; [done|].
        split; [by replace (i + Datatypes.S j)%nat with (Datatypes.S i + j)%nat by lia|].
        split; [done|]. intros j' p' Hlt Hj'. destruct j' as [|j'].
        -- simpl in Hj'. injection Hj' as <-. exists pk. rewrite Nat.add_0_r.
           split; [done|]. rewrite Proof_Verify_unfold, Hcs. simpl. by rewrite Hq.
        -- replace (i + Datatypes.S j')%nat with (Datatypes.S i + j')%nat by lia.
           apply Hbefore; [lia|done].
      * exists 0%nat, q, pk. split; [done|]. rewrite Nat.add_0_r. split; [done|].
        split; [|intros ? ? ?; lia].
        rewrite Proof_Verify_unfold, Hcs. simpl. by rewrite Hq.
    + intros (j & p & pk & Hj & Hpk & Hp & Hbefore). destruct j as [|j].
      * simpl in Hj. injection Hj as <-. rewrite Nat.add_0_r in Hpk. rewrite Hpk. simpl.
        rewrite Proof_Verify_unfold in Hp.
        destruct (ChallengeContribution q pk) as [cs|]; simpl in *; [|done].
        injection Hp as ->. done.
      * destruct (Hbefore 0%nat q) as (pk0 & Hpk0 & Hq0); [lia|done|].
        rewrite Nat.add_0_r in Hpk0. rewrite Hpk0. simpl.
        rewrite Proof_Verify_unfold in Hq0.
        destruct (ChallengeContribution q pk0) as [cs|]; simpl in *; [|done].
        injection Hq0 as ->. simpl. apply IH.
        exists j, p, pk. split; [done|].
        split; [by replace (Datatypes.S i + j)%nat with (i + Datatypes.S j)%nat by lia|].
        split; [done|]. intros j' p' Hlt Hj'.
        replace (Datatypes.S i + j')%nat with (i + Datatypes.S j')%nat by lia.
        apply Hbefore; [lia|done].
Qed.

(** X6. For a non-empty proof list and as many public keys, [Verify] with
    [shouldBeBound = false] returns false exactly when some proof is
    rejected on its own and every proof before it is accepted on its own:
    the loop stops at the first rejected proof and does not look at the
    proofs after it. *)
Theorem ProofList_Verify_unbound_false {hash : HashCommit} (pl : ProofList.t)
    (publicKeys : list PublicKey.t) (context nonce : Z) :
  pl ≠ [] → length pl = length publicKeys →
  ProofList.Verify pl publicKeys context nonce false = Some false
  ↔ ∃ j p pk,
      pl !! j = Some p ∧ publicKeys !! j = Some pk
      ∧ Proof_Verify p pk context nonce = Some false
      ∧ ∀ j' p' pk', (j' < j)%nat → pl !! j' = Some p' → publicKeys !! j' = Some pk' →
          Proof_Verify p' pk' context nonce = Some true.
Proof.
  intros Hne Hlen. unfold ProofList.Verify.
  assert (Hnz : (length pl =? 0)%nat = false).
  { apply Nat.eqb_neq. by destruct pl. }
  rewrite Hnz, (proj2 (Nat.eqb_eq _ _) Hlen). cbn [negb].
  rewrite verifyEach_from_false. split.
  - intros (j & p & pk & Hj & Hpk & Hp & Hbefore). exists j, p, pk.
    split; [done|]. split; [done|]. split; [done|].
    intros j' p' pk' Hlt Hj' Hpk'. destruct (Hbefore j' p' Hlt Hj') as (pk'' & Hpk'' & Hv).
    simpl in Hpk''. by simplify_eq.
  - intros (j & p & pk & Hj & Hpk & Hp & Hbefore). exists j, p, pk.
    split; [done|]. split; [done|]. split; [done|].
    intros j' p' Hlt Hj'.
    destruct (lookup_lt_is_Some_2 publicKeys j') as [pk' Hpk'].
    { rewrite <- Hlen. by eapply lookup_lt_Some. }
    exists pk'. split; [done|]. by eapply Hbefore.
Qed.

Lemma ProofList_Verify_unbound_false_witness :
  ProofList.Verify (hash := Example.hash)
    [IsProofU ExampleU.proofU; IsProofU ExampleU.proofU'; IsProofD Example.proofA]
    [Example.pk; Example.pk; ExampleU.shortPk] 10 20 false = Some false
  ↔ ∃ j p pk,
      [IsProofU ExampleU.proofU; IsProofU ExampleU.proofU'; IsProofD Example.proofA] !! j
        = Some p
      ∧ [Example.pk; Example.pk; ExampleU.shortPk] !! j = Some pk
      ∧ Proof_Verify (hash := Example.hash) p pk 10 20 = Some false
      ∧ ∀ j' p' pk', (j' < j)%nat →
          [IsProofU ExampleU.proofU; IsProofU ExampleU.proofU'; IsProofD Example.proofA] !! j'
            = Some p' →
          [Example.pk; Example.pk; ExampleU.shortPk] !! j' = Some pk' →
          Proof_Verify (hash := Example.hash) p' pk' 10 20 = Some true.
Proof.
  apply (ProofList_Verify_unbound_false (hash := Example.hash)
           [IsProofU ExampleU.proofU; IsProofU ExampleU.proofU'; IsProofD Example.proofA]
           [Example.pk; Example.pk; ExampleU.shortPk] 10 20).
  - discriminate.
  - reflexivity.
Defined.

(** X7. On a list of one proof that has a secret-key response, the bound
    and the unbound verification return the same result. *)
Theorem ProofList_Verify_single {hash : HashCommit} (p : Proof) (pk : PublicKey.t)
    (context nonce : Z) :
  is_Some (SecretKeyResponse p) →
  ProofList.Verify [p] [pk] context nonce true
  = ProofList.Verify [p] [pk] context nonce false.
Proof.
  intros [r Hr]. unfold ProofList.Verify, ProofList.challengeContributions. simpl.
  destruct (ChallengeContribution p pk) as [cs|]; simpl; [|done].
  rewrite Hr. simpl. rewrite Z.compare_refl. by rewrite app_nil_r.
Qed.

Lemma ProofList_Verify_single_witness :
  ProofList.Verify (hash := Example.hash) [IsProofD Example.proofC] [Example.pk] 10 20 true
  = ProofList.Verify (hash := Example.hash) [IsProofD Example.proofC] [Example.pk] 10 20 false.
Proof.
  apply (ProofList_Verify_single (hash := Example.hash) (IsProofD Example.proofC)
           Example.pk 10 20).
  vm_compute. eexists. reflexivity.
Defined.

(** ** Edge cases of the reconstruction *)

Lemma foldlM_mulStep_None {A} (g : A → option Z) (l : list A) b x :
  x ∈ l → g x = None → foldlM (mulStep g) b l = None.
Proof.
  intros Hx Hg. revert b. induction l as [|y l IH]; intros b.
  - by apply elem_of_nil in Hx.
  - rewrite foldlM_mulStep_cons. apply elem_of_cons in Hx as [<-|Hx].
    + by rewrite Hg.
    + destruct (g y); [by apply IH|done].
Qed.

Lemma index_None {A} (l : list A) i :
  i < 0 ∨ Z.of_nat (length l) ≤ i → index l i = None.
Proof.
  intros Hi. destruct (index l i) eqn:H; [|done].
  assert (is_Some (index l i)) as Hs by by rewrite H.
  apply index_is_Some in Hs. lia.
Qed.

(** X8. A proof that names an attribute index for which the public key has
    no base, among the keys of [aResponses] or of [aDisclosed], makes
    [reconstructZ] panic on the access to [pk.R], and with it
    [ChallengeContribution] and [Verify]: the proof is not rejected, the
    verifier stops. The same holds for a public key with modulus 0. *)
Theorem reconstructZ_panics {hash : HashCommit} (p : ProofD.t) (pk : PublicKey.t)
    (context nonce : Z) :
  (∃ i, i ∈ dom (ProofD.aResponses p) ∪ dom (ProofD.aDisclosed p)
        ∧ (i < 0 ∨ Z.of_nat (length (PublicKey.R pk)) ≤ i))
  ∨ PublicKey.N pk = 0 →
  ProofD.reconstructZ p pk = None
  ∧ ProofD.ChallengeContribution p pk = None
  ∧ ProofD.Verify p pk context nonce = None.
Proof.
  intros Hbad.
  assert (Hz : ProofD.reconstructZ p pk = None).
  { unfold ProofD.reconstructZ. rewrite reconstructZ_unfold.
    destruct (Big.Exp _ _ _) as [n0|]; simpl; [|done].
    destruct Hbad as [(i & Hi & Hr)|HN].
    - apply elem_of_union in Hi as [Hi|Hi]; apply elem_of_dom in Hi as [x Hx];
        apply elem_of_map_to_list in Hx.
      + do 5 (match goal with
                |- ?e ≫= _ = None => destruct e as [?|]; simpl; [|done]
                end).
        rewrite (foldlM_mulStep_None _ _ 1 (i, x) Hx); [done|].
        unfold basePow. simpl. by rewrite index_None.
      + rewrite (foldlM_mulStep_None _ _ n0 (i, x) Hx); [done|].
        unfold baseExp. simpl. by rewrite index_None.
    - match goal with
      |- ?e ≫= _ = None => destruct e as [?|]; simpl; [|done]
      end.
      unfold Big.ModInverse. rewrite HN. done. }
  split; [done|].
  unfold ProofD.Verify, ProofD.ChallengeContribution. by rewrite Hz.
Qed.

Lemma reconstructZ_panics_witness :
  ProofD.reconstructZ Example.proofA ExampleU.shortPk = None
  ∧ ProofD.ChallengeContribution Example.proofA ExampleU.shortPk = None
  ∧ ProofD.Verify (hash := Example.hash) Example.proofA ExampleU.shortPk 10 20 = None.
Proof.
  apply (reconstructZ_panics (hash := Example.hash) Example.proofA ExampleU.shortPk 10 20).
  left. exists 2. split.
  - apply elem_of_union. left. apply elem_of_dom. vm_compute. eexists. reflexivity.
  - right. simpl. lia.
Defined.

Lemma Mod_Some_range x n r : Big.Mod x n = Some r → n ≠ 0 ∧ 0 ≤ r < Z.abs n.
Proof.
  unfold Big.Mod. destruct (Z.eqb_spec n 0) as [|Hn]; [done|]. intros [= <-].
  split; [done|]. apply Z.mod_pos_bound. lia.
Qed.

Lemma foldlM_Mod_range {A} (f : Z → A → option Z) (n : Z) (l : list A) (b z : Z) :
  (∀ acc x r, f acc x = Some r → 0 ≤ r < Z.abs n) →
  0 ≤ b < Z.abs n → foldlM f b l = Some z → 0 ≤ z < Z.abs n.
Proof.
  intros Hf. revert b. induction l as [|x l IH]; intros b Hb; simpl.
  - by intros [= <-].
  - destruct (f b x) as [r|] eqn:Hr; simpl; [|done]. apply IH. by eapply Hf.
Qed.

(** X9. Whatever the proof and the key, a commitment that is returned is
    reduced: the values of [reconstructZ], of [reconstructUcommit] and the
    commitment [z] that [Commit] hands back and stores lie in [[0, |N|)],
    and [N] is not 0. *)
Theorem commitments_reduced (pk : PublicKey.t) :
  (∀ p z, ProofD.reconstructZ p pk = Some z →
     PublicKey.N pk ≠ 0 ∧ 0 ≤ z < Z.abs (PublicKey.N pk))
  ∧ (∀ p uc, ProofU.reconstructUcommit p pk = Some uc →
       PublicKey.N pk ≠ 0 ∧ 0 ≤ uc < Z.abs (PublicKey.N pk))
  ∧ (∀ sk d values d', DisclosureProofBuilder.pk d = pk →
       DisclosureProofBuilder.Commit sk d = Some (values, d') →
       ∃ z, values = [CLSignature.A (DisclosureProofBuilder.randomizedSignature d); z]
            ∧ DisclosureProofBuilder.z d' = Some z
            ∧ PublicKey.N pk ≠ 0 ∧ 0 ≤ z < Z.abs (PublicKey.N pk)).
Proof.
  split; [|split].
  - intros p z. unfold ProofD.reconstructZ, ProofD.reconstructZ_enum.
    cbv zeta.
    repeat (match goal with
            |- ?e ≫= _ = Some _ → _ => destruct e as [?|]; simpl; [|done]
            end).
    apply Mod_Some_range.
  - intros p uc. unfold ProofU.reconstructUcommit.
    repeat (match goal with
            |- ?e ≫= _ = Some _ → _ => destruct e as [?|]; simpl; [|done]
            end).
    apply Mod_Some_range.
  - intros sk d values d' <-. unfold DisclosureProofBuilder.Commit.
    destruct (commitZ _ _ _ _ _ _) as [z|] eqn:Hz; simpl; [|done].
    intros [= <- <-]. exists z. split; [done|]. split; [done|].
    revert Hz. unfold commitZ. cbv zeta.
    do 4 (match goal with
          |- ?e ≫= _ = Some _ → _ => destruct e as [?|]; simpl; [|done]
          end).
    destruct (Big.Mod _ _) as [zm|] eqn:Hz0; simpl; [|done].
    apply Mod_Some_range in Hz0 as [HN Hz0]. intros Hz. split; [done|].
    eapply foldlM_Mod_range; [|exact Hz0|exact Hz].
    intros acc x r. simpl.
    do 3 (match goal with
          |- ?e ≫= _ = Some _ → _ => destruct e as [?|]; simpl; [|done]
          end).
    intros Hr. by apply Mod_Some_range in Hr as [_ Hr].
Qed.

Lemma commitments_reduced_witness :
  PublicKey.N Example.pk ≠ 0 ∧ 0 ≤ 30 < Z.abs (PublicKey.N Example.pk).
Proof.
  apply (proj1 (commitments_reduced Example.pk) Example.proofC 30).
  vm_compute. reflexivity.
Defined.

(** ** The undisclosed indices *)

Lemma collectUnmarked_sorted i check : StronglySorted Z.lt (collectUnmarked i check).
Proof.
  revert i. induction check as [|b check IH]; intros i; simpl; [constructor|].
  destruct b; simpl; [apply IH|]. constructor; [apply IH|].
  apply Forall_forall. intros v Hv. apply collectUnmarked_elem in Hv as (k & -> & _). lia.
Qed.

(** X10. The list that [getUndisclosedAttributes] returns is strictly
    ascending; together with the distinct disclosed indices it counts
    [numAttributes] indices; and it depends on the disclosed indices as a
    set only: the order of the disclosed list and repeated indices in it
    change nothing. *)
Theorem getUndisclosedAttributes_sorted (disclosed : list Z) (numAttributes : nat)
    (us : list Z) :
  getUndisclosedAttributes disclosed numAttributes = Some us →
  StronglySorted Z.lt us
  ∧ (length us + length (remove_dups disclosed) = numAttributes)%nat
  ∧ ∀ disclosed', (∀ v, v ∈ disclosed ↔ v ∈ disclosed') →
      getUndisclosedAttributes disclosed' numAttributes = Some us.
Proof.
  intros Hus.
  assert (Hs : ∀ ds l, getUndisclosedAttributes ds numAttributes = Some l →
            StronglySorted Z.lt l).
  { intros ds l. unfold getUndisclosedAttributes.
    destruct (markDisclosed _ _) as [check|]; simpl; [|done].
    intros [= <-]. apply collectUnmarked_sorted. }
  pose proof (getUndisclosedAttributes_Some _ _ _ Hus) as (Hnd & Hrange & Hel).
  split; [by eapply Hs|]. split.
  - pose proof (seqZ_partition numAttributes us disclosed Hnd Hrange Hel) as Hp.
    apply Permutation_length in Hp. rewrite length_seqZ, length_app in Hp. lia.
  - intros ds' Hsame.
    destruct (getUndisclosedAttributes_is_Some ds' numAttributes) as [us' Hus'].
    { intros v Hv. apply Hrange. by apply Hsame. }
    rewrite Hus'. f_equal.
    pose proof (getUndisclosedAttributes_Some _ _ _ Hus') as (Hnd' & _ & Hel').
    apply (StronglySorted_unique_strong Z.lt); [intros; lia|by eapply Hs|by eapply Hs|].
    apply NoDup_Permutation; [done|done|].
    intros v. rewrite Hel, Hel', Hsame. done.
Qed.

Lemma getUndisclosedAttributes_sorted_witness :
  StronglySorted Z.lt [0; 2; 4]
  ∧ (length [0; 2; 4] + length (remove_dups [3; 1; 3]) = 5)%nat
  ∧ ∀ disclosed', (∀ v, v ∈ [3; 1; 3] ↔ v ∈ disclosed') →
      getUndisclosedAttributes disclosed' 5 = Some [0; 2; 4].
Proof.
  apply (getUndisclosedAttributes_sorted [3; 1; 3] 5 [0; 2; 4]). reflexivity.
Defined.

(** ** The builder *)

Lemma mapGet_insert (m : gmap Z (option Z)) k x v :
  mapGet (<[k := x]> m) v = if decide (v = k) then x else mapGet m v.
Proof.
  unfold mapGet. destruct (decide (v = k)) as [->|Hne].
  - by rewrite lookup_insert_eq.
  - by rewrite lookup_insert_ne.
Qed.

Lemma Commit_frame sk d values d' :
  DisclosureProofBuilder.Commit sk d = Some (values, d') →
  (∀ v, mapGet (DisclosureProofBuilder.attrRandomizers d') v
        = if decide (v = 0) then sk
          else mapGet (DisclosureProofBuilder.attrRandomizers d) v)
  ∧ DisclosureProofBuilder.undisclosedAttributes d'
    = DisclosureProofBuilder.undisclosedAttributes d
  ∧ DisclosureProofBuilder.attributes d' = DisclosureProofBuilder.attributes d.
Proof.
  unfold DisclosureProofBuilder.Commit.
  destruct (commitZ _ _ _ _ _ _) as [z'|]; simpl; [|done].
  intros [= <- <-]. simpl. split; [|done]. intros v. apply mapGet_insert.
Qed.

(** X11. [Commit(skRandomizer)] puts [skRandomizer] in slot 0 of the
    randomizers, whatever the slot held, and leaves the other randomizers
    and the rest of the builder as they were; it hands back [[A, z]] and
    stores the same [z]; and a second [Commit] with the same randomizer
    returns the same values and leaves the builder unchanged. *)
Theorem Commit_effect (skRandomizer : option Z) (d d' : DisclosureProofBuilder.t)
    (values : list Z) :
  DisclosureProofBuilder.Commit skRandomizer d = Some (values, d') →
  (∀ v, mapGet (DisclosureProofBuilder.attrRandomizers d') v
        = if decide (v = 0) then skRandomizer
          else mapGet (DisclosureProofBuilder.attrRandomizers d) v)
  ∧ (∃ z, values = [CLSignature.A (DisclosureProofBuilder.randomizedSignature d); z]
          ∧ DisclosureProofBuilder.z d' = Some z)
  ∧ fixedFields d' = fixedFields d
  ∧ DisclosureProofBuilder.Commit skRandomizer d' = Some (values, d').
Proof.
  intros Hc. split; [|split; [|split]].
  - revert Hc. unfold DisclosureProofBuilder.Commit.
    destruct (commitZ _ _ _ _ _ _) as [z'|]; simpl; [|done].
    intros [= <- <-] v. simpl. apply mapGet_insert.
  - revert Hc. unfold DisclosureProofBuilder.Commit.
    destruct (commitZ _ _ _ _ _ _) as [z'|]; simpl; [|done].
    intros [= <- <-]. by exists z'.
  - revert Hc. unfold DisclosureProofBuilder.Commit.
    destruct (commitZ _ _ _ _ _ _) as [z'|]; simpl; [|done].
    by intros [= <- <-].
  - by eapply Commit_idem.
Qed.

Lemma Commit_effect_witness :
  (∀ v, mapGet (DisclosureProofBuilder.attrRandomizers
                  ExampleU.committed) v
        = if decide (v = 0) then Some 9
          else mapGet (DisclosureProofBuilder.attrRandomizers ExampleU.builder) v)
  ∧ (∃ z, [8; 76] = [CLSignature.A (DisclosureProofBuilder.randomizedSignature
                                      ExampleU.builder); z]
          ∧ DisclosureProofBuilder.z
              ExampleU.committed = Some z)
  ∧ fixedFields ExampleU.committed = fixedFields ExampleU.builder
  ∧ DisclosureProofBuilder.Commit (Some 9) ExampleU.committed
    = Some ([8; 76], ExampleU.committed).
Proof.
  apply (Commit_effect (Some 9) ExampleU.builder). vm_compute. reflexivity.
Defined.

(** ** One call and two phases *)

Lemma commitZ_ext pk A e v (aC aC' : gmap Z (option Z)) us :
  (∀ k, mapGet aC k = mapGet aC' k) →
  commitZ pk A e v aC us = commitZ pk A e v aC' us.
Proof.
  intros Hm. unfold commitZ. cbv zeta.
  destruct e as [e|]; simpl; [|done].
  destruct (modPow A e _) as [Ae|]; simpl; [|done].
  destruct v as [v|]; simpl; [|done].
  destruct (modPow _ v _) as [Sv|]; simpl; [|done].
  destruct (Big.Mod _ _) as [Z0|]; simpl; [|done].
  apply foldlM_ext. intros b x. by rewrite Hm.
Qed.

Lemma respond_ext pk sig attributes e v (aC aC' : gmap Z (option Z)) ds us c :
  (∀ k, mapGet aC k = mapGet aC' k) →
  respond pk sig attributes e v aC ds us c = respond pk sig attributes e v aC' ds us c.
Proof.
  intros Hm. rewrite !respond_unfold.
  rewrite (foldlM_ext (insertStep (attrResponse attributes aC c))
             (insertStep (attrResponse attributes aC' c)) us); [done|].
  intros m w. unfold insertStep, attrResponse. by rewrite Hm.
Qed.

Lemma mapGet_insert_same (m : gmap Z (option Z)) k v :
  mapGet (<[k := mapGet m k]> m) v = mapGet m v.
Proof. rewrite mapGet_insert. by destruct (decide (v = k)) as [->|]. Qed.

(** X12. [CreateDisclosureProof] is the two-phase pipeline on one builder:
    [CreateDisclosureProofBuilder], then [Commit] with the randomizer the
    builder already holds in slot 0, then [CreateProof] with
    [createChallenge] of the commitment values. Both give the same proof
    and leave the random source in the same state, and one panics exactly
    when the other does. *)
Theorem CreateDisclosureProof_two_phase {hash : HashCommit} {St} {rnd : RandomBigInt St}
    (ic : IdemixCredential.t) (disclosedAttributes : list Z) (context nonce : Z) (st : St) :
  CreateDisclosureProof ic disclosedAttributes context nonce st
  = builderPipeline ic disclosedAttributes context nonce st.
Proof.
  unfold CreateDisclosureProof, builderPipeline, CreateDisclosureProof_commit,
    CreateDisclosureProofBuilder. cbv zeta.
  destruct (CLSignature.Randomize _ _ st) as [[rs st1]|];
    destruct (getUndisclosedAttributes _ _) as [us|]; simpl; try done.
  - destruct (randomBigInt _ st1) as [[e ?] st2].
    destruct (randomBigInt _ st2) as [[v ?] st3].
    destruct (drawRandomizers _ us ∅ st3) as [aC st4]. simpl.
    unfold DisclosureProofBuilder.Commit. simpl.
    rewrite (commitZ_ext _ _ _ _ (<[0:=mapGet aC 0]> aC) aC)
      by apply mapGet_insert_same.
    destruct (commitZ _ _ _ _ _ _) as [z|]; simpl; [|done].
    unfold DisclosureProofBuilder.CreateProof, createChallenge. simpl.
    by rewrite (respond_ext _ _ _ _ _ (<[0:=mapGet aC 0]> aC) aC)
      by apply mapGet_insert_same.
  - destruct (randomBigInt _ st1) as [[e ?] st2].
    by destruct (randomBigInt _ st2) as [[v ?] st3].
Qed.

(** X15. A disclosed index that is negative or not below the number of
    attributes makes [CreateDisclosureProof] and
    [CreateDisclosureProofBuilder] panic, whatever the credential, the
    other indices and the random source. *)
Theorem disclosed_out_of_range {hash : HashCommit} {St} {rnd : RandomBigInt St}
    (ic : IdemixCredential.t) (disclosedAttributes : list Z) (context nonce : Z) (st : St)
    (v : Z) :
  v ∈ disclosedAttributes →
  v < 0 ∨ Z.of_nat (length (IdemixCredential.Attributes ic)) ≤ v →
  CreateDisclosureProof ic disclosedAttributes context nonce st = None
  ∧ CreateDisclosureProofBuilder ic disclosedAttributes st = None.
Proof.
  intros Hv Hout.
  assert (Hn : getUndisclosedAttributes disclosedAttributes
                 (length (IdemixCredential.Attributes ic)) = None).
  { apply getUndisclosedAttributes_None. by exists v. }
  split.
  - unfold CreateDisclosureProof, CreateDisclosureProof_commit. by rewrite Hn.
  - unfold CreateDisclosureProofBuilder. cbv zeta.
    destruct (CLSignature.Randomize _ _ st) as [[rs st1]|]; simpl; [|done].
    destruct (randomBigInt _ st1) as [[e ?] st2].
    destruct (randomBigInt _ st2) as [[v' ?] st3]. by rewrite Hn.
Qed.

Lemma disclosed_out_of_range_witness :
  CreateDisclosureProof (hash := Example.hash) (rnd := Example.counter)
    Example.cred [1; 3] 10 20 5 = None
  ∧ CreateDisclosureProofBuilder (rnd := Example.counter) Example.cred [1; 3] 5 = None.
Proof.
  apply (disclosed_out_of_range (hash := Example.hash) (rnd := Example.counter)
           Example.cred [1; 3] 10 20 5 3).
  - right. left.
  - right. simpl. lia.
Defined.

(** ** The secret-key response of a committed builder *)

(** X14. After [Commit(skRandomizer)], the proof that [CreateProof(c)]
    makes answers for the secret key with [skRandomizer + c * attributes[0]]
    when index 0 is undisclosed, and has no secret-key response when it is
    disclosed; the responses for the other undisclosed indices are made
    from the randomizers the builder had before [Commit]. *)
Theorem Commit_CreateProof_responses (skRandomizer : option Z) (c : Z)
    (d d' : DisclosureProofBuilder.t) (values : list Z) (p : ProofD.t) :
  DisclosureProofBuilder.Commit skRandomizer d = Some (values, d') →
  DisclosureProofBuilder.CreateProof c d' = Some p →
  (0 ∈ DisclosureProofBuilder.undisclosedAttributes d →
     ∃ r m0, skRandomizer = Some r
             ∧ index (DisclosureProofBuilder.attributes d) 0 = Some m0
             ∧ ProofD.SecretKeyResponse p = Some (r + c * m0))
  ∧ (0 ∉ DisclosureProofBuilder.undisclosedAttributes d →
       ProofD.SecretKeyResponse p = None)
  ∧ (∀ w, w ≠ 0 →
       ProofD.aResponses p !! w
       = if decide (w ∈ DisclosureProofBuilder.undisclosedAttributes d)
         then attrResponse (DisclosureProofBuilder.attributes d)
                (DisclosureProofBuilder.attrRandomizers d) c w
         else None)
  ∧ ProofD.c p = c.
Proof.
  intros Hc Hp.
  destruct (Commit_frame _ _ _ _ Hc) as (Hrand & Hus & Hat).
  unfold DisclosureProofBuilder.CreateProof in Hp.
  apply respond_Some in Hp as (e & v & _ & _ & Hpc & _ & _ & _ & Hr & _ & Hrs & _).
  rewrite Hus, Hat in Hr, Hrs.
  split; [|split; [|split]].
  - intros H0. unfold ProofD.SecretKeyResponse. rewrite Hr, decide_True by done.
    destruct (Hrs 0 H0) as [x Hx]. revert Hx. unfold attrResponse.
    destruct (index _ 0) as [m0|]; simpl; [|done].
    rewrite Hrand, decide_True by done.
    destruct skRandomizer as [r|]; simpl; [|done]. intros _. by exists r, m0.
  - intros H0. unfold ProofD.SecretKeyResponse. by rewrite Hr, decide_False.
  - intros w Hw. rewrite Hr. destruct (decide (w ∈ _)); [|done].
    unfold attrResponse. by rewrite Hrand, decide_False.
  - done.
Qed.

Lemma Commit_CreateProof_responses_witness :
  (0 ∈ DisclosureProofBuilder.undisclosedAttributes ExampleU.builder →
     ∃ r m0, Some 9 = Some r
             ∧ index (DisclosureProofBuilder.attributes ExampleU.builder) 0 = Some m0
             ∧ ProofD.SecretKeyResponse ExampleU.proofK = Some (r + 3 * m0))
  ∧ (0 ∉ DisclosureProofBuilder.undisclosedAttributes ExampleU.builder →
       ProofD.SecretKeyResponse ExampleU.proofK = None)
  ∧ (∀ w, w ≠ 0 →
       ProofD.aResponses ExampleU.proofK !! w
       = if decide (w ∈ DisclosureProofBuilder.undisclosedAttributes ExampleU.builder)
         then attrResponse (DisclosureProofBuilder.attributes ExampleU.builder)
                (DisclosureProofBuilder.attrRandomizers ExampleU.builder) 3 w
         else None)
  ∧ ProofD.c ExampleU.proofK = 3.
Proof.
  apply (Commit_CreateProof_responses (Some 9) 3 ExampleU.builder ExampleU.committed
           [8; 76] ExampleU.proofK); vm_compute; reflexivity.
Defined.

(** ** The shape of a built proof list *)

Lemma commitAll_inv sk (proofBuilders : list nat)
    (heap heap' : gmap nat DisclosureProofBuilder.t) (commitmentValues : list Z) :
  commitAll sk proofBuilders heap = Some (commitmentValues, heap') →
  commitmentValues = proofBuilders ≫= valuesAt heap'
  ∧ (∀ a, a ∈ proofBuilders →
       ∃ d values d', heap !! a = Some d
         ∧ DisclosureProofBuilder.Commit sk d = Some (values, d')
         ∧ heap' !! a = Some d')
  ∧ (∀ a, a ∉ proofBuilders → heap' !! a = heap !! a).
Proof.
  revert heap commitmentValues.
  induction proofBuilders as [|a rest IH]; intros heap vals.
  - intros [= <- <-]. split; [done|]. split; [|done].
    intros a Ha. by apply elem_of_nil in Ha.
  - cbn [commitAll]. destruct (heap !! a) as [d|] eqn:Hd; simpl; [|done].
    change (Commit sk d) with (DisclosureProofBuilder.Commit sk d).
    destruct (DisclosureProofBuilder.Commit sk d) as [[values d1]|] eqn:Hc; simpl; [|done].
    destruct (commitAll sk rest _) as [[vals' heap1]|] eqn:Hall; simpl; [|done].
    intros [= <- <-]. apply IH in Hall as (-> & Hin & Hout).
    assert (Ha' : heap1 !! a = Some d1).
    { destruct (decide (a ∈ rest)) as [Hi|Hi].
      - destruct (Hin a Hi) as (d0 & values0 & d0' & Hd0 & Hc0 & Hd0').
        rewrite lookup_insert_eq in Hd0. injection Hd0 as <-.
        rewrite (Commit_idem _ _ _ _ Hc) in Hc0. by injection Hc0 as <- <-.
      - rewrite (Hout a Hi). by rewrite lookup_insert_eq. }
    split; [|split].
    + change (values ++ rest ≫= valuesAt heap1
              = valuesAt heap1 a ++ rest ≫= valuesAt heap1).
      f_equal. unfold valuesAt. rewrite Ha'. simpl.
      revert Hc. unfold DisclosureProofBuilder.Commit.
      destruct (commitZ _ _ _ _ _ _) as [z'|]; simpl; [|done].
      by intros [= <- <-].
    + intros b Hb. destruct (decide (b = a)) as [->|Hne].
      * by eexists d, _, d1.
      * apply elem_of_cons in Hb as [->|Hb]; [done|].
        destruct (Hin b Hb) as (d0 & values0 & d0' & Hd0 & Hc0 & Hd0').
        rewrite lookup_insert_ne in Hd0 by done. by exists d0, values0, d0'.
    + intros b Hb. rewrite not_elem_of_cons in Hb. destruct Hb as [Hne Hb].
      rewrite (Hout b Hb). by rewrite lookup_insert_ne.
Qed.

Lemma createAll_inv challenge (proofBuilders : list nat)
    (heap : gmap nat DisclosureProofBuilder.t) (pl : ProofList.t) :
  createAll challenge proofBuilders heap = Some pl →
  Forall2 (λ a pr, ∃ d p, heap !! a = Some d
                          ∧ DisclosureProofBuilder.CreateProof challenge d = Some p
                          ∧ pr = IsProofD p) proofBuilders pl.
Proof.
  revert pl. induction proofBuilders as [|a rest IH]; intros pl.
  - intros [= <-]. constructor.
  - cbn [createAll]. destruct (heap !! a) as [d|] eqn:Hd; simpl; [|done].
    destruct (DisclosureProofBuilder.CreateProof challenge d) as [p|] eqn:Hp; simpl; [|done].
    destruct (createAll challenge rest heap) as [pl'|]; simpl; [|done].
    intros [= <-]. constructor; [by exists d, p|by apply IH].
Qed.

(** X13. What [BuildProofList] returns: it draws one random number, the
    shared secret-key randomizer; every builder named in the list has been
    committed with it, and builders not named are untouched; the list of
    proofs has one [ProofD] per entry of the builder list, in its order,
    made by [CreateProof] from the committed builder; and every proof
    carries the one challenge, [createChallenge] of the commitment values
    of the builders in list order. *)
Theorem BuildProofList_shape {hash : HashCommit} {St} {rnd : RandomBigInt St}
    (params : SystemParameters) (context nonce : Z) (proofBuilders : list nat)
    (heap heap' : gmap nat DisclosureProofBuilder.t) (st st' : St) (pl : ProofList.t) :
  BuildProofList params context nonce proofBuilders heap st = Some (pl, heap', st') →
  let skCommitment := (randomBigInt (LmCommit params) st).1.1 in
  let challenge := createChallenge context nonce (proofBuilders ≫= valuesAt heap') in
  st' = (randomBigInt (LmCommit params) st).2
  ∧ length pl = length proofBuilders
  ∧ (∀ a, a ∉ proofBuilders → heap' !! a = heap !! a)
  ∧ ∀ j a, proofBuilders !! j = Some a →
      ∃ d values d' p,
        heap !! a = Some d
        ∧ DisclosureProofBuilder.Commit skCommitment d = Some (values, d')
        ∧ heap' !! a = Some d'
        ∧ DisclosureProofBuilder.CreateProof challenge d' = Some p
        ∧ pl !! j = Some (IsProofD p)
        ∧ ProofD.c p = challenge.
Proof.
  unfold BuildProofList.
  destruct (randomBigInt (LmCommit params) st) as [[sk e] st1]. simpl.
  destruct (commitAll sk proofBuilders heap) as [[vals heap1]|] eqn:Hall; simpl; [|done].
  destruct (createAll _ proofBuilders heap1) as [pl1|] eqn:Hcr; simpl; [|done].
  intros [= <- <- <-].
  apply commitAll_inv in Hall as (-> & Hin & Hout).
  apply createAll_inv in Hcr.
  split; [done|]. split; [symmetry; by eapply Forall2_length|]. split; [done|].
  intros j a Hj.
  destruct (Forall2_lookup_l _ _ _ _ _ Hcr Hj) as (pr & Hpr & d' & p & Hd' & Hp & ->).
  destruct (Hin a) as (d & values & d0 & Hd & Hc & Hd0).
  { by eapply list_elem_of_lookup_2. }
  rewrite Hd' in Hd0. injection Hd0 as <-.
  exists d, values, d', p. repeat split; try done.
  unfold DisclosureProofBuilder.CreateProof in Hp.
  by apply respond_Some in Hp as (_ & _ & _ & _ & Hpc & _).
Qed.

Lemma BuildProofList_shape_witness :
  let skCommitment :=
    (randomBigInt (RandomBigInt := Example.counter) (LmCommit Example.params) 324769).1.1 in
  let challenge :=
    createChallenge (hash := Example.hash) 11 20
      ([0%nat; 1%nat; 0%nat] ≫= valuesAt ExampleU.builtHeap) in
  974308 = (randomBigInt (RandomBigInt := Example.counter)
              (LmCommit Example.params) 324769).2
  ∧ length ExampleU.builtList = length [0%nat; 1%nat; 0%nat]
  ∧ (∀ a, a ∉ [0%nat; 1%nat; 0%nat] → ExampleU.builtHeap !! a = Example.heap !! a)
  ∧ ∀ j a, [0%nat; 1%nat; 0%nat] !! j = Some a →
      ∃ d values d' p,
        Example.heap !! a = Some d
        ∧ DisclosureProofBuilder.Commit skCommitment d = Some (values, d')
        ∧ ExampleU.builtHeap !! a = Some d'
        ∧ DisclosureProofBuilder.CreateProof challenge d' = Some p
        ∧ ExampleU.builtList !! j = Some (IsProofD p)
        ∧ ProofD.c p = challenge.
Proof.
  apply (BuildProofList_shape (hash := Example.hash) (rnd := Example.counter)
           Example.params 11 20 [0%nat; 1%nat; 0%nat] Example.heap ExampleU.builtHeap
           324769 974308 ExampleU.builtList).
  vm_compute. reflexivity.
Defined.
